(** * Opal / Welo replication engine: a shallow embedding

    The development follows the TypeScript sources of the repository:

    - [HeadsCodec]   the head codec of [utils/replicator.js];
    - [AccessStatic] the static access controller ([access/static/index.ts]);
    - [GraphClass]   the Graph as the replica uses it, [SpecGraph] the Graph
                     the spec describes ([replica/graph.js]);
    - [Replica]      [replica/index.ts]: start, stop, add, write, has, known;
    - [Pubsub]       the broadcast replicator ([replicator/pubsub/index.ts]);
    - [Tasks]        the asynchronous calls of a replica, cut at their awaits;
    - [Welo]         the database factory ([welo.ts]): open, and the closing
                     of a database; [WeloRun] the factory over time, with
                     [stopping];
    - [Registry]     the component registry ([formats/registry.ts]);
    - [Monitor]      the pubsub monitor ([replicator/utils/pubsub/monitor.ts]),
                     with its polls cut at their await;
    - [Opal], [OpalLifecycle]  the earlier factory: open, start and stop;
    - [Bootstrap]    the bootstrap replicator: [starting];
    - [DatabaseEvents]  the listeners a database puts and takes off.

    Definitions come first, the theorems about them follow. *)

From Stdlib Require Import NArith Lia List.
From Stdlib Require Import Strings.Byte.
From stdpp Require Import base option gmap sets list strings.

Local Open Scope N_scope.

(** ** Shared data *)

(** A [Uint8Array]. *)
Abbreviation Bytes := (list byte).

#[global] Instance byte_eq_decision : EqDecision byte := byte_eq_dec.

(** Errors thrown by the code, one constructor per message. *)
Inductive Err :=
| ReplicaNotStarted        (* 'replica not started' *)
| GraphBeforeStart         (* 'Cannot read graph before replica is started' *)
| FailedToGetRoot          (* 'failed to get root', thrown by getRoot and setRoot *)
| StoreNotFound            (* a store has no value under the key *)
| StoreIO                  (* a store could not read or write *)
| DecodeError              (* a message or block that does not decode *)
| ExpectedWriteArray       (* 'expected manifest.access.config.write to be an array' *)
| NoWriters                (* 'manifest.access.write does not grant access to any writers' *)
| AlreadyOpen              (* 'database ... is already open' *)
| AlreadyOpening           (* 'database ... is already being opened' *)
| NoIdentity               (* 'no identity available' *)
| NoDatastore              (* 'no Datastore attached to Welo class' *)
| MissingComponents        (* 'missing component(s)' *)
| FailedOpening.           (* 'failed opening database with address: ...' *)

#[global] Instance Err_eq_decision : EqDecision Err.
Proof. solve_decision. Defined.

(** A CID in its binary form ([cid.bytes]); graphs and stores are keyed by it. *)
Abbreviation CID := (list byte).

#[global] Instance byte_countable : Countable byte :=
  inj_countable Byte.to_N Byte.of_N Byte.of_to_N.

(** A [BlockView]: encoded bytes and their content address. *)
Record Block := { block_cid : CID; block_bytes : Bytes }.

(** The fields of [IdentityInstance] and [EntryInstance] that the code reads. *)
Record Identity := { identity_id : Bytes; identity_block : Block }.

Record Entry := {
  entry_cid : CID;
  entry_block : Block;
  entry_tag : Bytes;
  entry_next : list CID;
  entry_identity : Identity;
  entry_payload : Bytes
}.

(** ** Computations that mutate an object and may throw

    A method is a function from the object's state to a result and the state
    it leaves behind: what was mutated before a throw stays mutated. *)

Definition M (S A : Type) : Type := S -> result A Err * S.

#[global] Instance M_ret {S} : MRet (M S) := fun A a s => (Ok a, s).

#[global] Instance M_bind {S} : MBind (M S) := fun A B f m s =>
  match m s with
  | (Ok a, s') => f a s'
  | (Error e, s') => (Error e, s')
  end.

Definition throw {S A} (e : Err) : M S A := fun s => (Error e, s).

Definition gets {S A} (f : S -> A) : M S A := fun s => (Ok (f s), s).

Definition modify {S} (f : S -> S) : M S unit := fun s => (Ok tt, f s).

(** [m.finally(f)] *)
Definition finally {S A} (m : M S A) (f : S -> S) : M S A := fun s =>
  let '(r, s') := m s in (r, f s').

Definition is_ok {A} (r : result A Err) : bool :=
  match r with Ok _ => true | Error _ => false end.

(** ** Stores

    A datastore or blockstore as the code sees it: [get] finds the value,
    finds nothing, or fails to read what is there; [put] writes or fails. *)

Inductive Slot := Readable (v : Bytes) | Unreadable.

Record Store (K : Type) `{Countable K} := {
  cells : gmap K Slot;
  writable : bool
}.
Arguments cells {K _ _} _.
Arguments writable {K _ _} _.

Definition store_get `{Countable K} (k : K) (s : Store K) : result Bytes Err :=
  match cells s !! k with
  | Some (Readable v) => Ok v
  | Some Unreadable => Error StoreIO
  | None => Error StoreNotFound
  end.

Definition store_put `{Countable K} (k : K) (v : Bytes) (s : Store K)
  : result unit Err * Store K :=
  if writable s
  then (Ok tt, {| cells := <[k := Readable v]> (cells s); writable := true |})
  else (Error StoreIO, s).

Definition empty_store `{Countable K} : Store K :=
  {| cells := ∅; writable := true |}.

(** ** The head codec *)

Module HeadsCodec.

(** Modelled from the spec: [encodeHeads] and [decodeHeads] of
    [utils/replicator.js], which the replicators call and which is not among
    the sources.  The spec describes the encoding as a "length-prefixed
    concatenation of raw hash bytes" and the decoding as one that "validates
    structure and yields the hash list or fails with a decode error".  Each
    hash is written as its length, an unsigned base-128 varint with the least
    significant group first, followed by its bytes. *)

Definition byte_of (n : N) : byte := default x00 (Byte.of_N n).

Fixpoint encodeVarint_aux (fuel : nat) (n : N) : Bytes :=
  match fuel with
  | O => [byte_of (n mod 128)]
  | S fuel' =>
      if n <? 128 then [byte_of n]
      else byte_of (128 + n mod 128) :: encodeVarint_aux fuel' (n / 128)
  end.

Definition encodeVarint (n : N) : Bytes :=
  encodeVarint_aux (N.to_nat (N.size n)) n.

(** [first] tells whether the group read is the first of the varint: a final
    group of zero is accepted there only, so a length has one encoding. *)
Fixpoint decodeVarint_aux (first : bool) (shift acc : N) (bs : Bytes)
  : option (N * Bytes) :=
  match bs with
  | [] => None
  | b :: rest =>
      let v := Byte.to_N b in
      if v <? 128 then
        if (v =? 0) && negb first then None
        else Some (acc + N.shiftl v shift, rest)
      else decodeVarint_aux false (shift + 7) (acc + N.shiftl (v - 128) shift) rest
  end.

Definition decodeVarint (bs : Bytes) : option (N * Bytes) :=
  decodeVarint_aux true 0 0 bs.

Definition encodeHead (h : Bytes) : Bytes :=
  encodeVarint (N.of_nat (length h)) ++ h.

Definition encodeHeads (heads : list Bytes) : Bytes :=
  concat (map encodeHead heads).

Fixpoint decodeHeads_aux (fuel : nat) (msg : Bytes) : result (list Bytes) Err :=
  match msg with
  | [] => Ok []
  | _ :: _ =>
      match fuel with
      | O => Error DecodeError
      | S fuel' =>
          match decodeVarint msg with
          | None => Error DecodeError
          | Some (n, rest) =>
              let len := N.to_nat n in
              if decide (len ≤ length rest)%nat then
                match decodeHeads_aux fuel' (drop len rest) with
                | Ok hs => Ok (take len rest :: hs)
                | Error e => Error e
                end
              else Error DecodeError
          end
      end
  end.

Definition decodeHeads (msg : Bytes) : result (list Bytes) Err :=
  decodeHeads_aux (length msg) msg.

End HeadsCodec.

(** ** The static access controller ([access/static/index.ts]) *)

Module AccessStatic.

(** An element of [config.write]: [Uint8Array | string]. *)
Inductive Writer := WriterString (s : string) | WriterBytes (b : Bytes).

(** [manifest.access.config]; [config_write] is [None] when [write] is not
    an array. *)
Record Config := { config_write : option (list Writer) }.

Record AccessProtocol := { access_protocol : string; access_config : option Config }.

Record ManifestInstance := { manifest_access : option AccessProtocol }.

(** [base32.encode] of multiformats and the [wildcard] constant of
    [access/util.js], neither of which is among the sources. *)
Class Multibase := {
  base32_encode : Bytes -> string;
  wildcard : string
}.

Record StaticAccess := {
  manifest : option ManifestInstance;
  config : option Config;
  write : gset string;
  _isStarted : bool
}.

Definition isStarted (a : StaticAccess) : bool := _isStarted a.

Section WithMultibase.
Context `{Multibase}.

(** [typeof w === 'string' ? w : base32.encode(w)] *)
Definition writer_string (w : Writer) : string :=
  match w with
  | WriterString s => s
  | WriterBytes b => base32_encode b
  end.

(** [manifest?.access?.config] reads through absent parts. *)
Definition manifest_config (m : option ManifestInstance) : option Config :=
  match m with
  | Some m =>
      match manifest_access m with
      | Some p => access_config p
      | None => None
      end
  | None => None
  end.

(** [Array.isArray(config?.write)] and the array. *)
Definition write_array (cfg : option Config) : option (list Writer) :=
  match cfg with
  | Some c => config_write c
  | None => None
  end.

(** The constructor. *)
Definition new (m : option ManifestInstance) : result StaticAccess Err :=
  let cfg := manifest_config m in
  match write_array cfg with
  | None => Error ExpectedWriteArray
  | Some ws =>
      Ok {| manifest := m;
            config := cfg;
            write := list_to_set (map writer_string ws);
            _isStarted := false |}
  end.

Definition start : M StaticAccess unit := fun a =>
  if isStarted a then (Ok tt, a)
  else
    match write_array (config a) with
    | Some (_ :: _) =>
        (Ok tt, {| manifest := manifest a; config := config a;
                   write := write a; _isStarted := true |})
    | _ => (Error NoWriters, a)
    end.

Definition stop : M StaticAccess unit := fun a =>
  if negb (isStarted a) then (Ok tt, a)
  else (Ok tt, {| manifest := manifest a; config := config a;
                  write := write a; _isStarted := false |}).

Definition close : M StaticAccess unit := mret tt.

Definition canAppend (entry : Entry) : M StaticAccess bool := fun a =>
  let string := base32_encode (identity_id (entry_identity entry)) in
  (Ok (bool_decide (string ∈ write a) || bool_decide (wildcard ∈ write a)), a).

(** The calls a holder of the controller can make on it. *)
Inductive Call :=
| CallStart | CallStop | CallClose | CallCanAppend (entry : Entry).

Definition call (c : Call) (a : StaticAccess) : StaticAccess :=
  match c with
  | CallStart => (start a).2
  | CallStop => (stop a).2
  | CallClose => (close a).2
  | CallCanAppend e => (canAppend e a).2
  end.

Definition calls (cs : list Call) (a : StaticAccess) : StaticAccess :=
  foldl (fun a c => call c a) a cs.

End WithMultibase.

End AccessStatic.

(** ** The Graph as the replica uses it

    [replica/graph.js] is not among the sources.  The replica is written
    against this interface: the constructor and the methods it calls. *)

Class GraphClass := {
  Graph : Type;
  GraphRoot : Type;
  (** [new Graph(blockstore, root)], with [root] possibly undefined *)
  graph_new : option GraphRoot -> Graph;
  graph_add : CID -> list CID -> Graph -> Graph;
  graph_deny : CID -> Graph -> Graph;
  graph_has : CID -> Graph -> bool;
  graph_known : CID -> Graph -> bool;
  (** [this.equals(other)] *)
  graph_equals : Graph -> Graph -> bool;
  (** the keys of [graph.heads], in the order [queryKeys] yields them *)
  graph_heads : Graph -> list CID;
  (** the keys of [graph.denied] *)
  graph_denied : Graph -> gset CID;
  graph_root : Graph -> GraphRoot
}.

(** Modelled from the spec: what sections 3 and 4.1 say of a Graph on hashes
    it has already seen.  "Re-adding an already-accepted entry is a no-op";
    a denied hash is "never re-processed by future add calls for the same
    hash" and is "retained permanently"; an entry that was added is accepted
    from then on, unless it is denied; and [equals], a structural equality,
    holds between a Graph and itself. *)
Class GraphLaws `{GraphClass} : Prop := {
  graph_equals_refl g : graph_equals g g = true;
  graph_add_accepted h nx g : graph_has h g = true -> graph_add h nx g = g;
  graph_add_denied h nx g : h ∈ graph_denied g -> graph_add h nx g = g;
  graph_deny_denied h g : h ∈ graph_denied g -> graph_deny h g = g;
  graph_add_settles h nx g :
    graph_has h (graph_add h nx g) = true \/ h ∈ graph_denied (graph_add h nx g);
  graph_deny_denies h g : h ∈ graph_denied (graph_deny h g);
  graph_denied_add h h' nx g :
    h ∈ graph_denied g -> h ∈ graph_denied (graph_add h' nx g);
  graph_denied_deny h h' g :
    h ∈ graph_denied g -> h ∈ graph_denied (graph_deny h' g);
  graph_has_add h h' nx g :
    graph_has h g = true ->
    graph_has h (graph_add h' nx g) = true \/ h ∈ graph_denied (graph_add h' nx g);
  graph_has_deny h h' g :
    graph_has h g = true ->
    graph_has h (graph_deny h' g) = true \/ h ∈ graph_denied (graph_deny h' g)
}.

(** [graph.clone()]: graphs are values here, a snapshot is the value itself. *)
Definition graph_clone `{GraphClass} (g : Graph) : Graph := g.

(** Modelled from the spec: the Graph of [replica/graph.js], which is not
    among the sources.  Section 3 and 4.1 of the spec describe it: four
    partitions (heads, tails, missing, denied) over the entries observed;
    [add] takes an entry in, demotes its [next] targets from heads and places the
    unresolved ones into missing, and is a no-op on an entry already accepted;
    [deny] marks a hash permanently denied, removes it from heads, tails and
    missing, and the hash is never processed again by [add]; [has] is
    "accepted", [known] is "accepted or missing"; [equals] compares the four
    partitions; the root is the snapshot of convergence state. *)
Module SpecGraph.

Record t := {
  nodes : gmap CID (list CID);     (* accepted entries and their [next] *)
  heads : gset CID;
  tails : gset CID;
  missing : gset CID;
  denied : gset CID
}.

Definition empty : t :=
  {| nodes := ∅; heads := ∅; tails := ∅; missing := ∅; denied := ∅ |}.

Definition has (h : CID) (g : t) : bool := bool_decide (h ∈ dom (nodes g)).

Definition known (h : CID) (g : t) : bool :=
  has h g || bool_decide (h ∈ missing g).

(** The accepted entries that name [h] among their [next]. *)
Definition referrers (h : CID) (g : t) : gset CID :=
  dom (filter (fun kv => h ∈ kv.2) (nodes g)).

Definition add (h : CID) (nx : list CID) (g : t) : t :=
  if bool_decide (h ∈ denied g) || has h g then g
  else
    let live := filter (fun n => n ∉ denied g) nx in
    let resolved := filter (fun n => n ∈ dom (nodes g)) live in
    let unresolved := filter (fun n => (n ∉ dom (nodes g)) ∧ (n ≠ h)) live in
    {| nodes := <[h := nx]> (nodes g);
       (* a head unless a known entry already names it; its targets no longer are *)
       heads := (if bool_decide (h ∈ missing g) then heads g else heads g ∪ {[h]})
                  ∖ list_to_set resolved;
       (* a tail while none of its predecessors is held; those that waited
          for it no longer are *)
       tails := (tails g ∖ referrers h g)
                  ∪ (if bool_decide (resolved = []) then {[h]} else ∅);
       missing := (missing g ∖ {[h]}) ∪ list_to_set unresolved;
       denied := denied g |}.

Definition deny (h : CID) (g : t) : t :=
  if bool_decide (h ∈ denied g) then g
  else
    {| nodes := delete h (nodes g);
       heads := heads g ∖ {[h]};
       tails := tails g ∖ {[h]};
       missing := missing g ∖ {[h]};
       denied := denied g ∪ {[h]} |}.

Definition equals (g1 g2 : t) : bool :=
  bool_decide (heads g1 = heads g2) && bool_decide (tails g1 = tails g2)
  && bool_decide (missing g1 = missing g2) && bool_decide (denied g1 = denied g2).

Definition of_root (root : option t) : t := default empty root.

#[export] Instance graph_class : GraphClass := {|
  Graph := t;
  GraphRoot := t;
  graph_new := of_root;
  graph_add := add;
  graph_deny := deny;
  graph_has := has;
  graph_known := known;
  graph_equals := equals;
  graph_heads := fun g => elements (heads g);
  graph_denied := denied;
  graph_root := fun g => g
|}.

End SpecGraph.

(** ** The replica ([replica/index.ts]) *)

Module Replica.

(** [BlockView<GraphRoot>] *)
Record RootBlock `{GraphClass} := {
  root_cid : CID;
  root_bytes : Bytes;
  root_value : GraphRoot
}.

(** What a replica is constructed with and does not own: the Graph class,
    [start] of a Graph that was built over a blockstore, which resolves or
    rejects, [Blocks.encode] and [Blocks.decode] of root blocks, the access
    controller's [canAppend] and [components.entry.create].  [canAppend], the
    methods of the Graph and [Blocks.encode] are taken where they resolve: a
    rejection of one of them leaves the call that awaits it with that error,
    and is not followed here. *)
Class Collaborators := {
  graph_class :: GraphClass;
  graph_start : Graph -> Store CID -> result unit Err;
  Blocks_encode : GraphRoot -> RootBlock;
  Blocks_decode : Bytes -> result RootBlock Err;
  access_canAppend : Entry -> bool;
  entry_create : Identity -> Bytes -> Bytes -> list CID -> result Entry Err
}.

Inductive ReplicaEvent := EvWrite | EvUpdate.

#[global] Instance ReplicaEvent_eq_decision : EqDecision ReplicaEvent.
Proof. solve_decision. Defined.

(** The fields of the class, [_isStarted] of [Playable], and what the replica
    has put out so far: the events dispatched on [events] and the warnings
    written to the console, oldest first.  [_queue] is kept with the calls in
    flight, in [Tasks]. *)
Record Replica `{Collaborators} := {
  manifest_tag : Bytes;           (* manifest.getTag() *)
  blocks : Store CID;
  identity : Identity;
  datastore : Store string;       (* #datastore *)
  blockstore : Store CID;         (* #blockstore *)
  graph : option Graph;           (* #graph *)
  root : option CID;
  _isStarted : bool;
  events : list ReplicaEvent;
  console : list string
}.

Section WithCollaborators.
Context `{Collaborators}.

Definition set_blocks (x : Store CID) (r : Replica) : Replica :=
  {| manifest_tag := manifest_tag r; blocks := x; identity := identity r;
     datastore := datastore r; blockstore := blockstore r; graph := graph r;
     root := root r; _isStarted := _isStarted r; events := events r;
     console := console r |}.

Definition set_stores (d : Store string) (b : Store CID) (r : Replica) : Replica :=
  {| manifest_tag := manifest_tag r; blocks := blocks r; identity := identity r;
     datastore := d; blockstore := b; graph := graph r;
     root := root r; _isStarted := _isStarted r; events := events r;
     console := console r |}.

Definition set_graph (x : option Graph) (r : Replica) : Replica :=
  {| manifest_tag := manifest_tag r; blocks := blocks r; identity := identity r;
     datastore := datastore r; blockstore := blockstore r; graph := x;
     root := root r; _isStarted := _isStarted r; events := events r;
     console := console r |}.

Definition set_root (x : option CID) (r : Replica) : Replica :=
  {| manifest_tag := manifest_tag r; blocks := blocks r; identity := identity r;
     datastore := datastore r; blockstore := blockstore r; graph := graph r;
     root := x; _isStarted := _isStarted r; events := events r;
     console := console r |}.

Definition set_isStarted (x : bool) (r : Replica) : Replica :=
  {| manifest_tag := manifest_tag r; blocks := blocks r; identity := identity r;
     datastore := datastore r; blockstore := blockstore r; graph := graph r;
     root := root r; _isStarted := x; events := events r;
     console := console r |}.

Definition set_events (x : list ReplicaEvent) (r : Replica) : Replica :=
  {| manifest_tag := manifest_tag r; blocks := blocks r; identity := identity r;
     datastore := datastore r; blockstore := blockstore r; graph := graph r;
     root := root r; _isStarted := _isStarted r; events := x;
     console := console r |}.

Definition set_console (x : list string) (r : Replica) : Replica :=
  {| manifest_tag := manifest_tag r; blocks := blocks r; identity := identity r;
     datastore := datastore r; blockstore := blockstore r; graph := graph r;
     root := root r; _isStarted := _isStarted r; events := events r;
     console := x |}.

(** The constructor: nothing is started, read or written. *)
Definition new (tag : Bytes) (idn : Identity) (bl : Store CID)
    (ds : Store string) (bs : Store CID) : Replica :=
  {| manifest_tag := tag; blocks := bl; identity := idn;
     datastore := ds; blockstore := bs; graph := None;
     root := None; _isStarted := false; events := []; console := [] |}.

Definition isStarted (r : Replica) : bool := _isStarted r.

(** [events.dispatchEvent(new CustomEvent(e))] *)
Definition dispatchEvent (e : ReplicaEvent) : M Replica unit :=
  modify (fun r => set_events (events r ++ [e]) r).

(** [console.warn(msg)] *)
Definition console_warn (msg : string) : M Replica unit :=
  modify (fun r => set_console (console r ++ [msg]) r).

(** [this.blocks.put(block)] *)
Definition blocks_put (b : Block) : M Replica unit := fun r =>
  let '(res, s) := store_put (block_cid b) (block_bytes b) (blocks r) in
  (res, set_blocks s r).

(** The [graph] getter. *)
Definition get_graph : M Replica Graph := fun r =>
  match graph r with
  | Some g => (Ok g, r)
  | None => (Error GraphBeforeStart, r)
  end.

(** [new Key('rootHash')] *)
Definition rootHashKey : string := "/rootHash".

(** [getRoot]: any failure on the way is rethrown as 'failed to get root'.
    [decodedcid] and [encodedcid] are the identity on a CID in binary form. *)
Definition getRoot (ds : Store string) (bs : Store CID) : result RootBlock Err :=
  let read :=
    match store_get rootHashKey ds with
    | Ok rootHash =>
        match store_get rootHash bs with
        | Ok bytes => Blocks_decode bytes
        | Error e => Error e
        end
    | Error e => Error e
    end in
  match read with
  | Ok block => Ok block
  | Error _ => Error FailedToGetRoot
  end.

(** [setRoot]: both puts of the [Promise.all] are issued; if one fails the
    other has still happened. *)
Definition setRoot (block : RootBlock) : M Replica unit := fun r =>
  let '(r1, bs) := store_put (root_cid block) (root_bytes block) (blockstore r) in
  let '(r2, ds) := store_put rootHashKey (root_cid block) (datastore r) in
  (if is_ok r1 && is_ok r2 then Ok tt else Error FailedToGetRoot,
   set_stores ds bs r).

(** [#updateRoot] *)
Definition updateRoot : M Replica unit :=
  g ← get_graph;
  let block := Blocks_encode (graph_root g) in
  setRoot block;;
  modify (set_root (Some (root_cid block)));;
  dispatchEvent EvUpdate.

(** [starting]: [getRoot(...).catch(() => null)], then the Graph, which is
    assigned and then started, then the root.  [start(this.#graph)] is awaited
    outside any [try]: when it rejects, [starting] rejects with its error, with
    the Graph assigned and nothing else done. *)
Definition starting : M Replica unit := fun r =>
  let root :=
    match getRoot (datastore r) (blockstore r) with
    | Ok block => Some block
    | Error _ => None
    end in
  let g := graph_new (root_value <$> root) in
  let r := set_graph (Some g) r in
  match graph_start g (blockstore r) with
  | Error e => (Error e, r)
  | Ok _ =>
      match root with
      | None => updateRoot r
      | Some block => (Ok tt, set_root (Some (root_cid block)) r)
      end
  end.

(** [stopping]: [_queue.onIdle()] resolves at once, no method of the class
    adds a job to [_queue]; [stop(this.#graph)] is taken where it resolves;
    then the Graph is released. *)
Definition stopping : M Replica unit :=
  modify (set_graph None).

(** Modelled from the spec: [Playable] of [utils/playable.js], which is not
    among the sources.  A startable unit goes "stopped -> running -> stopped;
    no partial states": [start] does nothing when running, else runs
    [starting] and is running once that has succeeded; [stop] is the
    mirror image. *)
Definition start : M Replica unit := fun r =>
  if isStarted r then (Ok tt, r)
  else (starting;; modify (set_isStarted true)) r.

Definition stop : M Replica unit := fun r =>
  if negb (isStarted r) then (Ok tt, r)
  else (stopping;; modify (set_isStarted false)) r.

Definition has (cid : CID) : M Replica bool :=
  started ← gets isStarted;
  if negb started then throw ReplicaNotStarted
  else g ← get_graph; mret (graph_has cid g).

Definition known (cid : CID) : M Replica bool :=
  started ← gets isStarted;
  if negb started then throw ReplicaNotStarted
  else g ← get_graph; mret (graph_known cid g).

Definition mismatched_tag_warning : string :=
  "replica received entry with mismatched tag".

(** The body of the loop of [add], for one entry. *)
Definition add_entry (entry : Entry) : M Replica unit :=
  tag ← gets manifest_tag;
  if decide (entry_tag entry = tag) then
    blocks_put (entry_block entry);;
    blocks_put (identity_block (entry_identity entry));;
    if access_canAppend entry then
      g ← get_graph;
      modify (set_graph (Some (graph_add (entry_cid entry) (entry_next entry) g)))
    else
      g ← get_graph;
      modify (set_graph (Some (graph_deny (entry_cid entry) g)))
  else console_warn mismatched_tag_warning.

Fixpoint add_loop (entries : list Entry) : M Replica unit :=
  match entries with
  | [] => mret tt
  | entry :: rest => add_entry entry;; add_loop rest
  end.

(** What [add] does after its loop. *)
Definition add_finish (clone : Graph) : M Replica unit :=
  g ← get_graph;
  if graph_equals g clone then mret tt else updateRoot.

(** [add]; its first guard reads [#datastore] and [#blockstore], which the
    constructor always sets, and never throws. *)
Definition add (entries : list Entry) : M Replica unit :=
  g ← get_graph;
  let clone := graph_clone g in
  add_loop entries;;
  add_finish clone.

Definition lift {A} (x : result A Err) : M Replica A := fun r => (x, r).

Definition write (payload : Bytes) : M Replica Entry :=
  started ← gets isStarted;
  if negb started then throw ReplicaNotStarted
  else
    g ← get_graph;
    idn ← gets identity;
    tag ← gets manifest_tag;
    entry ← lift (entry_create idn tag payload (graph_heads g));
    blocks_put (entry_block entry);;
    add [entry];;
    dispatchEvent EvWrite;;
    mret entry.

(** The calls a holder of a replica can make, and the states a replica can
    be in: that of a new replica, and the state any call leaves behind. *)
Inductive Call :=
| CallStart | CallStop
| CallAdd (entries : list Entry) | CallWrite (payload : Bytes)
| CallHas (cid : CID) | CallKnown (cid : CID).

Definition call (c : Call) (r : Replica) : Replica :=
  match c with
  | CallStart => (start r).2
  | CallStop => (stop r).2
  | CallAdd entries => (add entries r).2
  | CallWrite payload => (write payload r).2
  | CallHas cid => (has cid r).2
  | CallKnown cid => (known cid r).2
  end.

Inductive reachable : Replica -> Prop :=
| reachable_new tag idn bl ds bs : reachable (new tag idn bl ds bs)
| reachable_call c r : reachable r -> reachable (call c r).

(** Among the events a call dispatched, a [write] comes before an [update]. *)
Definition write_before_update (emitted : list ReplicaEvent) : Prop :=
  exists pre mid post, emitted = pre ++ EvWrite :: mid ++ EvUpdate :: post.

(** The reading of the root fails with the pointer there and the block
    unreadable, and the start fails for it, leaving the replica not started. *)
Definition unreadable_root_is_fatal (r : Replica) : Prop :=
  (exists ptr, store_get rootHashKey (datastore r) = Ok ptr /\
               store_get ptr (blockstore r) = Error StoreIO) ->
  exists e r', start r = (Error e, r') /\ isStarted r' = false.

(** The entries [add] does not skip. *)
Definition tag_matches (r : Replica) (entry : Entry) : Prop :=
  entry_tag entry = manifest_tag r.

#[global] Instance tag_matches_dec r entry : Decision (tag_matches r entry).
Proof. unfold tag_matches. apply _. Defined.

(** What [add] does to the Graph for an entry it does not skip. *)
Definition apply_entry (entry : Entry) (g : Graph) : Graph :=
  if access_canAppend entry
  then graph_add (entry_cid entry) (entry_next entry) g
  else graph_deny (entry_cid entry) g.


(** What [add] does to [blocks] for an entry it does not skip: the block of
    the entry is put, then the block of its identity. *)
Definition persist_entry (entry : Entry) (s : Store CID) : Store CID :=
  let s := (store_put (block_cid (entry_block entry))
              (block_bytes (entry_block entry)) s).2 in
  (store_put (block_cid (identity_block (entry_identity entry)))
     (block_bytes (identity_block (entry_identity entry))) s).2.

(** The warnings of [n] entries skipped. *)
Definition skipped_warnings (n : nat) : list string :=
  repeat mismatched_tag_warning n.

(** An entry the Graph has settled the way [add] would settle it: accepted
    or denied when the controller lets it in, denied when it does not. *)
Definition settled (entry : Entry) (g : Graph) : Prop :=
  if access_canAppend entry
  then graph_has (entry_cid entry) g = true \/ entry_cid entry ∈ graph_denied g
  else entry_cid entry ∈ graph_denied g.

(** A replica with its console wiped: what is left to compare when the
    warnings are set aside. *)
Definition mute (r : Replica) : Replica := set_console [] r.

End WithCollaborators.

End Replica.

(** ** The broadcast replicator ([replicator/pubsub/index.ts]) *)

Module Pubsub.
Import Replica.

Section WithCollaborators.
Context `{Collaborators}.

(** Modelled from the spec: [getHeads] of [utils/replicator.js], which is not
    among the sources: "the current ordered set of head content-hashes". *)
Definition getHeads : M Replica (list CID) :=
  g ← get_graph; mret (graph_heads g).

(** [encodeHeads]: the message [broadcast] publishes. *)
Definition encodeHeads : M Replica Bytes :=
  heads ← getHeads; mret (HeadsCodec.encodeHeads heads).

(** [parseHeads], up to its call of [addHeads]: the heads a received message
    holds. *)
Definition parseHeads (data : Bytes) : result (list CID) Err :=
  HeadsCodec.decodeHeads data.

End WithCollaborators.

End Pubsub.

(** ** A Graph that keeps the calls made on it

    The replica is written against [GraphClass]; run over this instance it
    leaves behind the calls of [add] and [deny] it made, in order. *)

Module CallLog.

Inductive GraphCall :=
| CalledAdd (cid : CID) (next : list CID)
| CalledDeny (cid : CID).

#[global] Instance GraphCall_eq_decision : EqDecision GraphCall.
Proof. solve_decision. Defined.

Definition added (h : CID) (log : list GraphCall) : bool :=
  existsb (fun c => match c with
                    | CalledAdd h' _ => bool_decide (h' = h)
                    | CalledDeny _ => false
                    end) log.

#[export] Instance graph_class : GraphClass := {|
  Graph := list GraphCall;
  GraphRoot := list GraphCall;
  graph_new := default [];
  graph_add := fun h nx log => log ++ [CalledAdd h nx];
  graph_deny := fun h log => log ++ [CalledDeny h];
  graph_has := added;
  graph_known := added;
  graph_equals := fun l1 l2 => bool_decide (l1 = l2);
  graph_heads := fun _ => [];
  graph_denied := fun log => list_to_set (omap (fun c =>
                    match c with CalledDeny h => Some h | _ => None end) log);
  graph_root := fun log => log
|}.

(** A replica over the logging Graph, its other collaborators as given. *)
Definition collaborators (canAppend : Entry -> bool)
    (create : Identity -> Bytes -> Bytes -> list CID -> result Entry Err)
  : Replica.Collaborators :=
  {| Replica.graph_class := graph_class;
     Replica.graph_start := fun _ _ => Ok tt;
     Replica.Blocks_encode := fun log =>
       @Replica.Build_RootBlock graph_class [] [] log;
     Replica.Blocks_decode := fun _ => Error DecodeError;
     Replica.access_canAppend := canAppend;
     Replica.entry_create := create |}.

(** The call [add] makes for an entry it does not skip. *)
Definition call_for (canAppend : Entry -> bool) (entry : Entry) : GraphCall :=
  if canAppend entry
  then CalledAdd (entry_cid entry) (entry_next entry)
  else CalledDeny (entry_cid entry).

End CallLog.

(** ** The calls of a replica in flight

    [add], [write] and [stop] are asynchronous: a call runs until it awaits,
    and resumes later, other calls running in between.  A call in flight is
    kept as the point it resumes from.  The cuts are at awaits of the source
    ([for await], [entry.create], [_queue.onIdle()]); the awaits inside one
    turn of the loop are not cut, so a schedule here is a schedule of the
    program in which those resolve with no other call running in between. *)

Module Tasks.
Import Replica.

Section WithCollaborators.
Context `{Collaborators}.

Inductive Task :=
(** [add] in its loop, with the snapshot it took and the entries left;
    [writing] is the entry of the [write] that called it, if one did *)
| AddLoop (clone : Graph) (todo : list Entry) (writing : option Entry)
(** [write] past its guard, the heads read, awaiting [entry.create] *)
| WriteCreate (payload : Bytes) (heads : list CID)
(** [stop] awaiting [_queue.onIdle()] *)
| StopIdle.

(** How a call ended. *)
Inductive Outcome := Resolved | Rejected (e : Err).

(** A replica, the jobs held by its [_queue], its calls in flight and the
    outcomes of the calls that ended, oldest first. *)
Record System := {
  replica : Replica;
  _queue : list Task;
  inflight : list Task;
  outcomes : list Outcome
}.

Definition boot (r : Replica) : System :=
  {| replica := r; _queue := []; inflight := []; outcomes := [] |}.

Definition is_mutation (t : Task) : bool :=
  match t with
  | AddLoop _ _ _ | WriteCreate _ _ => true
  | StopIdle => false
  end.

Definition mutations_in_flight (s : System) : nat :=
  length (filter (fun t => is_mutation t = true) (inflight s)).

(** The call suspends: it joins the calls in flight.  No method of the class
    calls [_queue.add], so nothing ever joins [_queue]. *)
Definition suspend (t : Task) (r : Replica) (s : System) : System :=
  {| replica := r; _queue := _queue s;
     inflight := inflight s ++ [t]; outcomes := outcomes s |}.

(** The call ends without having suspended. *)
Definition settle (o : Outcome) (r : Replica) (s : System) : System :=
  {| replica := r; _queue := _queue s;
     inflight := inflight s; outcomes := outcomes s ++ [o] |}.

(** The [i]-th call in flight goes on as [t], or ends. *)
Definition continue (i : nat) (t : Task) (r : Replica) (s : System) : System :=
  {| replica := r; _queue := _queue s;
     inflight := <[i := t]> (inflight s); outcomes := outcomes s |}.

Definition finish (i : nat) (o : Outcome) (r : Replica) (s : System) : System :=
  {| replica := r; _queue := _queue s;
     inflight := delete i (inflight s); outcomes := outcomes s ++ [o] |}.

Definition outcome_of {A} (x : result A Err) : Outcome :=
  match x with Ok _ => Resolved | Error e => Rejected e end.

(** [replica.add(entries)] is called: it runs to its [for await]. *)
Definition invoke_add (entries : list Entry) (s : System) : System :=
  match get_graph (replica s) with
  | (Ok g, r) => suspend (AddLoop (graph_clone g) entries None) r s
  | (Error e, r) => settle (Rejected e) r s
  end.

(** [replica.write(payload)] is called: the guard, then the heads. *)
Definition invoke_write (payload : Bytes) (s : System) : System :=
  let r := replica s in
  if negb (isStarted r) then settle (Rejected ReplicaNotStarted) r s
  else
    match get_graph r with
    | (Ok g, r) => suspend (WriteCreate payload (graph_heads g)) r s
    | (Error e, r) => settle (Rejected e) r s
    end.

(** [replica.stop()] is called: [Playable] returns at once when the replica
    is not started, else [stopping] runs to [_queue.onIdle()]. *)
Definition invoke_stop (s : System) : System :=
  let r := replica s in
  if negb (isStarted r) then settle Resolved r s
  else suspend StopIdle r s.

(** The [i]-th call in flight resumes and runs to its next cut or to its end. *)
Definition resume (i : nat) (s : System) : System :=
  let r := replica s in
  match inflight s !! i with
  | None => s
  | Some (AddLoop clone (entry :: rest) writing) =>
      match add_entry entry r with
      | (Ok _, r) => continue i (AddLoop clone rest writing) r s
      | (Error e, r) => finish i (Rejected e) r s
      end
  | Some (AddLoop clone [] writing) =>
      match add_finish clone r with
      | (Ok _, r) =>
          match writing with
          | Some _ => finish i Resolved (dispatchEvent EvWrite r).2 s
          | None => finish i Resolved r s
          end
      | (Error e, r) => finish i (Rejected e) r s
      end
  | Some (WriteCreate payload heads) =>
      match entry_create (identity r) (manifest_tag r) payload heads with
      | Ok entry =>
          match blocks_put (entry_block entry) r with
          | (Ok _, r) =>
              match get_graph r with
              | (Ok g, r) => continue i (AddLoop (graph_clone g) [entry] (Some entry)) r s
              | (Error e, r) => finish i (Rejected e) r s
              end
          | (Error e, r) => finish i (Rejected e) r s
          end
      | Error e => finish i (Rejected e) r s
      end
  | Some StopIdle =>
      match _queue s with
      | [] =>
          let '(x, r) := (stopping;; modify (set_isStarted false)) r in
          finish i (outcome_of x) r s
      | _ :: _ => s
      end
  end.

Inductive Action :=
| InvokeAdd (entries : list Entry)
| InvokeWrite (payload : Bytes)
| InvokeStop
| Resume (i : nat).

Definition step (s : System) (a : Action) : System :=
  match a with
  | InvokeAdd entries => invoke_add entries s
  | InvokeWrite payload => invoke_write payload s
  | InvokeStop => invoke_stop s
  | Resume i => resume i s
  end.

Definition run (schedule : list Action) (s : System) : System :=
  foldl step s schedule.

End WithCollaborators.

End Tasks.

(** ** The database factory ([welo.ts]) *)

Module Welo.

(** What [open] reads of a manifest: its address as a string and the
    protocols of its four components. *)
Record Manifest := {
  manifest_address : string;
  manifest_access : string;
  manifest_entry : string;
  manifest_identity : string;
  manifest_store : string
}.

(** [handlers]: the registered components, each known by its [protocol]. *)
Record Handlers := {
  handlers_access : list string;
  handlers_entry : list string;
  handlers_identity : list string;
  handlers_store : list string
}.

(** [Components]: the handlers picked for a manifest. *)
Record Components := {
  Access : string;
  Entry_ : string;
  Identity_ : string;
  Store_ : string
}.

Record OpenOptions := {
  options_identity : option Identity;
  options_Datastore : option string;
  options_replicators : option (list string)
}.

(** The argument of [Database.open]. *)
Record DbOpen := {
  open_directory : string;
  open_manifest : Manifest;
  open_identity : Identity;
  open_Datastore : string;
  open_replicators : list string;
  open_components : Components
}.

(** A listener put on a database's [closed] event: the one [open] makes,
    which forgets the database under the address it closes over. *)
Inductive Listener := ForgetOpened (addr : string).

Record Database := {
  database_address : string;
  database_isStarted : bool;
  closed_once : list Listener        (* listeners added with [once: true] *)
}.

Inductive WeloEvent := Opened (address : string) | Closed (address : string).

(** The fields of the class, the events dispatched on [events] and the errors
    written to the console, oldest first, and the Database objects created so
    far: [opened] holds references to them, as a JavaScript map does. *)
Record Welo := {
  identity : option Identity;
  datastore : option string;
  replicators : list string;
  handlers : Handlers;
  databases_dir : string;          (* dirs.databases *)
  opened : gmap string nat;
  _opening : gmap string DbOpen;
  events : list WeloEvent;
  console : list Err;
  objects : gmap nat Database
}.

Definition set_opened (x : gmap string nat) (w : Welo) : Welo :=
  {| identity := identity w; datastore := datastore w;
     replicators := replicators w; handlers := handlers w;
     databases_dir := databases_dir w; opened := x; _opening := _opening w;
     events := events w; console := console w; objects := objects w |}.

Definition set_opening (x : gmap string DbOpen) (w : Welo) : Welo :=
  {| identity := identity w; datastore := datastore w;
     replicators := replicators w; handlers := handlers w;
     databases_dir := databases_dir w; opened := opened w; _opening := x;
     events := events w; console := console w; objects := objects w |}.

Definition set_events (x : list WeloEvent) (w : Welo) : Welo :=
  {| identity := identity w; datastore := datastore w;
     replicators := replicators w; handlers := handlers w;
     databases_dir := databases_dir w; opened := opened w;
     _opening := _opening w;
     events := x; console := console w; objects := objects w |}.

Definition set_console (x : list Err) (w : Welo) : Welo :=
  {| identity := identity w; datastore := datastore w;
     replicators := replicators w; handlers := handlers w;
     databases_dir := databases_dir w; opened := opened w;
     _opening := _opening w;
     events := events w; console := x; objects := objects w |}.

Definition set_objects (x : gmap nat Database) (w : Welo) : Welo :=
  {| identity := identity w; datastore := datastore w;
     replicators := replicators w; handlers := handlers w;
     databases_dir := databases_dir w; opened := opened w;
     _opening := _opening w;
     events := events w; console := console w; objects := x |}.

Definition dispatchEvent (e : WeloEvent) : M Welo unit :=
  modify (fun w => set_events (events w ++ [e]) w).

(** [handlers.find(h => h.protocol === protocol)] *)
Definition find_handler (hs : list string) (protocol : string) : option string :=
  List.find (fun h => bool_decide (h = protocol)) hs.

Definition getComponents (manifest : Manifest) : M Welo Components := fun w =>
  match find_handler (handlers_access (handlers w)) (manifest_access manifest),
        find_handler (handlers_entry (handlers w)) (manifest_entry manifest),
        find_handler (handlers_identity (handlers w)) (manifest_identity manifest),
        find_handler (handlers_store (handlers w)) (manifest_store manifest) with
  | Some a, Some e, Some i, Some s =>
      (Ok {| Access := a; Entry_ := e; Identity_ := i; Store_ := s |}, w)
  | _, _, _, _ => (Error MissingComponents, w)
  end.

(** [open] up to the call of [Database.open]: the guards, the choice of
    identity, Datastore and replicators, the components, and the promise put
    in [_opening].  It returns what [Database.open] is called with.  The test
    of the components against null that follows [getComponents] in the source
    cannot fail, [getComponents] has thrown by then. *)
Definition open_begin (manifest : Manifest) (options : OpenOptions)
  : M Welo DbOpen :=
  let addr := manifest_address manifest in
  w ← gets (fun w => w);
  if bool_decide (is_Some (opened w !! addr)) then throw AlreadyOpen
  else if bool_decide (is_Some (_opening w !! addr)) then throw AlreadyOpening
  else
    match from_option Some (identity w) (options_identity options) with
    | None => throw NoIdentity
    | Some idn =>
        match from_option Some (datastore w) (options_Datastore options) with
        | None => throw NoDatastore
        | Some Datastore =>
            let reps := default (replicators w) (options_replicators options) in
            let directory := (databases_dir w +:+ "/" +:+ addr)%string in
            components ← getComponents manifest;
            let request :=
              {| open_directory := directory; open_manifest := manifest;
                 open_identity := idn; open_Datastore := Datastore;
                 open_replicators := reps; open_components := components |} in
            modify (fun w => set_opening (<[addr := request]> (_opening w)) w);;
            mret request
        end
    end.

(** [Database.open] resolved: a new Database object, started. *)
Definition new_database (address : string) : M Welo nat := fun w =>
  let ref := fresh (dom (objects w)) in
  let database := {| database_address := address; database_isStarted := true;
                     closed_once := [] |} in
  (Ok ref, set_objects (<[ref := database]> (objects w)) w).

(** [database.events.addEventListener('closed', l, { once: true })] *)
Definition add_closed_listener (ref : nat) (l : Listener) : M Welo unit :=
  modify (fun w =>
    set_objects
      (alter (fun d => {| database_address := database_address d;
                          database_isStarted := database_isStarted d;
                          closed_once := closed_once d ++ [l] |})
             ref (objects w)) w).

(** The promise of [open] settles: [outcome] is how [Database.open] ended.
    [then], [catch] and [finally] of the source, in that order. *)
Definition open_settle (addr : string) (outcome : result unit Err) : M Welo nat :=
  finally
    (match outcome with
     | Ok _ =>
         ref ← new_database addr;
         modify (fun w => set_opened (<[addr := ref]> (opened w)) w);;
         dispatchEvent (Opened addr);;
         add_closed_listener ref (ForgetOpened addr);;
         mret ref
     | Error e =>
         modify (fun w => set_console (console w ++ [e]) w);;
         throw FailedOpening
     end)
    (fun w => set_opening (delete addr (_opening w)) w).

(** A call of [open] from its start to the settling of its promise. *)
Definition open (manifest : Manifest) (options : OpenOptions)
    (outcome : result unit Err) : M Welo nat :=
  open_begin manifest options;;
  open_settle (manifest_address manifest) outcome.

(** A listener of [closed] runs. *)
Definition run_listener (l : Listener) : M Welo unit :=
  match l with
  | ForgetOpened addr =>
      modify (fun w => set_opened (delete addr (opened w)) w);;
      dispatchEvent (Closed addr)
  end.

Fixpoint run_listeners (ls : list Listener) : M Welo unit :=
  match ls with
  | [] => mret tt
  | l :: ls => run_listener l;; run_listeners ls
  end.

(** [Database.close]: the database stops and dispatches [closed]; the
    listeners added once are dropped as they are called. *)
Definition database_close (ref : nat) : M Welo unit := fun w =>
  match objects w !! ref with
  | None => (Ok tt, w)
  | Some d =>
      let stopped := {| database_address := database_address d;
                        database_isStarted := false; closed_once := [] |} in
      run_listeners (closed_once d)
        (set_objects (<[ref := stopped]> (objects w)) w)
  end.

(** The constructor. *)
Definition new (idn : option Identity) (ds : option string)
    (reps : list string) (hs : Handlers) (dir : string) : Welo :=
  {| identity := idn; datastore := ds; replicators := reps; handlers := hs;
     databases_dir := dir; opened := ∅; _opening := ∅; events := [];
     console := []; objects := ∅ |}.

End Welo.

(** ** Concrete collaborators and inputs for the examples *)

Module Examples.

(** A stand-in for the multibase encoder: the bytes read as a string, with
    the wildcard of the access lists written as a star. *)
#[local] Instance plain_multibase : AccessStatic.Multibase := {|
  AccessStatic.base32_encode := String.string_of_list_byte;
  AccessStatic.wildcard := "*"
|}.

Definition block_of (c : CID) : Block := {| block_cid := c; block_bytes := c |}.

Definition alice : Identity :=
  {| identity_id := [x61]; identity_block := block_of [x0a] |}.

Definition mallory : Identity :=
  {| identity_id := [x6d]; identity_block := block_of [x0b] |}.

Definition entry_by (who : Identity) (c : CID) (t : Bytes) (nx : list CID) : Entry :=
  {| entry_cid := c; entry_block := block_of c; entry_tag := t;
     entry_next := nx; entry_identity := who; entry_payload := [] |}.

(** A manifest whose access list names alice, once as bytes. *)
Definition alice_manifest : AccessStatic.ManifestInstance :=
  {| AccessStatic.manifest_access := Some
       {| AccessStatic.access_protocol := "/hldb/access/static";
          AccessStatic.access_config := Some
            {| AccessStatic.config_write :=
                 Some [AccessStatic.WriterBytes [x61]] |} |} |}.

Definition alice_access : AccessStatic.StaticAccess :=
  {| AccessStatic.manifest := Some alice_manifest;
     AccessStatic.config := AccessStatic.manifest_config (Some alice_manifest);
     AccessStatic.write := {["a"%string]};
     AccessStatic._isStarted := false |}.

(** The replica's collaborators: the Graph of the spec, which takes a write
    to its blockstore when it starts, the static access controller of alice's
    manifest, root blocks and entries addressed by their own bytes. *)
Definition encode_set (s : gset CID) : Bytes :=
  HeadsCodec.encodeHeads (elements s).

Definition encode_graph (g : SpecGraph.t) : Bytes :=
  HeadsCodec.encodeHeads
    [ HeadsCodec.encodeHeads
        (map (fun kv => HeadsCodec.encodeHeads (kv.1 :: kv.2))
             (map_to_list (SpecGraph.nodes g)));
      encode_set (SpecGraph.heads g); encode_set (SpecGraph.tails g);
      encode_set (SpecGraph.missing g); encode_set (SpecGraph.denied g) ].

Definition decode_node (b : Bytes) : option (CID * list CID) :=
  match HeadsCodec.decodeHeads b with
  | Ok (h :: nx) => Some (h, nx)
  | _ => None
  end.

Definition decode_graph (b : Bytes) : result SpecGraph.t Err :=
  match HeadsCodec.decodeHeads b with
  | Ok [n; h; t; m; d] =>
      match HeadsCodec.decodeHeads n, HeadsCodec.decodeHeads h,
            HeadsCodec.decodeHeads t, HeadsCodec.decodeHeads m,
            HeadsCodec.decodeHeads d with
      | Ok n, Ok h, Ok t, Ok m, Ok d =>
          Ok {| SpecGraph.nodes := list_to_map (omap decode_node n);
                SpecGraph.heads := list_to_set h;
                SpecGraph.tails := list_to_set t;
                SpecGraph.missing := list_to_set m;
                SpecGraph.denied := list_to_set d |}
      | _, _, _, _, _ => Error DecodeError
      end
  | _ => Error DecodeError
  end.

Definition root_block (g : SpecGraph.t) : @Replica.RootBlock SpecGraph.graph_class :=
  @Replica.Build_RootBlock SpecGraph.graph_class
    (encode_graph g) (encode_graph g) g.

Definition create_entry (idn : Identity) (tag payload : Bytes) (nx : list CID)
  : result Entry Err :=
  Ok (entry_by idn
        (HeadsCodec.encodeHeads (identity_id idn :: tag :: payload :: nx)) tag nx).

#[local] Instance collaborators : Replica.Collaborators := {|
  Replica.graph_class := SpecGraph.graph_class;
  Replica.graph_start := fun _ bs =>
    if writable bs then Ok tt else Error StoreIO;
  Replica.Blocks_encode := root_block;
  Replica.Blocks_decode := fun b =>
    match decode_graph b with
    | Ok g => Ok (root_block g)
    | Error e => Error e
    end;
  Replica.access_canAppend := fun e =>
    match (AccessStatic.canAppend e alice_access).1 with
    | Ok b => b
    | Error _ => false
    end;
  Replica.entry_create := create_entry
|}.

Definition tag0 : Bytes := [x74].

(** A new replica of alice over empty stores, and the same one started. *)
Definition fresh : Replica.Replica :=
  Replica.new tag0 alice empty_store empty_store empty_store.

Definition running : Replica.Replica := (Replica.start fresh).2.

(** A replica whose root pointer is there while the root block cannot be read. *)
Definition damaged : Replica.Replica :=
  Replica.new tag0 alice empty_store
    {| cells := {[Replica.rootHashKey := Readable [x07]]}; writable := true |}
    {| cells := {[ [x07] := Unreadable ]}; writable := true |}.


(** Three entries: one alice signed, one mallory signed, one of another
    database. *)
Definition e1 : Entry := entry_by alice [x01] tag0 [].
Definition e2 : Entry := entry_by mallory [x02] tag0 [].
Definition e3 : Entry := entry_by alice [x03] [x00] [].

(** A second entry of alice, on top of the first. *)
Definition e4 : Entry := entry_by alice [x04] tag0 [[x01]].

(** Two [add]s called one after the other, neither awaited. *)
Definition two_adds : list Tasks.Action :=
  [Tasks.InvokeAdd [e1]; Tasks.InvokeAdd [e4]].

(** [stop] called, and let through, while an [add] is half way down its
    batch; the [add] resumes after it. *)
Definition stop_during_add : list Tasks.Action :=
  [Tasks.InvokeAdd [e1; e4]; Tasks.Resume 0;
   Tasks.InvokeStop; Tasks.Resume 1; Tasks.Resume 0].

(** The same with a [write] whose entry is created and stored, not yet added. *)
Definition stop_during_write : list Tasks.Action :=
  [Tasks.InvokeWrite [x01]; Tasks.Resume 0;
   Tasks.InvokeStop; Tasks.Resume 1; Tasks.Resume 0].

(** The cid of the entry that [write [x01]] creates on alice's replica. *)
Definition written_cid : CID :=
  HeadsCodec.encodeHeads [identity_id alice; tag0; [x01]].

(** A factory with alice's identity and one handler of each kind, and the
    manifest of a database it can open. *)
Definition factory : Welo.Welo :=
  Welo.new (Some alice) (Some "level"%string) []
    {| Welo.handlers_access := ["/hldb/access/static"%string];
       Welo.handlers_entry := ["/hldb/entry/basal"%string];
       Welo.handlers_identity := ["/hldb/identity/basal"%string];
       Welo.handlers_store := ["/hldb/store/keyvalue"%string] |}
    "databases".

Definition manifest0 : Welo.Manifest :=
  {| Welo.manifest_address := "zdpu0";
     Welo.manifest_access := "/hldb/access/static";
     Welo.manifest_entry := "/hldb/entry/basal";
     Welo.manifest_identity := "/hldb/identity/basal";
     Welo.manifest_store := "/hldb/store/keyvalue" |}.

Definition no_options : Welo.OpenOptions :=
  {| Welo.options_identity := None; Welo.options_Datastore := None;
     Welo.options_replicators := None |}.

End Examples.

(** ** The component registry ([formats/registry.ts]) *)

Module Registry.

(** The errors of [errors], with the type or alias they name. *)
Inductive RegistryError :=
| TypeRegistered (type : string)
| TypeNotRegistered (type : string)
| AliasRegistered (alias : string)
| NoStar.

#[global] Instance RegistryError_eq_decision : EqDecision RegistryError.
Proof. solve_decision. Defined.

(** A key of [registered]: a type or alias, or the symbol [$tar]. *)
Inductive Key := Star | Named (name : string).

#[global] Instance Key_eq_decision : EqDecision Key.
Proof. solve_decision. Defined.

#[global] Instance Key_countable : Countable Key :=
  inj_countable'
    (fun k => match k with Star => None | Named s => Some s end)
    (fun o => match o with None => Star | Some s => Named s end)
    (fun k => match k with Star => eq_refl | Named _ => eq_refl end).

Section WithComponents.
(** The components registered, and their [type] field. *)
Context {T : Type} (type_of : T -> string).

(** [Register<T>]: the map [registered]. *)
Record Register := { registered : gmap Key T }.

(** The constructor. *)
Definition new : Register := {| registered := ∅ |}.

(** The default of the parameter [star] of [add] is
    [Object.keys(this.registered).length === 0].  [registered] is a [Map]: its
    entries are not properties of the object, so [Object.keys] of it is the
    empty array whatever it holds, and the default is [true]. *)
Definition star_default (r : Register) : bool := true.

(** [add(component, star)]; [star] is [None] when the argument is left out.
    It throws before it writes. *)
Definition add (component : T) (star : option bool) (r : Register)
  : result Register RegistryError :=
  let star := default (star_default r) star in
  if bool_decide (is_Some (registered r !! Named (type_of component)))
  then Error (TypeRegistered (type_of component))
  else
    let m := if star then <[Star := component]> (registered r) else registered r in
    Ok {| registered := <[Named (type_of component) := component]> m |}.

(** [get(type)] *)
Definition get (type : string) (r : Register) : result T RegistryError :=
  match registered r !! Named type with
  | Some c => Ok c
  | None => Error (TypeNotRegistered type)
  end.

(** [alias(type, alias)], the alias a string or [$tar]. *)
Definition alias (type : string) (a : Key) (r : Register)
  : result Register RegistryError :=
  match registered r !! Named type with
  | Some c => Ok {| registered := <[a := c]> (registered r) |}
  | None => Error (TypeNotRegistered type)
  end.

(** The getter [star]. *)
Definition star (r : Register) : result T RegistryError :=
  match registered r !! Star with
  | Some c => Ok c
  | None => Error NoStar
  end.

(** Components added one after the other with [star] left out, up to the
    first that is refused. *)
Fixpoint add_all (components : list T) (r : Register)
  : result Register RegistryError :=
  match components with
  | [] => Ok r
  | c :: rest =>
      match add c None r with
      | Ok r' => add_all rest r'
      | Error e => Error e
      end
  end.

End WithComponents.

Arguments Register T : clear implicits.
Arguments new {T}.

End Registry.

(** ** The pubsub monitor ([replicator/utils/pubsub/monitor.ts]) *)

Module Monitor.

(** The calls of [emit], by event name and argument. *)
Inductive Emitted :=
| PeerJoin (peer : string)
| PeerLeave (peer : string)
| Update.

#[global] Instance Emitted_eq_decision : EqDecision Emitted.
Proof. solve_decision. Defined.

(** A [Set<string>]: its members in insertion order, each once. *)
Definition set_add (x : string) (s : list string) : list string :=
  if bool_decide (x ∈ s) then s else s ++ [x].

(** [new Set(array)] adds the elements of the array in order. *)
Definition set_of (l : list string) : list string :=
  foldl (fun s x => set_add x s) [] l.

(** The fields of a [Monitor], and [emitted] for the calls of [emit] in the
    order they start.  The monitor has the two listeners of its constructor
    and no others. *)
Record Monitor := {
  topic : string;
  interval : N;
  peers : list string;
  _isStarted : bool;
  emitted : list Emitted
}.

Definition set_peers (v : list string) (m : Monitor) : Monitor :=
  {| topic := topic m; interval := interval m; peers := v;
     _isStarted := _isStarted m; emitted := emitted m |}.

Definition set_isStarted (v : bool) (m : Monitor) : Monitor :=
  {| topic := topic m; interval := interval m; peers := peers m;
     _isStarted := v; emitted := emitted m |}.

Definition set_emitted (v : list Emitted) (m : Monitor) : Monitor :=
  {| topic := topic m; interval := interval m; peers := peers m;
     _isStarted := _isStarted m; emitted := v |}.

(** The constructor; [interval] is the argument, [None] when left out.  The
    field is set to 1000 whatever the argument. *)
Definition new (topic : string) (interval : option N) : Monitor :=
  {| topic := topic; interval := 1000; peers := []; _isStarted := false;
     emitted := [] |}.

Definition isStarted (m : Monitor) : bool := _isStarted m.

(** [emit] runs the listeners before it returns: those of [peer-join] and of
    [peer-leave] emit [update]. *)
Definition emit (ev : Emitted) (m : Monitor) : Monitor :=
  let m := set_emitted (emitted m ++ [ev]) m in
  match ev with
  | PeerJoin _ | PeerLeave _ => set_emitted (emitted m ++ [Update]) m
  | Update => m
  end.

(** [_poll] after its [await]: [_peers] is the set read before the query was
    sent, [answer] what [ipfs.pubsub.peers] resolved to, as strings. *)
Definition poll_resume (_peers answer : list string) (m : Monitor) : Monitor :=
  let new_peers := set_of answer in
  if negb (isStarted m) then m
  else
    let m := set_peers new_peers m in
    let m :=
      foldl (fun m peer =>
               if negb (bool_decide (peer ∈ _peers)) then emit (PeerJoin peer) m
               else m) m (peers m) in
    foldl (fun m peer =>
             if negb (bool_decide (peer ∈ peers m)) then emit (PeerLeave peer) m
             else m) m _peers.

(** What one turn of [refresh] is waiting for: the answer of the query, with
    the [_peers] the poll has read; the callback of [then], once [_poll] has
    returned; the timeout. *)
Inductive Pending :=
| Polling (_peers : list string)
| Returned
| Timer.

(** A monitor and the turns of [refresh] under way. *)
Record Loop := {
  monitor : Monitor;
  pending : list Pending
}.

Definition boot (topic : string) (interval : option N) : Loop :=
  {| monitor := new topic interval; pending := [] |}.

(** [refresh()]: [_poll] runs up to its [await]. *)
Definition refresh (s : Loop) : list Pending :=
  pending s ++ [Polling (peers (monitor s))].

Definition start (s : Loop) : Loop :=
  if isStarted (monitor s) then s
  else
    let s := {| monitor := set_isStarted true (monitor s); pending := pending s |} in
    {| monitor := monitor s; pending := refresh s |}.

Definition stop (s : Loop) : Loop :=
  if negb (isStarted (monitor s)) then s
  else {| monitor := set_isStarted false (monitor s); pending := pending s |}.

(** What happens next: a call of [start] or [stop]; the query of the
    [i]-th turn is answered, or fails; the callback of [then] of the [i]-th
    turn runs; its timeout fires. *)
Inductive Action :=
| Start
| Stop
| Answer (i : nat) (answer : list string)
| Reject (i : nat)
| Then (i : nat)
| Fire (i : nat).

Definition step (a : Action) (s : Loop) : Loop :=
  match a with
  | Start => start s
  | Stop => stop s
  | Answer i answer =>
      match pending s !! i with
      | Some (Polling _peers) =>
          {| monitor := poll_resume _peers answer (monitor s);
             pending := <[i := Returned]> (pending s) |}
      | _ => s
      end
  | Reject i =>
      match pending s !! i with
      | Some (Polling _) =>
          {| monitor := monitor s; pending := delete i (pending s) |}
      | _ => s
      end
  | Then i =>
      match pending s !! i with
      | Some Returned =>
          if isStarted (monitor s)
          then {| monitor := monitor s; pending := <[i := Timer]> (pending s) |}
          else {| monitor := monitor s; pending := delete i (pending s) |}
      | _ => s
      end
  | Fire i =>
      match pending s !! i with
      | Some Timer =>
          {| monitor := monitor s;
             pending := <[i := Polling (peers (monitor s))]> (pending s) |}
      | _ => s
      end
  end.

Definition run (actions : list Action) (s : Loop) : Loop :=
  foldl (fun s a => step a s) s actions.

(** The number of [peer-join] and of [peer-leave] emitted for a peer. *)
Definition joins (p : string) (l : list Emitted) : nat :=
  length (filter (fun e => e = PeerJoin p) l).

Definition leaves (p : string) (l : list Emitted) : nat :=
  length (filter (fun e => e = PeerLeave p) l).

(** The calls of [emit] of a poll: each change and the [update] it sets off. *)
Definition announce (changes : list Emitted) : list Emitted :=
  changes ≫= fun e => [e; Update].

(** The peers of the monitor are those that were announced as joining once
    more than as leaving. *)
Definition ledger (m : Monitor) : Prop :=
  forall p, joins p (emitted m)
            = (leaves p (emitted m) + if bool_decide (p ∈ peers m) then 1 else 0)%nat.

(** At most one turn of [refresh] is under way before each of the actions. *)
Fixpoint one_loop (actions : list Action) (s : Loop) : bool :=
  match actions with
  | [] => true
  | a :: rest =>
      bool_decide (length (pending s) <= 1)%nat && one_loop rest (step a s)
  end.

End Monitor.

(** ** The factory over time ([welo.ts]) *)

Module WeloRun.
Import Welo.

(** [Object.values(map)] of a [Map]: the entries of a Map are not properties
    of the object, and the array is empty whatever the Map holds. *)
Definition Object_values {K V} `{Countable K} (m : gmap K V) : list V := [].

(** The callbacks of the promise of [open], each a turn of its own: [then]
    when [Database.open] resolved to a new database, [catch] when it
    rejected, and [finally] after either. *)
Definition open_then (addr : string) : M Welo nat :=
  ref ← new_database addr;
  modify (fun w => set_opened (<[addr := ref]> (opened w)) w);;
  dispatchEvent (Opened addr);;
  add_closed_listener ref (ForgetOpened addr);;
  mret ref.

Definition open_catch (e : Err) : M Welo nat :=
  modify (fun w => set_console (console w ++ [e]) w);;
  throw FailedOpening.

Definition open_finally (addr : string) (w : Welo) : Welo :=
  set_opening (delete addr (_opening w)) w.

(** [Database.close] up to the end of [await stop(this)]: the database is
    stopped; and after it: [closed] is dispatched, the listeners added once
    run and are dropped. *)
Definition close_stop (ref : nat) (w : Welo) : Welo :=
  match objects w !! ref with
  | None => w
  | Some d =>
      set_objects
        (<[ref := {| database_address := database_address d;
                     database_isStarted := false;
                     closed_once := closed_once d |}]> (objects w)) w
  end.

Definition close_dispatch (ref : nat) : M Welo unit := fun w =>
  match objects w !! ref with
  | None => (Ok tt, w)
  | Some d =>
      run_listeners (closed_once d)
        (set_objects
           (<[ref := {| database_address := database_address d;
                        database_isStarted := database_isStarted d;
                        closed_once := [] |}]> (objects w)) w)
  end.

(** What waits for a turn: the [finally] of an open whose [then] or [catch]
    has run, and the dispatch of [closed] by a database that has stopped. *)
Inductive Waiting :=
| Finally (addr : string)
| DispatchClosed (ref : nat).

#[global] Instance Waiting_eq_decision : EqDecision Waiting.
Proof. solve_decision. Defined.

Fixpoint drop_one (x : Waiting) (l : list Waiting) : list Waiting :=
  match l with
  | [] => []
  | y :: l => if decide (x = y) then l else y :: drop_one x l
  end.

(** A factory and what waits for a turn. *)
Record Factory := {
  welo : Welo;
  waiting : list Waiting
}.

Definition boot (idn : option Identity) (ds : option string)
    (reps : list string) (hs : Handlers) (dir : string) : Factory :=
  {| welo := new idn ds reps hs dir; waiting := [] |}.

(** What holds of the databases in [opened] between any two turns: each is
    held under its own address and carries the listener that will forget it,
    and is started unless its [closed] waits to be dispatched; and an address
    that is both in [opened] and in [_opening] is one whose [finally]
    waits. *)
Definition tracked (f : Factory) : Prop :=
  (forall addr ref, opened (welo f) !! addr = Some ref ->
     exists d, objects (welo f) !! ref = Some d /\
       database_address d = addr /\
       closed_once d = [ForgetOpened addr] /\
       (database_isStarted d = false -> DispatchClosed ref ∈ waiting f)) /\
  (forall addr, is_Some (opened (welo f) !! addr) ->
     is_Some (_opening (welo f) !! addr) -> Finally addr ∈ waiting f).

Section WithStop.
(** What awaiting the promise of an [open] under way comes to, and [stop] of
    a database, which is not among the sources. *)
Variable await_open : DbOpen -> M Welo unit.
Variable stop_database : nat -> M Welo unit.

Fixpoint await_all (promises : list DbOpen) : M Welo unit :=
  match promises with
  | [] => mret tt
  | promise :: promises => await_open promise;; await_all promises
  end.

Fixpoint stop_all (refs : list nat) : M Welo unit :=
  match refs with
  | [] => mret tt
  | ref :: refs => stop_database ref;; stop_all refs
  end.

(** [stopping]: the promises of [Object.values(this._opening)] are awaited,
    then the databases of [Object.values(this.opened)] are stopped. *)
Definition stopping : M Welo unit := fun w =>
  (await_all (Object_values (_opening w));;
   stop_all (Object_values (opened w))) w.

(** The turns of a factory: a call of [open] runs up to the call of
    [Database.open]; [Database.open] resolves, or rejects, for an address
    being opened whose promise has not settled, and the [then], or the
    [catch], runs; a [finally] that waits runs; [close] of a database runs up
    to the end of its [await]; a [closed] that waits is dispatched; the
    factory is stopped. *)
Inductive Action :=
| Begin (manifest : Manifest) (options : OpenOptions)
| Resolve (addr : string)
| Reject (addr : string) (e : Err)
| RunFinally (addr : string)
| CloseStop (ref : nat)
| CloseDispatch (ref : nat)
| Stopping.

(** The promise of the address is there and has not settled. *)
Definition unsettled (addr : string) (f : Factory) : bool :=
  bool_decide (is_Some (_opening (welo f) !! addr))
  && negb (bool_decide (Finally addr ∈ waiting f)).

Definition step (a : Action) (f : Factory) : Factory :=
  match a with
  | Begin manifest options =>
      {| welo := (open_begin manifest options (welo f)).2; waiting := waiting f |}
  | Resolve addr =>
      if unsettled addr f
      then {| welo := (open_then addr (welo f)).2;
              waiting := waiting f ++ [Finally addr] |}
      else f
  | Reject addr e =>
      if unsettled addr f
      then {| welo := (open_catch e (welo f)).2;
              waiting := waiting f ++ [Finally addr] |}
      else f
  | RunFinally addr =>
      if bool_decide (Finally addr ∈ waiting f)
      then {| welo := open_finally addr (welo f);
              waiting := drop_one (Finally addr) (waiting f) |}
      else f
  | CloseStop ref =>
      if bool_decide (is_Some (objects (welo f) !! ref))
      then {| welo := close_stop ref (welo f);
              waiting := waiting f ++ [DispatchClosed ref] |}
      else f
  | CloseDispatch ref =>
      if bool_decide (DispatchClosed ref ∈ waiting f)
      then {| welo := (close_dispatch ref (welo f)).2;
              waiting := drop_one (DispatchClosed ref) (waiting f) |}
      else f
  | Stopping => {| welo := (stopping (welo f)).2; waiting := waiting f |}
  end.

Definition run (actions : list Action) (f : Factory) : Factory :=
  foldl (fun f a => step a f) f actions.

End WithStop.

End WeloRun.

(** ** The earlier factory, [Opal] (the class that follows [Replica] in
       [replica/index.ts]) *)

Module Opal.

Inductive OpalError :=
| IsOpen (address : string)            (* already open or being opened *)
| ComponentsError                      (* thrown by [Manifest.getComponents] *)
| FailedOpeningDatabase (address : string).

#[global] Instance OpalError_eq_decision : EqDecision OpalError.
Proof. solve_decision. Defined.

(** The calls of [events.emit]. *)
Inductive OpalEvent := EmitOpened (db : nat) | EmitClosed (db : nat).

(** A listener put on a database with [once('closed', ...)]: the one [open]
    makes, which closes over the address. *)
Inductive Listener := ForgetOpened (address : string).

Record Database := {
  closed_once : list Listener
}.

(** [opened], the addresses that have a promise in [_opening], the events
    emitted and the errors written to the console, oldest first, and the
    Database objects created so far. *)
Record Opal := {
  opened : gmap string nat;
  _opening : gset string;
  emitted : list OpalEvent;
  console : list string;
  objects : gmap nat Database
}.

Definition new : Opal :=
  {| opened := ∅; _opening := ∅; emitted := []; console := []; objects := ∅ |}.

Section WithManifest.
(** A manifest, its address as a string, and [Manifest.getComponents] on the
    registry, which is not among the sources: it returns the components or
    throws. *)
Context {Manifest Components : Type}.
Variable address : Manifest -> string.
Variable getComponents : Manifest -> option Components.

(** [open] up to [return await promise]: the guard, the components, the call
    of [Database.open] and the promise put in [_opening]. *)
Definition open_begin (manifest : Manifest) (o : Opal)
  : result Components OpalError * Opal :=
  let string := address manifest in
  let isOpen :=
    bool_decide (is_Some (opened o !! string)) || bool_decide (string ∈ _opening o) in
  if isOpen then (Error (IsOpen string), o)
  else
    match getComponents manifest with
    | None => (Error ComponentsError, o)
    | Some components =>
        (Ok components,
         {| opened := opened o; _opening := _opening o ∪ {[string]};
            emitted := emitted o; console := console o; objects := objects o |})
    end.

(** The promise settles: [then] when [Database.open] resolved to a new
    database, [catch] when it rejected with [e]. *)
Definition open_settle (addr : string) (outcome : result unit string) (o : Opal)
  : result nat OpalError * Opal :=
  match outcome with
  | Ok _ =>
      let db := fresh (dom (objects o)) in
      (Ok db,
       {| opened := <[addr := db]> (opened o);
          _opening := _opening o ∖ {[addr]};
          emitted := emitted o ++ [EmitOpened db];
          console := console o;
          objects := <[db := {| closed_once := [ForgetOpened addr] |}]> (objects o) |})
  | Error e =>
      (Error (FailedOpeningDatabase addr),
       {| opened := opened o; _opening := _opening o;
          emitted := emitted o; console := console o ++ [e];
          objects := objects o |})
  end.

(** A call of [open] with no other call in between. *)
Definition open (manifest : Manifest) (outcome : result unit string) (o : Opal)
  : result nat OpalError * Opal :=
  match open_begin manifest o with
  | (Ok _, o1) => open_settle (address manifest) outcome o1
  | (Error e, o1) => (Error e, o1)
  end.

(** A database emits [closed]: its listeners run and are dropped. *)
Definition run_listener (db : nat) (l : Listener) (o : Opal) : Opal :=
  match l with
  | ForgetOpened addr =>
      {| opened := delete addr (opened o); _opening := _opening o;
         emitted := emitted o ++ [EmitClosed db]; console := console o;
         objects := objects o |}
  end.

Definition database_closed (db : nat) (o : Opal) : Opal :=
  match objects o !! db with
  | None => o
  | Some d =>
      foldl (fun o l => run_listener db l o)
        {| opened := opened o; _opening := _opening o; emitted := emitted o;
           console := console o;
           objects := <[db := {| closed_once := [] |}]> (objects o) |}
        (closed_once d)
  end.

(** What happens to the factory: a call of [open] up to its [await], the
    promise of an address settling, a database emitting [closed]. *)
Inductive Action :=
| Begin (manifest : Manifest)
| Settle (addr : string) (outcome : result unit string)
| Closed (db : nat).

Definition step (a : Action) (o : Opal) : Opal :=
  match a with
  | Begin manifest => (open_begin manifest o).2
  | Settle addr outcome => (open_settle addr outcome o).2
  | Closed db => database_closed db o
  end.

Definition run (actions : list Action) (o : Opal) : Opal :=
  foldl (fun o a => step a o) o actions.

End WithManifest.

End Opal.

(** ** The bootstrap replicator ([replicator/bootstrap/index.ts]) *)

Module Bootstrap.

(** A provider found: its id and the protocols it lists. *)
Record Peer := {
  peer_id : string;
  peer_protocols : list string
}.

(** The calls [starting] makes, in order. *)
Inductive Effect :=
| Handle (protocol : string)              (* libp2p.handle *)
| Save (id : string)                      (* libp2p.peerStore.save *)
| Dial (id : string) (protocol : string)  (* libp2p.dialProtocol *)
| ParseHeads (message : Bytes)            (* this.parseHeads *)
| ConsoleError.                           (* console.error("bootstrapping failed", error) *)

#[global] Instance Effect_eq_decision : EqDecision Effect.
Proof. solve_decision. Defined.

Section WithNode.
(** [libp2p.peerId] and [this.protocol]. *)
Variable self : string.
Variable protocol : string.
(** What the calls come to: whether [peerStore.save] resolves; what is read
    from the stream that [dialProtocol] opens, if both succeed; whether
    [parseHeads] resolves. *)
Variable save : string -> bool.
Variable dial : string -> option Bytes.
Variable parseHeads : Bytes -> bool.

(** The body of the loop for one peer: the calls made, and whether it threw. *)
Definition contact (peer : Peer) : list Effect * bool :=
  let _ :=
    (* the test of the protocols guards an empty block *)
    if negb (bool_decide (protocol ∈ peer_protocols peer)) then tt else tt in
  if bool_decide (peer_id peer = self) then ([], true)
  else if negb (save (peer_id peer)) then ([Save (peer_id peer)], false)
  else
    match dial (peer_id peer) with
    | None => ([Save (peer_id peer); Dial (peer_id peer) protocol], false)
    | Some responses =>
        ([Save (peer_id peer); Dial (peer_id peer) protocol; ParseHeads responses],
         parseHeads responses)
    end.

(** The loop: it ends at the first peer whose turn throws. *)
Fixpoint bootstrap (peers : list Peer) : list Effect * bool :=
  match peers with
  | [] => ([], true)
  | peer :: rest =>
      let '(calls, ok) := contact peer in
      if ok then let '(more, ok') := bootstrap rest in (calls ++ more, ok')
      else (calls, false)
  end.

(** [starting]: [providers] are the peers that [findProviders] yields, and
    [aborted] tells whether it throws after them instead of ending.  [handle]
    is awaited outside the [try]: when it rejects, [starting] does. *)
Definition starting (handle_ok : bool) (providers : list Peer) (aborted : bool)
  : list Effect * bool :=
  if negb handle_ok then ([Handle protocol], false)
  else
    let '(calls, ok) := bootstrap providers in
    (Handle protocol :: calls ++ (if ok && negb aborted then [] else [ConsoleError]),
     true).

End WithNode.

End Bootstrap.

(** ** A database and the events it relays ([Database], after [Welo] in
       [welo.ts]) *)

Module DatabaseEvents.

(** Listeners: [this.#onStoreUpdate], bound once for a database, and the
    listeners others have put. *)
Inductive Callback := OnStoreUpdate | Other (n : nat).

#[global] Instance Callback_eq_decision : EqDecision Callback.
Proof. solve_decision. Defined.

(** The listeners of [update] on [store.events] and on [replica.events], and
    the [update] events the database has dispatched on its own [events]. *)
Record Database := {
  store_update : list Callback;
  replica_update : list Callback;
  updates : nat
}.

(** [addEventListener] with a listener that is there already does nothing. *)
Definition addEventListener (l : Callback) (ls : list Callback) : list Callback :=
  if bool_decide (l ∈ ls) then ls else ls ++ [l].

Definition removeEventListener (l : Callback) (ls : list Callback) : list Callback :=
  filter (fun l' => l' <> l) ls.

(** [starting] and [stopping], as far as the listener of the database goes:
    the listeners that the store, the replica and the replicators put for
    themselves when they are started are not followed. *)
Definition starting (d : Database) : Database :=
  {| store_update := addEventListener OnStoreUpdate (store_update d);
     replica_update := replica_update d;
     updates := updates d |}.

Definition stopping (d : Database) : Database :=
  {| store_update := store_update d;
     replica_update := removeEventListener OnStoreUpdate (replica_update d);
     updates := updates d |}.

(** A listener of [update] runs: [onStoreUpdate] dispatches [update] on the
    database. *)
Definition run_callback (l : Callback) (d : Database) : Database :=
  match l with
  | OnStoreUpdate =>
      {| store_update := store_update d; replica_update := replica_update d;
         updates := S (updates d) |}
  | Other _ => d
  end.

(** The store, or the replica, dispatches [update]. *)
Definition store_dispatches_update (d : Database) : Database :=
  foldl (fun d l => run_callback l d) d (store_update d).

Definition replica_dispatches_update (d : Database) : Database :=
  foldl (fun d l => run_callback l d) d (replica_update d).

Inductive Call := Starting | Stopping.

Definition call (c : Call) (d : Database) : Database :=
  match c with
  | Starting => starting d
  | Stopping => stopping d
  end.

Definition calls (cs : list Call) (d : Database) : Database :=
  foldl (fun d c => call c d) d cs.

End DatabaseEvents.

(** ** Starting and stopping the earlier factory ([Opal.start] and
       [Opal.stop]) *)

Module OpalLifecycle.

(** The calls of [events.emit]. *)
Inductive Emitted := EmitStart | EmitStop.

#[global] Instance Emitted_eq_decision : EqDecision Emitted.
Proof. solve_decision. Defined.

(** What is waiting to go on, each at an [await] or as the callback of a
    [finally]; the promise of a [stop] is known by a number. *)
Inductive Task :=
| Stopping1 (promise : nat)            (* the function of [_stopping], first [await] *)
| Stopping2 (promise : nat)            (* the same, second [await] *)
| StopFinally (promise : nat)          (* [() => { this._stopping = null }] *)
| StartFinally                         (* [() => { this._starting = null }] *)
| StartAwaitsStopping (promise : nat)  (* [start] at [await this._stopping] *)
| StopAwaitsStarting.                  (* [stop] at [await this._starting] *)

(** [_starting] holds a promise or null; the function it is made from has no
    [await], so the promise is resolved when it is made.  [_stopping] holds a
    promise that is resolved when its function has run to its end. *)
Record Opal := {
  _isStarted : bool;
  _starting : bool;
  _stopping : option nat;
  resolved : list nat;
  promises : nat;                      (* the promises of [stop] made so far *)
  emitted : list Emitted;
  tasks : list Task
}.

Definition new : Opal :=
  {| _isStarted := false; _starting := false; _stopping := None;
     resolved := []; promises := 0; emitted := []; tasks := [] |}.

Definition isStarted (o : Opal) : bool := _isStarted o.

Definition is_resolved (promise : nat) (o : Opal) : bool :=
  existsb (Nat.eqb promise) (resolved o).

(** The function of [_starting], run when the promise is made, and the
    [finally] put on it. *)
Definition begin_starting (rest : list Task) (o : Opal) : Opal :=
  {| _isStarted := true; _starting := true; _stopping := _stopping o;
     resolved := resolved o; promises := promises o;
     emitted := emitted o ++ [EmitStart];
     tasks := rest ++ [StartFinally] |}.

(** The function of [_stopping], run up to its first [await], and the
    [finally] put on its promise. *)
Definition begin_stopping (rest : list Task) (o : Opal) : Opal :=
  let promise := promises o in
  {| _isStarted := _isStarted o; _starting := _starting o;
     _stopping := Some promise;
     resolved := resolved o; promises := S promise;
     emitted := emitted o;
     tasks := rest ++ [Stopping1 promise; StopFinally promise] |}.

Definition with_tasks (ts : list Task) (o : Opal) : Opal :=
  {| _isStarted := _isStarted o; _starting := _starting o;
     _stopping := _stopping o; resolved := resolved o; promises := promises o;
     emitted := emitted o; tasks := ts |}.

(** [start()], up to its first [await] or its return. *)
Definition start (o : Opal) : Opal :=
  if isStarted o then o
  else if _starting o then o
  else
    match _stopping o with
    | Some promise => with_tasks (tasks o ++ [StartAwaitsStopping promise]) o
    | None => begin_starting (tasks o) o
    end.

(** [stop()], up to its first [await] or its return. *)
Definition stop (o : Opal) : Opal :=
  if negb (isStarted o) then o
  else if bool_decide (is_Some (_stopping o)) then o
  else if _starting o then with_tasks (tasks o ++ [StopAwaitsStarting]) o
  else begin_stopping (tasks o) o.

(** The [i]-th task goes on, if what it waits for has come. *)
Definition resume (i : nat) (o : Opal) : Opal :=
  match tasks o !! i with
  | None => o
  | Some (Stopping1 promise) => with_tasks (<[i := Stopping2 promise]> (tasks o)) o
  | Some (Stopping2 promise) =>
      {| _isStarted := false; _starting := _starting o; _stopping := _stopping o;
         resolved := resolved o ++ [promise]; promises := promises o;
         emitted := emitted o ++ [EmitStop];
         tasks := delete i (tasks o) |}
  | Some (StopFinally promise) =>
      if is_resolved promise o
      then {| _isStarted := _isStarted o; _starting := _starting o;
              _stopping := None; resolved := resolved o; promises := promises o;
              emitted := emitted o; tasks := delete i (tasks o) |}
      else o
  | Some StartFinally =>
      {| _isStarted := _isStarted o; _starting := false;
         _stopping := _stopping o; resolved := resolved o; promises := promises o;
         emitted := emitted o; tasks := delete i (tasks o) |}
  | Some (StartAwaitsStopping promise) =>
      if is_resolved promise o
      then begin_starting (delete i (tasks o)) o
      else o
  | Some StopAwaitsStarting => begin_stopping (delete i (tasks o)) o
  end.

Inductive Action := CallStart | CallStop | Resume (i : nat).

Definition step (a : Action) (o : Opal) : Opal :=
  match a with
  | CallStart => start o
  | CallStop => stop o
  | Resume i => resume i o
  end.

Definition run (actions : list Action) (o : Opal) : Opal :=
  foldl (fun o a => step a o) o actions.

End OpalLifecycle.

(** ** Concrete inputs for the registry, the monitor and the factories *)

Module Scenarios.

(** Components for a registry: a component has a [type]. *)
Record Component := { type : string; version : nat }.

Definition keyvalue : Component := {| type := "keyvalue"; version := 1 |}.
Definition keyvalue' : Component := {| type := "keyvalue"; version := 2 |}.
Definition feed : Component := {| type := "feed"; version := 1 |}.

(** The registry after [add(keyvalue)], and after [add(feed)] as well. *)
Definition stores : Registry.Register Component :=
  {| Registry.registered :=
       <[Registry.Named "keyvalue" := keyvalue]> (<[Registry.Star := keyvalue]> ∅) |}.

Definition stores' : Registry.Register Component :=
  {| Registry.registered :=
       <[Registry.Named "feed" := feed]>
         (<[Registry.Star := feed]> (Registry.registered stores)) |}.

(** A monitor that has seen two peers, started and stopped. *)
Definition watching : Monitor.Monitor :=
  {| Monitor.topic := "heads"; Monitor.interval := 1000;
     Monitor.peers := ["a"; "b"]%string; Monitor._isStarted := true;
     Monitor.emitted := [] |}.

Definition asleep : Monitor.Loop :=
  {| Monitor.monitor := Monitor.set_isStarted false watching;
     Monitor.pending := [Monitor.Polling ["a"; "b"]%string] |}.

Definition polling : Monitor.Loop :=
  {| Monitor.monitor := watching;
     Monitor.pending := [Monitor.Polling ["a"; "b"]%string] |}.

(** One turn of [refresh], through two polls. *)
Definition two_polls : list Monitor.Action :=
  [Monitor.Start; Monitor.Answer 0 ["a"; "b"]%string; Monitor.Then 0;
   Monitor.Fire 0; Monitor.Answer 0 ["b"; "c"; "c"]%string].

(** A manifest whose access list is empty. *)
Definition nobody_manifest : AccessStatic.ManifestInstance :=
  {| AccessStatic.manifest_access := Some
       {| AccessStatic.access_protocol := "/hldb/access/static";
          AccessStatic.access_config := Some
            {| AccessStatic.config_write := Some [] |} |} |}.

Definition nobody_access : AccessStatic.StaticAccess :=
  {| AccessStatic.manifest := Some nobody_manifest;
     AccessStatic.config := Some {| AccessStatic.config_write := Some [] |};
     AccessStatic.write := ∅;
     AccessStatic._isStarted := false |}.

(** A new replica of alice over a blockstore that takes no writes. *)
Definition sealed : @Replica.Replica Examples.collaborators :=
  @Replica.new Examples.collaborators Examples.tag0 Examples.alice
    empty_store empty_store {| cells := ∅; writable := false |}.

(** Alice's replica, running, with an entry in its Graph that is not in the
    persisted root, over a blockstore that has stopped taking writes. *)
Definition unsaved : @Replica.Replica Examples.collaborators :=
  @Replica.set_stores Examples.collaborators
    (Replica.datastore Examples.running)
    {| cells := cells (Replica.blockstore Examples.running); writable := false |}
    (@Replica.set_graph Examples.collaborators
       (Some (graph_add (GraphClass := SpecGraph.graph_class)
                [x01] [] (graph_new (GraphClass := SpecGraph.graph_class) None)))
       Examples.running).

(** Providers for a bootstrap: the node itself, a peer that answers, a peer
    that cannot be dialled, and one more. *)
Definition provider (id : string) : Bootstrap.Peer :=
  {| Bootstrap.peer_id := id; Bootstrap.peer_protocols := [] |}.

Definition dial_all_but_bad (id : string) : option Bytes :=
  if bool_decide (id = "bad"%string) then None else Some [x00].

(** A database that was never started. *)
Definition closed_database : DatabaseEvents.Database :=
  {| DatabaseEvents.store_update := [DatabaseEvents.Other 0];
     DatabaseEvents.replica_update := [];
     DatabaseEvents.updates := 0 |}.

(** An [Opal] that was started, with nothing under way. *)
Definition started_opal : OpalLifecycle.Opal :=
  OpalLifecycle.run [OpalLifecycle.CallStart; OpalLifecycle.Resume 0]
    OpalLifecycle.new.

End Scenarios.

(** * Theorems *)

(** ** The Graph of the spec is lawful *)

Module SpecGraphFacts.
Import SpecGraph.

#[export] Instance graph_laws : @GraphLaws SpecGraph.graph_class.
Proof.
  split; simpl.
  - intros g. unfold equals. by rewrite !bool_decide_eq_true_2.
  - intros h nx g Hh. unfold add. rewrite Hh. by rewrite orb_true_r.
  - intros h nx g Hh. unfold add. by rewrite bool_decide_eq_true_2.
  - intros h g Hh. unfold deny. by rewrite bool_decide_eq_true_2.
  - intros h nx g. unfold add.
    destruct (bool_decide (h ∈ denied g)) eqn:Hd; simpl.
    { right. by apply bool_decide_eq_true in Hd. }
    destruct (has h g) eqn:Hh; [by left|]. left. unfold has. simpl.
    apply bool_decide_eq_true. rewrite dom_insert. set_solver.
  - intros h g. unfold deny.
    destruct (bool_decide (h ∈ denied g)) eqn:Hd; simpl.
    + by apply bool_decide_eq_true in Hd.
    + set_solver.
  - intros h h' nx g Hh. unfold add. by destruct (_ || _).
  - intros h h' g Hh. unfold deny. destruct (bool_decide _); simpl; set_solver.
  - intros h h' nx g Hh. left. unfold add. destruct (_ || _); [done|].
    unfold has in *. simpl. apply bool_decide_eq_true in Hh.
    apply bool_decide_eq_true. rewrite dom_insert. set_solver.
  - intros h h' g Hh. unfold deny.
    destruct (bool_decide (h' ∈ denied g)) eqn:Hd; simpl; [by left|].
    destruct (decide (h = h')) as [->|Hne]; [right; set_solver|].
    left. unfold has in *. simpl. apply bool_decide_eq_true in Hh.
    apply bool_decide_eq_true. rewrite dom_delete. set_solver.
Qed.

End SpecGraphFacts.

(** ** Sequencing *)

Lemma bind_ok_inv {S A B} (m : M S A) (f : A -> M S B) s b s' :
  (m ≫= f) s = (Ok b, s') ->
  exists a s1, m s = (Ok a, s1) /\ f a s1 = (Ok b, s').
Proof.
  unfold mbind, M_bind. destruct (m s) as [[a|e] s1]; [eauto|done].
Qed.

Lemma bind_run {S A B} (m : M S A) (f : A -> M S B) s :
  (m ≫= f) s =
  match m s with
  | (Ok a, s1) => f a s1
  | (Error e, s1) => (Error e, s1)
  end.
Proof. reflexivity. Qed.

Module HeadsCodecFacts.
Import HeadsCodec.

Lemma to_N_byte_of n : n < 256 -> Byte.to_N (byte_of n) = n.
Proof.
  intros Hn. unfold byte_of.
  destruct (Byte.of_N n) as [b|] eqn:E; simpl.
  - by apply Byte.to_of_N.
  - apply Byte.of_N_None_iff in E. lia.
Qed.

Lemma byte_of_to_N b : byte_of (Byte.to_N b) = b.
Proof. unfold byte_of. by rewrite Byte.of_to_N. Qed.

Lemma to_N_lt b : Byte.to_N b < 256.
Proof. pose proof (Byte.to_N_bounded b). lia. Qed.

Lemma group_split n shift :
  N.shiftl (n mod 128) shift + N.shiftl (n / 128) (shift + 7) = N.shiftl n shift.
Proof.
  rewrite !N.shiftl_mul_pow2, N.pow_add_r.
  pose proof (N.div_mod n 128 ltac:(lia)) as D.
  change (2 ^ 7) with 128. set (p := 2 ^ shift). nia.
Qed.

Lemma pow_fuel_succ fuel :
  2 ^ (7 * N.of_nat (S fuel)) = 128 * 2 ^ (7 * N.of_nat fuel).
Proof.
  replace (7 * N.of_nat (S fuel)) with (7 + 7 * N.of_nat fuel) by lia.
  by rewrite N.pow_add_r.
Qed.

Lemma encodeVarint_aux_nonempty fuel n : encodeVarint_aux fuel n <> [].
Proof. destruct fuel; simpl; [done|]. by destruct (n <? 128). Qed.

(** Reading back a varint written with enough fuel. *)
Lemma decodeVarint_aux_encode fuel : forall n first shift acc rest,
  n < 2 ^ (7 * N.of_nat (S fuel)) ->
  (first = false -> n <> 0) ->
  decodeVarint_aux first shift acc (encodeVarint_aux fuel n ++ rest)
  = Some (acc + N.shiftl n shift, rest).
Proof.
  induction fuel as [|fuel IH]; intros n first shift acc rest Hn Hz.
  - change (2 ^ (7 * N.of_nat 1)) with 128 in Hn. simpl.
    rewrite N.mod_small by done. rewrite to_N_byte_of by lia.
    apply N.ltb_lt in Hn as ->.
    destruct (N.eqb_spec n 0) as [->|]; [|done].
    destruct first; [done|]. by destruct Hz.
  - simpl encodeVarint_aux. destruct (N.ltb_spec n 128) as [Hlt|Hge].
    + simpl. rewrite to_N_byte_of by lia. apply N.ltb_lt in Hlt as ->.
      destruct (N.eqb_spec n 0) as [->|]; [|done].
      destruct first; [done|]. by destruct Hz.
    + pose proof (N.mod_lt n 128 ltac:(lia)) as Hm.
      simpl. rewrite to_N_byte_of by lia.
      destruct (N.ltb_spec (128 + n mod 128) 128) as [Hc|_];
        [exfalso; revert Hc; generalize (n mod 128); intros; lia|].
      replace (128 + n mod 128 - 128) with (n mod 128)
        by (generalize (n mod 128); intros; lia).
      rewrite pow_fuel_succ in Hn.
      rewrite IH.
      * by rewrite <- N.add_assoc, group_split.
      * apply N.Div0.div_lt_upper_bound. lia.
      * intros _ Hq. apply N.div_small_iff in Hq; lia.
Qed.

Lemma size_fuel n : n < 2 ^ (7 * N.of_nat (S (N.to_nat (N.size n)))).
Proof.
  eapply N.lt_le_trans; [apply N.size_gt|].
  apply N.pow_le_mono_r; lia.
Qed.

Lemma decodeVarint_encode n rest :
  decodeVarint (encodeVarint n ++ rest) = Some (n, rest).
Proof.
  unfold decodeVarint, encodeVarint.
  rewrite decodeVarint_aux_encode; [|apply size_fuel|done].
  by rewrite N.shiftl_0_r.
Qed.

(** What the decoder accepts is the one encoding of the number it returns. *)
Lemma decodeVarint_aux_sound bs : forall first shift acc m rest,
  decodeVarint_aux first shift acc bs = Some (m, rest) ->
  exists n, m = acc + N.shiftl n shift /\ (first = false -> n <> 0) /\
    forall fuel, n < 2 ^ (7 * N.of_nat (S fuel)) ->
                 encodeVarint_aux fuel n ++ rest = bs.
Proof.
  induction bs as [|b bs IH]; intros first shift acc m rest H; [done|].
  simpl in H. pose proof (to_N_lt b) as Hb.
  destruct (N.ltb_spec (Byte.to_N b) 128) as [Hlt|Hge].
  - destruct ((Byte.to_N b =? 0) && negb first) eqn:Hz; [done|].
    injection H as <- <-. exists (Byte.to_N b). split; [done|]. split.
    + intros -> Hb0. by rewrite Hb0 in Hz.
    + intros [|fuel] _; simpl.
      * rewrite N.mod_small by done. by rewrite byte_of_to_N.
      * apply N.ltb_lt in Hlt as ->. by rewrite byte_of_to_N.
  - apply IH in H as (n' & -> & Hn' & Henc).
    specialize (Hn' eq_refl).
    exists (Byte.to_N b - 128 + 128 * n').
    assert (Hmod : (Byte.to_N b - 128 + 128 * n') mod 128 = Byte.to_N b - 128).
    { rewrite (N.mul_comm 128 n'), N.Div0.mod_add. apply N.mod_small. lia. }
    assert (Hdiv : (Byte.to_N b - 128 + 128 * n') / 128 = n').
    { rewrite (N.mul_comm 128 n'), N.div_add by lia.
      rewrite N.div_small; lia. }
    split; [|split].
    + rewrite <- (group_split (Byte.to_N b - 128 + 128 * n')), Hmod, Hdiv. lia.
    + intros _. lia.
    + intros [|fuel] Hf.
      * change (2 ^ (7 * N.of_nat 1)) with 128 in Hf. lia.
      * simpl. destruct (N.ltb_spec (Byte.to_N b - 128 + 128 * n') 128); [lia|].
        rewrite Hmod, Hdiv.
        replace (128 + (Byte.to_N b - 128)) with (Byte.to_N b) by lia.
        rewrite byte_of_to_N. simpl. f_equal. apply Henc.
        rewrite pow_fuel_succ in Hf. lia.
Qed.

Lemma decodeVarint_sound bs n rest :
  decodeVarint bs = Some (n, rest) -> encodeVarint n ++ rest = bs.
Proof.
  intros H. apply decodeVarint_aux_sound in H as (n' & -> & _ & Henc).
  rewrite N.shiftl_0_r, N.add_0_l. apply Henc, size_fuel.
Qed.

Lemma decodeHeads_aux_encode heads : forall fuel,
  (length (encodeHeads heads) <= fuel)%nat ->
  decodeHeads_aux fuel (encodeHeads heads) = Ok heads.
Proof.
  induction heads as [|h heads IH]; intros fuel Hfuel.
  - by destruct fuel.
  - change (encodeHeads (h :: heads))
      with ((encodeVarint (N.of_nat (length h)) ++ h) ++ encodeHeads heads) in *.
    rewrite <- app_assoc in *.
    destruct (encodeVarint (N.of_nat (length h))) as [|b v] eqn:Ev.
    { by apply encodeVarint_aux_nonempty in Ev. }
    destruct fuel as [|fuel]; [simpl in Hfuel; lia|].
    rewrite <- app_comm_cons. cbn [decodeHeads_aux].
    rewrite app_comm_cons, <- Ev, decodeVarint_encode, Nat2N.id.
    rewrite decide_True by (rewrite length_app; lia).
    rewrite drop_app_length, take_app_length, IH; [done|].
    simpl in Hfuel. rewrite !length_app in Hfuel. lia.
Qed.

Lemma decodeHeads_aux_sound fuel : forall msg hs,
  decodeHeads_aux fuel msg = Ok hs -> encodeHeads hs = msg.
Proof.
  induction fuel as [|fuel IH]; intros [|b msg] hs H; simpl in H;
    try by injection H as <-.
  - done.
  - destruct (decodeVarint (b :: msg)) as [[n rest]|] eqn:Ev; [|done].
    apply decodeVarint_sound in Ev.
    destruct (decide _) as [Hlen|]; [|done].
    destruct (decodeHeads_aux fuel _) as [hs'|] eqn:Er; [|done].
    injection H as <-. apply IH in Er.
    change (encodeHeads (take (N.to_nat n) rest :: hs'))
      with (encodeHead (take (N.to_nat n) rest) ++ encodeHeads hs').
    unfold encodeHead.
    rewrite Er, length_take, Nat.min_l, N2Nat.id, <- app_assoc, take_drop by done.
    done.
Qed.

Lemma decodeHeads_aux_error fuel : forall msg e,
  decodeHeads_aux fuel msg = Error e -> e = DecodeError.
Proof.
  induction fuel as [|fuel IH]; intros [|b msg] e H; simpl in H;
    try done; try by injection H.
  destruct (decodeVarint (b :: msg)) as [[n rest]|]; [|by injection H].
  destruct (decide _); [|by injection H].
  destruct (decodeHeads_aux fuel _) eqn:Er; [done|].
  injection H as <-. by eapply IH.
Qed.

(** C7: the head codec round-trips.  Decoding the encoding of any ordered
    list of head hashes (empty, one head, fifty heads, any number) returns
    exactly that list; and on an arbitrary message the decoder either returns
    the list whose encoding the message is, or fails with a decode error, the
    latter exactly when the message is the encoding of no list. *)
Theorem heads_codec_roundtrip :
  (forall heads, decodeHeads (encodeHeads heads) = Ok heads) /\
  (forall msg,
     match decodeHeads msg with
     | Ok hs => encodeHeads hs = msg
     | Error e => e = DecodeError /\ forall hs, encodeHeads hs <> msg
     end).
Proof.
  split.
  - intros heads. by apply decodeHeads_aux_encode.
  - intros msg. destruct (decodeHeads msg) as [hs|e] eqn:E.
    + by apply decodeHeads_aux_sound in E.
    + split; [by apply decodeHeads_aux_error in E|].
      intros hs <-. unfold decodeHeads in E.
      by rewrite decodeHeads_aux_encode in E.
Qed.

Example decode_three_heads :
  decodeHeads (encodeHeads [[x01; x02]; []; [xff]]) = Ok [[x01; x02]; []; [xff]].
Proof. reflexivity. Qed.

Example decode_fifty_heads :
  decodeHeads (encodeHeads (replicate 50 (replicate 36 x12)))
  = Ok (replicate 50 (replicate 36 x12)).
Proof. vm_compute. reflexivity. Qed.

Example decode_truncated : decodeHeads [x05; x01] = Error DecodeError.
Proof. reflexivity. Qed.

Example decode_padded_length : decodeHeads [x80; x00] = Error DecodeError.
Proof. reflexivity. Qed.

End HeadsCodecFacts.

Module AccessStaticFacts.
Import AccessStatic.

Section WithMultibase.
Context `{Multibase}.

Lemma call_write c a : write (call c a) = write a.
Proof.
  destruct c; simpl; try done.
  - unfold start. destruct (isStarted a); [done|].
    by destruct (write_array (config a)) as [[|]|].
  - unfold stop. by destruct (negb (isStarted a)).
Qed.

Lemma calls_write cs : forall a, write (calls cs a) = write a.
Proof.
  induction cs as [|c cs IH]; intros a; [done|].
  unfold calls in *. simpl. by rewrite IH, call_write.
Qed.

Lemma new_write m a :
  new m = Ok a ->
  exists ws, write_array (manifest_config m) = Some ws /\
             write a = list_to_set (map writer_string ws).
Proof.
  unfold new. destruct (write_array (manifest_config m)) as [ws|]; [|done].
  intros [= <-]. by exists ws.
Qed.

(** C9: for a controller built from a manifest, [canAppend] answers true
    exactly when the base32 encoding of the entry's signer id is in the write
    set, or the write set holds the wildcard; the write set is the one built
    by the constructor from the manifest's list (strings as they are, byte
    ids base32-encoded); the answer depends on the entry's identity id only,
    the call leaves the controller as it was, and no call on the controller
    changes the write set, so asking again gives the same answer. *)
Theorem static_canAppend_decision m a entry :
  new m = Ok a ->
  (exists ws, write_array (manifest_config m) = Some ws /\
     forall s, s ∈ write a <-> exists w, w ∈ ws /\ writer_string w = s) /\
  (exists b, canAppend entry a = (Ok b, a) /\
     (b = true <->
      base32_encode (identity_id (entry_identity entry)) ∈ write a
      \/ wildcard ∈ write a)) /\
  (forall entry',
     identity_id (entry_identity entry') = identity_id (entry_identity entry) ->
     (canAppend entry' a).1 = (canAppend entry a).1) /\
  (forall cs, write (calls cs a) = write a /\
     (canAppend entry (calls cs a)).1 = (canAppend entry a).1).
Proof.
  intros Hnew. split; [|split; [|split]].
  - destruct (new_write _ _ Hnew) as (ws & Hws & Hw). exists ws. split; [done|].
    intros s. rewrite Hw, elem_of_list_to_set, list_elem_of_fmap.
    split; [intros (w & -> & Hin) | intros (w & Hin & <-)]; by exists w.
  - eexists. split; [reflexivity|].
    rewrite orb_true_iff, !bool_decide_eq_true. done.
  - intros entry' Hid. unfold canAppend. simpl. by rewrite Hid.
  - intros cs. pose proof (calls_write cs a) as Hw. split; [done|].
    unfold canAppend. simpl. by rewrite Hw.
Qed.

End WithMultibase.

#[local] Existing Instance Examples.plain_multibase.

Lemma static_canAppend_decision_witness :
  new (Some Examples.alice_manifest) = Ok Examples.alice_access /\
  (canAppend (Examples.entry_by Examples.alice [x01] [] []) Examples.alice_access).1
    = Ok true /\
  (canAppend (Examples.entry_by Examples.mallory [x02] [] []) Examples.alice_access).1
    = Ok false.
Proof.
  assert (Hnew : new (Some Examples.alice_manifest) = Ok Examples.alice_access).
  { reflexivity. }
  split; [exact Hnew|].
  pose proof (static_canAppend_decision _ _
                (Examples.entry_by Examples.alice [x01] [] []) Hnew)
    as (_ & (b & Hb & Hiff) & _).
  split.
  - rewrite Hb. simpl. f_equal. apply Hiff. left. reflexivity.
  - vm_compute. reflexivity.
Defined.

End AccessStaticFacts.

Module ReplicaFacts.
Import Replica.

Section WithCollaborators.
Context `{Collaborators}.

Ltac unfold_calls :=
  unfold mbind, M_bind, mret, M_ret, gets, modify, throw, lift,
    dispatchEvent, console_warn, get_graph, blocks_put, setRoot, store_put in *.

Ltac crush :=
  repeat (progress (unfold_calls; simpl in *; simplify_eq; try case_match)).

(** *** What each step leaves alone *)

Lemma add_entry_frame entry r res r' :
  add_entry entry r = (res, r') ->
  events r' = events r /\ root r' = root r /\ datastore r' = datastore r /\
  blockstore r' = blockstore r /\ _isStarted r' = _isStarted r /\
  manifest_tag r' = manifest_tag r /\ identity r' = identity r /\
  (is_Some (graph r) <-> is_Some (graph r')).
Proof.
  unfold add_entry. intros Hrun. crush; repeat split; eauto.
Qed.

Lemma add_loop_frame entries : forall r res r',
  add_loop entries r = (res, r') ->
  events r' = events r /\ root r' = root r /\ datastore r' = datastore r /\
  blockstore r' = blockstore r /\ _isStarted r' = _isStarted r /\
  manifest_tag r' = manifest_tag r /\ identity r' = identity r /\
  (is_Some (graph r) <-> is_Some (graph r')).
Proof.
  induction entries as [|e es IH]; intros r res r' Hrun; simpl in Hrun.
  - by injection Hrun as <- <-.
  - unfold mbind, M_bind in Hrun.
    destruct (add_entry e r) as [[[]|err] r1] eqn:He.
    + apply add_entry_frame in He. apply IH in Hrun.
      destruct He as (?&?&?&?&?&?&?&?), Hrun as (?&?&?&?&?&?&?&?).
      repeat split; try congruence; tauto.
    + injection Hrun as <- <-. by apply add_entry_frame in He.
Qed.

(** *** Persisting the root *)

Lemma store_get_put `{Countable K} (k : K) v (s s' : Store K) :
  store_put k v s = (Ok tt, s') -> store_get k s' = Ok v.
Proof.
  unfold store_put, store_get. destruct (writable s); [|done].
  intros [= <-]. simpl. by rewrite lookup_insert_eq.
Qed.

Lemma updateRoot_ok r r' :
  updateRoot r = (Ok tt, r') ->
  exists g, graph r = Some g /\
    root r' = Some (root_cid (Blocks_encode (graph_root g))) /\
    events r' = events r ++ [EvUpdate] /\
    store_get rootHashKey (datastore r')
      = Ok (root_cid (Blocks_encode (graph_root g))) /\
    store_get (root_cid (Blocks_encode (graph_root g))) (blockstore r')
      = Ok (root_bytes (Blocks_encode (graph_root g))) /\
    graph r' = graph r /\ blocks r' = blocks r /\ console r' = console r /\
    _isStarted r' = _isStarted r.
Proof.
  unfold updateRoot. intros Hrun.
  destruct (graph r) as [g|] eqn:Hg; [|crush].
  exists g. split; [done|].
  unfold_calls. rewrite Hg in Hrun. simpl in Hrun.
  destruct (writable (blockstore r)) eqn:Hb, (writable (datastore r)) eqn:Hd;
    simpl in Hrun; unfold modify in Hrun; simplify_eq; simpl.
  unfold store_get. simpl. rewrite !lookup_insert_eq. by rewrite Hg.
Qed.

Lemma updateRoot_error r e r' :
  updateRoot r = (Error e, r') ->
  events r' = events r /\ root r' = root r /\ graph r' = graph r /\
  _isStarted r' = _isStarted r /\
  (graph r = None /\ e = GraphBeforeStart \/
   (writable (datastore r) && writable (blockstore r) = false)
   /\ e = FailedToGetRoot).
Proof.
  unfold updateRoot. intros Hrun.
  destruct (graph r) as [g|] eqn:Hg.
  - unfold_calls. rewrite Hg in Hrun. simpl in Hrun.
    destruct (writable (blockstore r)) eqn:Hb, (writable (datastore r)) eqn:Hd;
      simpl in Hrun; unfold modify in Hrun; simplify_eq; simpl;
      rewrite ?Hg; auto 10.
  - unfold_calls. rewrite Hg in Hrun. simplify_eq. rewrite Hg. auto 10.
Qed.

Lemma updateRoot_ok_writable r r' :
  updateRoot r = (Ok tt, r') ->
  writable (datastore r) && writable (blockstore r) = true.
Proof.
  unfold updateRoot. intros Hrun. unfold_calls.
  destruct (graph r); [|done]. simpl in Hrun.
  by destruct (writable (blockstore r)), (writable (datastore r)).
Qed.

Lemma updateRoot_writable r g :
  graph r = Some g ->
  writable (datastore r) = true -> writable (blockstore r) = true ->
  exists r', updateRoot r = (Ok tt, r').
Proof.
  intros Hg Hd Hb. unfold updateRoot. unfold_calls.
  rewrite Hg. simpl. rewrite Hd, Hb. simpl. eauto.
Qed.

(** *** The shape of a successful [add] *)

Lemma add_ok entries r r' :
  add entries r = (Ok tt, r') ->
  exists g r1 g',
    graph r = Some g /\ add_loop entries r = (Ok tt, r1) /\
    graph r1 = Some g' /\ graph r' = Some g' /\
    (if graph_equals g' g then r' = r1 else updateRoot r1 = (Ok tt, r')).
Proof.
  unfold add, add_finish, graph_clone. intros Hrun.
  apply bind_ok_inv in Hrun as (g & r0 & Hg & Hrun).
  apply bind_ok_inv in Hrun as ([] & r1 & Hloop & Hrun).
  apply bind_ok_inv in Hrun as (g' & r2 & Hg' & Hrun).
  unfold get_graph in Hg, Hg'.
  destruct (graph r) eqn:Eg; simplify_eq.
  destruct (graph r1) eqn:Eg'; simplify_eq.
  exists g, r2, g'. split; [done|]. split; [done|]. split; [done|].
  destruct (graph_equals g' g).
  - injection Hrun as <-. done.
  - split; [|done].
    apply updateRoot_ok in Hrun as (? & ? & ? & ? & ? & ? & Hsame & _).
    by rewrite Hsame.
Qed.

Lemma blocks_put_frame b r res r' :
  blocks_put b r = (res, r') ->
  events r' = events r /\ root r' = root r /\ datastore r' = datastore r /\
  blockstore r' = blockstore r /\ _isStarted r' = _isStarted r /\
  graph r' = graph r /\ console r' = console r.
Proof. intros Hrun. crush; auto 10. Qed.

(** C1, as the code has it: a successful [write] dispatches [update] first,
    when adding the entry changed the Graph and once the new root is
    persisted, and [write] after it; the [update] notification is delivered
    before the [write] notification. *)
Theorem write_emits_update_then_write r payload entry r' :
  write payload r = (Ok entry, r') ->
  exists g g',
    graph r = Some g /\ graph r' = Some g' /\
    events r' =
      events r ++ (if graph_equals g' g then [] else [EvUpdate]) ++ [EvWrite] /\
    (graph_equals g' g = false ->
       root r' = Some (root_cid (Blocks_encode (graph_root g'))) /\
       store_get rootHashKey (datastore r')
         = Ok (root_cid (Blocks_encode (graph_root g')))).
Proof.
  unfold write. intros Hrun.
  apply bind_ok_inv in Hrun as (started & r0 & Hs & Hrun).
  unfold gets in Hs. injection Hs as <- <-.
  destruct (isStarted r); [simpl in Hrun|done].
  apply bind_ok_inv in Hrun as (g & ra & Hg & Hrun).
  unfold get_graph in Hg. destruct (graph r) eqn:Eg; simplify_eq.
  apply bind_ok_inv in Hrun as (idn & rb & Hi & Hrun). injection Hi as <- <-.
  apply bind_ok_inv in Hrun as (tag & rc & Ht & Hrun). injection Ht as <- <-.
  apply bind_ok_inv in Hrun as (e & rd & He & Hrun).
  unfold lift in He. injection He as He <-.
  apply bind_ok_inv in Hrun as ([] & r1 & Hput & Hrun).
  apply bind_ok_inv in Hrun as ([] & r2 & Hadd & Hrun).
  apply bind_ok_inv in Hrun as ([] & r3 & Hev & Hrun).
  injection Hrun as <- <-. unfold dispatchEvent, modify in Hev.
  injection Hev as <-. simpl.
  apply blocks_put_frame in Hput as (Ev1 & _ & _ & _ & _ & Hg1 & _).
  apply add_ok in Hadd as (g1 & r1' & g' & Hg1' & Hloop & Hg' & Hg2 & Hfin).
  rewrite Hg1, Eg in Hg1'. injection Hg1' as <-.
  apply add_loop_frame in Hloop as (Ev2 & _).
  exists g, g'. split; [done|]. split; [done|].
  destruct (graph_equals g' g) eqn:Heq.
  - subst r2. split; [|done]. simpl. congruence.
  - apply updateRoot_ok in Hfin as (g2 & Hg2' & Hroot & Hev & Hptr & _).
    rewrite Hg' in Hg2'. injection Hg2' as <-.
    split; [|done]. rewrite Hev, Ev2, Ev1. by rewrite <- app_assoc.
Qed.

(** *** Starting *)

Lemma getRoot_error ds bs e : getRoot ds bs = Error e -> e = FailedToGetRoot.
Proof. unfold getRoot. intros Hrun. by repeat case_match; simplify_eq. Qed.

(** C2, as the code has it: the root is loaded, and when loading it fails,
    for whatever reason (no pointer, a pointer or a block that cannot be read,
    a block that does not decode: [getRoot] rethrows them all alike and
    [starting] catches them all), no root is taken.  The Graph is built from
    the root loaded, or empty, and started: when starting it rejects, [start]
    rejects with that error and the replica is not started, with nothing
    written and no event.  Otherwise, with a root loaded nothing is written;
    with none, the empty root is persisted at once and the replica starts,
    unless a store refuses the write, which is surfaced to the caller and
    leaves the replica not started. *)
Theorem start_loads_or_creates_root r :
  isStarted r = false ->
  let loaded :=
    match getRoot (datastore r) (blockstore r) with
    | Ok block => Some block
    | Error _ => None
    end in
  let g := graph_new (root_value <$> loaded) in
  match graph_start g (blockstore r) with
  | Error e => start r = (Error e, set_graph (Some g) r)
  | Ok _ =>
      match loaded with
      | Some block =>
          start r = (Ok tt, set_isStarted true
                              (set_root (Some (root_cid block))
                                 (set_graph (Some g) r)))
      | None =>
          let block := Blocks_encode (graph_root g) in
          if writable (datastore r) && writable (blockstore r) then
            exists r', start r = (Ok tt, r') /\ isStarted r' = true /\
              graph r' = Some g /\
              root r' = Some (root_cid block) /\
              store_get rootHashKey (datastore r') = Ok (root_cid block) /\
              store_get (root_cid block) (blockstore r') = Ok (root_bytes block) /\
              events r' = events r ++ [EvUpdate]
          else
            exists r', start r = (Error FailedToGetRoot, r') /\
              isStarted r' = false /\ root r' = root r /\ events r' = events r
      end
  end.
Proof.
  intros Hs loaded g. unfold start. rewrite Hs. rewrite bind_run. unfold starting.
  fold loaded. fold g. change (blockstore (set_graph (Some g) r)) with (blockstore r).
  destruct (graph_start g (blockstore r)) as [[]|e]; [|done].
  destruct loaded as [block|] eqn:Hloaded; [done|].
  cbv zeta.
  set (r0 := set_graph (Some g) r).
  destruct (writable (datastore r) && writable (blockstore r)) eqn:Hw.
  - apply andb_true_iff in Hw as [Hd Hb].
    destruct (updateRoot_writable r0 g) as [r1 Hr1]; [done..|].
    rewrite Hr1. eexists. split; [reflexivity|].
    apply updateRoot_ok in Hr1 as (g0 & Hg & Hroot & Hev & Hptr & Hblk & Hg1 & _).
    simpl in Hg. injection Hg as <-. simpl. auto 10.
  - destruct (updateRoot r0) as [[[]|e'] r1] eqn:Hr1.
    + apply updateRoot_ok_writable in Hr1. simpl in Hr1. congruence.
    + apply updateRoot_error in Hr1 as (Hev & Hroot & _ & Hst & [[Hg _]|[_ ->]]).
      { subst r0. simpl in Hg. done. }
      eexists. split; [reflexivity|]. unfold isStarted in *.
      rewrite Hst, Hev, Hroot. done.
Qed.

(** *** Started replicas hold a Graph *)

Lemma updateRoot_keeps r res r' :
  updateRoot r = (res, r') ->
  _isStarted r' = _isStarted r /\ graph r' = graph r.
Proof.
  destruct res as [[]|e]; intros Hrun.
  - by apply updateRoot_ok in Hrun as (g & _ & _ & _ & _ & _ & Hg & _ & _ & Hs).
  - by apply updateRoot_error in Hrun as (_ & _ & Hg & Hs & _).
Qed.

Lemma add_keeps entries r res r' :
  add entries r = (res, r') ->
  _isStarted r' = _isStarted r /\ (is_Some (graph r) -> is_Some (graph r')).
Proof.
  unfold add, add_finish, graph_clone. rewrite bind_run. unfold get_graph.
  destruct (graph r) as [g|] eqn:Hg; [|by intros [= <- <-]].
  rewrite bind_run. destruct (add_loop entries r) as [[[]|e] r1] eqn:Hloop.
  - apply add_loop_frame in Hloop as (_ & _ & _ & _ & Hs & _ & _ & Hsome).
    rewrite bind_run.
    destruct (graph r1) as [g1|] eqn:Hg1.
    + destruct (graph_equals g1 g).
      * intros [= <- <-]. rewrite Hg1. eauto.
      * intros Hup. apply updateRoot_keeps in Hup as [-> ->]. rewrite Hg1. eauto.
    + assert (is_Some (graph r)) as Hx by (rewrite Hg; eauto).
      apply Hsome in Hx. by destruct Hx.
  - intros [= <- <-].
    apply add_loop_frame in Hloop as (_ & _ & _ & _ & Hs & _ & _ & Hsome).
    split; [done|]. intros _. apply Hsome. eauto.
Qed.

Lemma write_keeps payload r res r' :
  write payload r = (res, r') ->
  _isStarted r' = _isStarted r /\ (is_Some (graph r) -> is_Some (graph r')).
Proof.
  unfold write. rewrite bind_run. unfold gets.
  destruct (isStarted r); simpl; [|by intros [= <- <-]].
  rewrite bind_run. unfold get_graph.
  destruct (graph r) as [g|] eqn:Hg; [|by intros [= <- <-]].
  rewrite !bind_run. unfold lift.
  destruct (entry_create _ _ _ _) as [entry|e]; [|by intros [= <- <-]; rewrite Hg].
  rewrite bind_run.
  destruct (blocks_put (entry_block entry) r) as [[[]|e] r1] eqn:Hput;
    apply blocks_put_frame in Hput as (_ & _ & _ & _ & Hs1 & Hg1 & _);
    [|by intros [= <- <-]; rewrite Hg1, Hg].
  rewrite bind_run.
  destruct (add [entry] r1) as [[[]|e] r2] eqn:Hadd;
    apply add_keeps in Hadd as [Hs2 Hg2]; rewrite Hg1, Hg in Hg2.
  - unfold dispatchEvent, modify. rewrite bind_run. intros [= <- <-]. simpl.
    split; [congruence|auto].
  - intros [= <- <-]. split; [congruence|auto].
Qed.

Lemma starting_keeps r res r' :
  starting r = (res, r') ->
  _isStarted r' = _isStarted r /\ is_Some (graph r').
Proof.
  unfold starting.
  destruct (graph_start _ _) as [[]|e0]; [|intros [= <- <-]; simpl; eauto].
  destruct (getRoot (datastore r) (blockstore r)) as [block|e].
  - intros [= <- <-]. simpl. eauto.
  - intros Hup. apply updateRoot_keeps in Hup as [-> ->]. simpl. eauto.
Qed.

Lemma reachable_started_graph r :
  reachable r -> _isStarted r = true -> is_Some (graph r).
Proof.
  induction 1 as [|c r Hr IH]; [done|].
  destruct c; simpl.
  - unfold start, isStarted. destruct (_isStarted r) eqn:Hs; [auto|].
    rewrite bind_run. destruct (starting r) as [[[]|e] r1] eqn:Hst;
      apply starting_keeps in Hst as [Hs1 Hg1]; simpl; [done|congruence].
  - unfold stop, isStarted. destruct (_isStarted r) eqn:Hs; simpl; [done|].
    intros. congruence.
  - destruct (add entries r) as [res r1] eqn:Hadd. simpl.
    apply add_keeps in Hadd as [-> Hg]. auto.
  - destruct (write payload r) as [res r1] eqn:Hw. simpl.
    apply write_keeps in Hw as [-> Hg]. auto.
  - unfold has. rewrite bind_run. unfold gets, throw.
    destruct (isStarted r) eqn:Hs; simpl; [|exact IH].
    rewrite bind_run. unfold get_graph.
    destruct (graph r) eqn:Hg; simpl; rewrite Hg; auto.
  - unfold known. rewrite bind_run. unfold gets, throw.
    destruct (isStarted r) eqn:Hs; simpl; [|exact IH].
    rewrite bind_run. unfold get_graph.
    destruct (graph r) eqn:Hg; simpl; rewrite Hg; auto.
Qed.

(** C6: on a replica that is not started (never started, or stopped),
    [write] fails with 'replica not started' and leaves every store as it
    was, so no block is persisted; [has] and [known] fail with the same error.
    A replica whose Graph is not initialized is such a replica: in every state
    a replica can reach, no Graph means not started. *)
Theorem not_started_guard r payload cid :
  isStarted r = false \/ (reachable r /\ graph r = None) ->
  write payload r = (Error ReplicaNotStarted, r) /\
  has cid r = (Error ReplicaNotStarted, r) /\
  known cid r = (Error ReplicaNotStarted, r).
Proof.
  intros Hr.
  assert (Hs : isStarted r = false).
  { destruct Hr as [Hs|[Hreach Hg]]; [done|].
    unfold isStarted. destruct (_isStarted r) eqn:Hs; [|done].
    destruct (reachable_started_graph r Hreach Hs) as [g Hg']. congruence. }
  unfold write, has, known. rewrite !bind_run. unfold gets. by rewrite Hs.
Qed.

(** *** The loop of [add], entry by entry *)

Lemma add_entry_skip entry r :
  entry_tag entry <> manifest_tag r ->
  add_entry entry r
  = (Ok tt, set_console (console r ++ [mismatched_tag_warning]) r).
Proof.
  intros Hne. unfold add_entry. rewrite bind_run. unfold gets.
  by rewrite decide_False.
Qed.

Lemma add_entry_apply entry r r' g :
  entry_tag entry = manifest_tag r -> graph r = Some g ->
  add_entry entry r = (Ok tt, r') ->
  graph r' = Some (apply_entry entry g) /\ writable (blocks r) = true.
Proof.
  intros Htag Hg. unfold add_entry, apply_entry. rewrite bind_run. unfold gets.
  rewrite decide_True by done. intros Hrun.
  apply bind_ok_inv in Hrun as ([] & r1 & Hp1 & Hrun).
  apply bind_ok_inv in Hrun as ([] & r2 & Hp2 & Hrun).
  assert (Hw : writable (blocks r) = true).
  { unfold blocks_put, store_put in Hp1. by destruct (writable (blocks r)). }
  apply blocks_put_frame in Hp1 as (_ & _ & _ & _ & _ & Hg1 & _).
  apply blocks_put_frame in Hp2 as (_ & _ & _ & _ & _ & Hg2 & _).
  rewrite Hg1, Hg in Hg2.
  destruct (access_canAppend entry);
    unfold_calls; rewrite Hg2 in Hrun; by simplify_eq.
Qed.

Lemma add_entry_writable entry r res r' :
  add_entry entry r = (res, r') -> writable (blocks r') = writable (blocks r).
Proof.
  unfold add_entry. intros Hrun. crush; done.
Qed.

Lemma add_entry_succeeds entry r :
  is_Some (graph r) ->
  entry_tag entry <> manifest_tag r \/ writable (blocks r) = true ->
  exists r', add_entry entry r = (Ok tt, r').
Proof.
  intros [g Hg] Hcan.
  destruct (decide (entry_tag entry = manifest_tag r)) as [Htag|Hne].
  - destruct Hcan as [|Hw]; [done|].
    unfold add_entry. rewrite bind_run. unfold gets. rewrite decide_True by done.
    unfold_calls. rewrite Hw. simpl.
    destruct (access_canAppend entry); simpl; rewrite Hg; eauto.
  - rewrite add_entry_skip by done. eauto.
Qed.

Lemma add_loop_graph entries : forall r r' g,
  graph r = Some g -> add_loop entries r = (Ok tt, r') ->
  graph r' = Some (foldl (fun g e => apply_entry e g) g (filter (tag_matches r) entries)).
Proof.
  induction entries as [|e es IH]; intros r r' g Hg Hrun; simpl in Hrun.
  - injection Hrun as <-. done.
  - apply bind_ok_inv in Hrun as ([] & r1 & He & Hrun).
    pose proof (add_entry_frame _ _ _ _ He) as (_ & _ & _ & _ & _ & Htag & _).
    assert (Hfilter : filter (tag_matches r1) es = filter (tag_matches r) es).
    { apply list_filter_iff. intros x. unfold tag_matches. by rewrite Htag. }
    destruct (decide (entry_tag e = manifest_tag r)) as [Hm|Hne].
    + rewrite filter_cons_True by done. simpl.
      apply add_entry_apply with (g := g) in He as [Hg1 _]; [|done..].
      rewrite <- Hfilter. by apply IH.
    + rewrite filter_cons_False by done.
      rewrite add_entry_skip in He by done. injection He as <-.
      rewrite <- Hfilter. by apply IH.
Qed.

(** A successful run of the loop can be run again from where it ended. *)
Lemma add_loop_succeeds entries : forall r,
  is_Some (graph r) ->
  Forall (fun e => entry_tag e <> manifest_tag r) entries
    \/ writable (blocks r) = true ->
  exists r', add_loop entries r = (Ok tt, r').
Proof.
  induction entries as [|e es IH]; intros r Hg Hcan; simpl; [by eexists|].
  rewrite bind_run.
  destruct (add_entry_succeeds e r Hg) as [r1 He].
  { destruct Hcan as [Hall|Hw]; [left; by inversion Hall|by right]. }
  rewrite He.
  pose proof (add_entry_writable _ _ _ _ He) as Hw1.
  apply add_entry_frame in He as (_ & _ & _ & _ & _ & Htag & _ & Hsome).
  apply IH; [by apply Hsome|].
  destruct Hcan as [Hall|Hw]; [left|right; congruence].
  inversion Hall; subst. by rewrite Htag.
Qed.

Lemma add_loop_ran entries : forall r r',
  add_loop entries r = (Ok tt, r') ->
  (Forall (fun e => entry_tag e <> manifest_tag r) entries
   \/ writable (blocks r) = true) /\
  writable (blocks r') = writable (blocks r).
Proof.
  induction entries as [|e es IH]; intros r r' Hrun; simpl in Hrun.
  - injection Hrun as <-. auto.
  - apply bind_ok_inv in Hrun as ([] & r1 & He & Hrun).
    pose proof (add_entry_writable _ _ _ _ He) as Hw1.
    pose proof (add_entry_frame _ _ _ _ He) as (_ & _ & _ & _ & _ & Htag & _).
    apply IH in Hrun as [Hcan Hw].
    split; [|congruence].
    destruct (decide (entry_tag e = manifest_tag r)) as [Hm|Hne].
    + right. unfold add_entry in He. rewrite bind_run in He. unfold gets in He.
      rewrite decide_True in He by done.
      apply bind_ok_inv in He as ([] & r2 & Hp1 & _).
      unfold blocks_put, store_put in Hp1. by destruct (writable (blocks r)).
    + destruct Hcan as [Hall|Hw']; [left|right; congruence].
      constructor; [done|]. by rewrite <- Htag.
Qed.

Lemma updateRoot_tag r res r' :
  updateRoot r = (res, r') ->
  manifest_tag r' = manifest_tag r /\ blocks r' = blocks r.
Proof. unfold updateRoot. intros Hrun. crush; done. Qed.

Lemma add_run entries r r1 g g1 :
  graph r = Some g -> add_loop entries r = (Ok tt, r1) -> graph r1 = Some g1 ->
  add entries r = if graph_equals g1 g then (Ok tt, r1) else updateRoot r1.
Proof.
  intros Hg Hloop Hg1. unfold add, add_finish, graph_clone.
  rewrite bind_run. unfold get_graph at 1. rewrite Hg.
  rewrite bind_run, Hloop, bind_run. unfold get_graph. rewrite Hg1.
  by destruct (graph_equals g1 g).
Qed.

(** *** Entries the Graph has settled *)

Section Lawful.
Context `{!GraphLaws}.

Lemma apply_entry_settles entry g : settled entry (apply_entry entry g).
Proof.
  unfold settled, apply_entry. destruct (access_canAppend entry).
  - apply graph_add_settles.
  - apply graph_deny_denies.
Qed.

Lemma apply_entry_keeps_settled entry entry' g :
  settled entry g -> settled entry (apply_entry entry' g).
Proof.
  unfold settled, apply_entry.
  destruct (access_canAppend entry), (access_canAppend entry'); intros Hs.
  - destruct Hs as [Hs|Hs]; [by apply graph_has_add|].
    right. by apply graph_denied_add.
  - destruct Hs as [Hs|Hs]; [by apply graph_has_deny|].
    right. by apply graph_denied_deny.
  - by apply graph_denied_add.
  - by apply graph_denied_deny.
Qed.

Lemma apply_entry_settled entry g : settled entry g -> apply_entry entry g = g.
Proof.
  unfold settled, apply_entry. destruct (access_canAppend entry); intros Hs.
  - destruct Hs; [by apply graph_add_accepted|by apply graph_add_denied].
  - by apply graph_deny_denied.
Qed.

Lemma foldl_apply_settles l g :
  Forall (fun e => settled e (foldl (fun g e => apply_entry e g) g l)) l.
Proof.
  induction l as [|x l IH] using rev_ind; [constructor|].
  rewrite foldl_snoc. apply Forall_app. split.
  - eapply Forall_impl; [exact IH|]. intros e He. by apply apply_entry_keeps_settled.
  - constructor; [apply apply_entry_settles|constructor].
Qed.

Lemma foldl_apply_settled l : forall g,
  Forall (fun e => settled e g) l -> foldl (fun g e => apply_entry e g) g l = g.
Proof.
  induction l as [|x l IH]; intros g Hall; [done|].
  inversion Hall; subst. simpl. rewrite apply_entry_settled by done. by apply IH.
Qed.

End Lawful.

(** C3: after a batch [add] compares the Graph with the snapshot taken
    before it; when they are equal no root is persisted (pointer, root block
    and [root] are as before) and no [update] is dispatched, and otherwise
    the new root is persisted and one [update] is dispatched.  In particular,
    over a Graph that keeps to what the spec says of hashes already seen,
    adding the same entries a second time succeeds, leaves the Graph and the
    persisted root as they were and dispatches no second [update]. *)
Theorem add_idempotent r entries r1 :
  add entries r = (Ok tt, r1) ->
  (exists g g1, graph r = Some g /\ graph r1 = Some g1 /\
     if graph_equals g1 g
     then root r1 = root r /\ datastore r1 = datastore r /\
          blockstore r1 = blockstore r /\ events r1 = events r
     else root r1 = Some (root_cid (Blocks_encode (graph_root g1))) /\
          events r1 = events r ++ [EvUpdate]) /\
  (GraphLaws ->
   exists r2, add entries r1 = (Ok tt, r2) /\
     graph r2 = graph r1 /\ root r2 = root r1 /\
     datastore r2 = datastore r1 /\ blockstore r2 = blockstore r1 /\
     events r2 = events r1).
Proof.
  intros Hadd.
  apply add_ok in Hadd as (g & r' & g1 & Hg & Hloop & Hg' & Hg1 & Hfin).
  pose proof (add_loop_frame _ _ _ _ Hloop)
    as (Hev & Hroot & Hds & Hbs & _ & Htag & _).
  split.
  - exists g, g1. split; [done|]. split; [done|].
    destruct (graph_equals g1 g).
    + by subst r1.
    + apply updateRoot_ok in Hfin as (g2 & Hg2 & Hr & He & _).
      rewrite Hg' in Hg2. injection Hg2 as <-. split; [done|]. congruence.
  - intros Hlaws.
    (* where the first run ended, and what is the same at [r1] *)
    assert (Hsame : manifest_tag r1 = manifest_tag r' /\ blocks r1 = blocks r').
    { destruct (graph_equals g1 g); [by subst|by eapply updateRoot_tag]. }
    destruct Hsame as [Htag1 Hblocks1].
    pose proof (add_loop_ran _ _ _ Hloop) as [Hcan Hw].
    destruct (add_loop_succeeds entries r1) as [r2 Hloop2].
    { rewrite Hg1. eauto. }
    { rewrite Htag1, Htag, Hblocks1, Hw. done. }
    pose proof (add_loop_graph _ _ _ _ Hg Hloop) as Hfold.
    rewrite Hg' in Hfold. injection Hfold as Hfold.
    pose proof (add_loop_graph _ _ _ _ Hg1 Hloop2) as Hg2.
    assert (Hfilter :
      filter (tag_matches r1) entries = filter (tag_matches r) entries).
    { apply list_filter_iff. intros x. unfold tag_matches.
      by rewrite Htag1, Htag. }
    rewrite Hfilter, foldl_apply_settled in Hg2.
    2:{ rewrite Hfold. apply foldl_apply_settles. }
    exists r2. rewrite (add_run _ _ _ _ _ Hg1 Hloop2 Hg2), graph_equals_refl.
    apply add_loop_frame in Hloop2 as (? & ? & ? & ? & _).
    split; [done|]. rewrite Hg2, Hg1. auto.
Qed.

(** C4: every entry of a batch whose tag is the manifest's is put to the
    access controller: an entry it answers true for goes to [Graph.add] with
    its cid and [next], an entry it answers false for goes to [Graph.deny]
    with its cid.  So for one entry, and so for a batch: the Graph after a
    successful [add] is the Graph before it taken through these calls, entry
    by entry in batch order, the entries of another tag left out. *)
Theorem add_decides_by_canAppend r entries r' g :
  graph r = Some g ->
  add entries r = (Ok tt, r') ->
  (forall entry r0 r1 g0,
     entry_tag entry = manifest_tag r0 -> graph r0 = Some g0 ->
     add_entry entry r0 = (Ok tt, r1) ->
     (access_canAppend entry = true ->
        graph r1 = Some (graph_add (entry_cid entry) (entry_next entry) g0)) /\
     (access_canAppend entry = false ->
        graph r1 = Some (graph_deny (entry_cid entry) g0))) /\
  graph r' =
    Some (foldl
            (fun g entry =>
               if access_canAppend entry
               then graph_add (entry_cid entry) (entry_next entry) g
               else graph_deny (entry_cid entry) g)
            g (filter (fun entry => entry_tag entry = manifest_tag r) entries)).
Proof.
  intros Hg Hadd. split.
  - intros entry r0 r1 g0 Htag Hg0 He.
    apply add_entry_apply with (g := g0) in He as [Hg1 _]; [|done..].
    unfold apply_entry in Hg1. split; intros Hc; by rewrite Hc in Hg1.
  - apply add_ok in Hadd as (g0 & r1 & g1 & Hg0 & Hloop & Hg1 & Hg' & _).
    rewrite Hg in Hg0. injection Hg0 as <-.
    rewrite Hg', <- Hg1. by apply add_loop_graph.
Qed.

(** *** The console is written, never read *)

Ltac same_but_console r1 r2 H :=
  destruct r1, r2; unfold mute, set_console in H; simpl in H;
  injection H; intros; subst; clear H.

Lemma add_entry_mute entry r1 r2 :
  mute r1 = mute r2 ->
  (add_entry entry r1).1 = (add_entry entry r2).1 /\
  mute (add_entry entry r1).2 = mute (add_entry entry r2).2.
Proof.
  intros Hm. same_but_console r1 r2 Hm.
  unfold add_entry, mute. crush; done.
Qed.

Lemma add_loop_mute entries : forall r1 r2,
  mute r1 = mute r2 ->
  (add_loop entries r1).1 = (add_loop entries r2).1 /\
  mute (add_loop entries r1).2 = mute (add_loop entries r2).2.
Proof.
  induction entries as [|e es IH]; intros r1 r2 Hm; [done|].
  simpl. rewrite !bind_run.
  destruct (add_entry_mute e r1 r2 Hm) as [Hres Hst].
  destruct (add_entry e r1) as [res1 s1], (add_entry e r2) as [res2 s2].
  cbn [fst snd] in Hres, Hst. subst res2.
  destruct res1 as [[]|err]; [by apply IH|done].
Qed.

Lemma add_finish_mute clone r1 r2 :
  mute r1 = mute r2 ->
  (add_finish clone r1).1 = (add_finish clone r2).1 /\
  mute (add_finish clone r1).2 = mute (add_finish clone r2).2.
Proof.
  intros Hm. same_but_console r1 r2 Hm.
  unfold add_finish, updateRoot, mute. crush; done.
Qed.

Lemma add_loop_app l1 l2 r :
  add_loop (l1 ++ l2) r = (add_loop l1 ≫= fun _ => add_loop l2) r.
Proof.
  revert r. induction l1 as [|e l1 IH]; intros r; simpl.
  - rewrite bind_run. done.
  - rewrite !bind_run. destruct (add_entry e r) as [[[]|err] r1]; [|done].
    rewrite IH. by rewrite bind_run.
Qed.

(** What a turn of the loop does to [blocks] and to the console. *)
Lemma add_entry_effects entry r r' :
  add_entry entry r = (Ok tt, r') ->
  if decide (tag_matches r entry)
  then blocks r' = persist_entry entry (blocks r) /\ console r' = console r
  else blocks r' = blocks r /\
       console r' = console r ++ [mismatched_tag_warning].
Proof.
  unfold tag_matches. destruct (decide _) as [Htag|Hne].
  - unfold add_entry, persist_entry. rewrite bind_run. unfold gets.
    rewrite decide_True by done. intros Hrun.
    apply bind_ok_inv in Hrun as ([] & r1 & Hp1 & Hrun).
    apply bind_ok_inv in Hrun as ([] & r2 & Hp2 & Hrun).
    assert (Hb1 : blocks r1 = (store_put (block_cid (entry_block entry))
                    (block_bytes (entry_block entry)) (blocks r)).2
                  /\ console r1 = console r).
    { unfold blocks_put in Hp1. destruct (store_put _ _ (blocks r)) as [res s1].
      by injection Hp1 as _ <-. }
    assert (Hb2 : blocks r2
                  = (store_put (block_cid (identity_block (entry_identity entry)))
                       (block_bytes (identity_block (entry_identity entry)))
                       (blocks r1)).2
                  /\ console r2 = console r1).
    { unfold blocks_put in Hp2. destruct (store_put _ _ (blocks r1)) as [res s2].
      by injection Hp2 as _ <-. }
    destruct Hb1 as [Hb1 Hc1], Hb2 as [Hb2 Hc2].
    assert (blocks r' = blocks r2 /\ console r' = console r2) as [-> ->].
    { destruct (access_canAppend entry); unfold_calls;
        destruct (graph r2); by simplify_eq. }
    by rewrite Hb2, Hb1, Hc2, Hc1.
  - rewrite add_entry_skip by done. by intros [= <-].
Qed.

Lemma add_loop_effects entries : forall r r',
  add_loop entries r = (Ok tt, r') ->
  blocks r' = foldl (fun s e => persist_entry e s) (blocks r)
                (filter (tag_matches r) entries) /\
  console r' = console r ++
    skipped_warnings (length (filter (fun e => ~ tag_matches r e) entries)).
Proof.
  induction entries as [|e es IH]; intros r r' Hrun; simpl in Hrun.
  - injection Hrun as <-. unfold skipped_warnings. simpl. by rewrite app_nil_r.
  - apply bind_ok_inv in Hrun as ([] & r1 & He & Hrun).
    pose proof (add_entry_frame _ _ _ _ He) as (_ & _ & _ & _ & _ & Htag & _).
    assert (Hf1 : filter (tag_matches r1) es = filter (tag_matches r) es).
    { apply list_filter_iff. intros x. unfold tag_matches. by rewrite Htag. }
    assert (Hf2 : filter (fun e => ~ tag_matches r1 e) es
                  = filter (fun e => ~ tag_matches r e) es).
    { apply list_filter_iff. intros x. unfold tag_matches. by rewrite Htag. }
    apply IH in Hrun as [Hb Hc]. rewrite Hf1 in Hb. rewrite Hf2 in Hc.
    apply add_entry_effects in He.
    destruct (decide (tag_matches r e)) as [Hm|Hne]; destruct He as [Hb1 Hc1].
    + rewrite filter_cons_True by done.
      rewrite (filter_cons_False (fun e => ~ tag_matches r e)) by tauto.
      simpl. by rewrite Hb, Hc, Hb1, Hc1.
    + rewrite filter_cons_False by done.
      rewrite (filter_cons_True (fun e => ~ tag_matches r e)) by done.
      unfold skipped_warnings in *. simpl.
      rewrite Hb, Hc, Hb1, Hc1. by rewrite <- app_assoc.
Qed.

(** C5: an entry whose tag is not the manifest's is skipped with a warning:
    its turn in the loop returns normally and changes nothing but the
    console, so its block is not persisted and the Graph is not touched; and
    the batch goes on, ending with the same result and the same replica, the
    console aside, as the batch without that entry.  What [add] has done when
    it succeeds is what its loop does entry by entry: the Graph has been taken
    through the entries of the manifest's tag before and after the entry, their
    blocks and no others have been put, and the console has the warning of the
    entry, between the warnings of the entries skipped before and after it.
    The loop, come to the entry, writes the warning and goes on with the
    entries after it; and [add] does succeed on a replica with a Graph whose
    stores take writes. *)
Theorem add_skips_mismatched_tag r pre entry post :
  entry_tag entry <> manifest_tag r ->
  (forall r0, manifest_tag r0 = manifest_tag r ->
     add_entry entry r0
     = (Ok tt, set_console (console r0 ++ [mismatched_tag_warning]) r0)) /\
  (add (pre ++ entry :: post) r).1 = (add (pre ++ post) r).1 /\
  mute (add (pre ++ entry :: post) r).2 = mute (add (pre ++ post) r).2 /\
  (forall r', add (pre ++ entry :: post) r = (Ok tt, r') ->
     exists g, graph r = Some g /\
       graph r' = Some (foldl (fun g e => apply_entry e g) g
                          (filter (tag_matches r) (pre ++ post))) /\
       blocks r' = foldl (fun s e => persist_entry e s) (blocks r)
                     (filter (tag_matches r) (pre ++ post)) /\
       console r' = console r
         ++ skipped_warnings (length (filter (fun e => ~ tag_matches r e) pre))
         ++ [mismatched_tag_warning]
         ++ skipped_warnings (length (filter (fun e => ~ tag_matches r e) post))) /\
  (forall r0, manifest_tag r0 = manifest_tag r ->
     add_loop (entry :: post) r0
     = add_loop post (set_console (console r0 ++ [mismatched_tag_warning]) r0)) /\
  (is_Some (graph r) -> writable (blocks r) = true ->
   writable (datastore r) = true -> writable (blockstore r) = true ->
   exists r', add (pre ++ entry :: post) r = (Ok tt, r')).
Proof.
  intros Hne.
  assert (Hskip : forall r0, manifest_tag r0 = manifest_tag r ->
    add_entry entry r0
    = (Ok tt, set_console (console r0 ++ [mismatched_tag_warning]) r0)).
  { intros r0 Htag. apply add_entry_skip. by rewrite Htag. }
  split; [exact Hskip|].
  assert (Hsame :
    (add (pre ++ entry :: post) r).1 = (add (pre ++ post) r).1 /\
    mute (add (pre ++ entry :: post) r).2 = mute (add (pre ++ post) r).2).
  { unfold add, graph_clone. rewrite !bind_run. unfold get_graph.
    destruct (graph r) as [g|]; [|done].
    rewrite !bind_run, !add_loop_app, !bind_run.
    destruct (add_loop pre r) as [[[]|err] r1] eqn:Hpre; [|done].
    apply add_loop_frame in Hpre as (_ & _ & _ & _ & _ & Htag & _).
    simpl add_loop. rewrite bind_run, (Hskip r1 Htag).
    set (r1' := set_console _ r1).
    destruct (add_loop_mute post r1' r1 eq_refl) as [Hres Hst].
    destruct (add_loop post r1') as [res1 s1], (add_loop post r1) as [res2 s2].
    cbn [fst snd] in Hres, Hst. subst res2.
    destruct res1 as [[]|err]; [by apply add_finish_mute|done]. }
  destruct Hsame as [Hres Hmute]. split; [exact Hres|]. split; [exact Hmute|].
  split; [|split].
  2: { intros r0 Htag. simpl. by rewrite bind_run, (Hskip r0 Htag). }
  2: { intros [g Hg] Hb Hd Hbs.
       destruct (add_loop_succeeds (pre ++ entry :: post) r) as [r1 Hloop];
         [by exists g|by right|].
       pose proof (add_loop_frame _ _ _ _ Hloop)
         as (_ & _ & Hd1 & Hbs1 & _ & _ & _ & Hsome).
       destruct (proj1 Hsome (ex_intro _ g Hg)) as [g1 Hg1].
       rewrite (add_run _ _ _ _ _ Hg Hloop Hg1).
       destruct (graph_equals g1 g); [by exists r1|].
       apply updateRoot_writable with g1; congruence. }
  intros r' Hadd.
  apply add_ok in Hadd as (g & r1 & g1 & Hg & Hloop & Hg1 & Hg' & Hfin).
  exists g. split; [done|].
  pose proof (add_loop_graph _ _ _ _ Hg Hloop) as Hgraph.
  pose proof (add_loop_effects _ _ _ Hloop) as [Hblocks Hconsole].
  assert (Hrest : blocks r' = blocks r1 /\ console r' = console r1).
  { destruct (graph_equals g1 g); [by subst|].
    by apply updateRoot_ok in Hfin as (_ & _ & _ & _ & _ & _ & _ & ? & ? & _). }
  destruct Hrest as [-> ->].
  assert (Hno : ~ tag_matches r entry) by done.
  rewrite filter_app, filter_cons_False in Hgraph, Hblocks by done.
  rewrite <- filter_app in Hgraph, Hblocks.
  rewrite filter_app, filter_cons_True, length_app in Hconsole by done.
  split; [congruence|]. split; [done|].
  rewrite Hconsole. unfold skipped_warnings. simpl.
  rewrite repeat_app. simpl. done.
Qed.

End WithCollaborators.

(** *** The theorems on a replica of alice *)

Import Examples.
#[local] Existing Instance Examples.collaborators.

Lemma write_emits_update_then_write_witness :
  exists entry r',
    write [x01] running = (Ok entry, r') /\
    exists g g',
      graph running = Some g /\ graph r' = Some g' /\
      events r' =
        events running ++ (if graph_equals g' g then [] else [EvUpdate]) ++ [EvWrite] /\
      (graph_equals g' g = false ->
         root r' = Some (root_cid (Blocks_encode (graph_root g'))) /\
         store_get rootHashKey (datastore r')
           = Ok (root_cid (Blocks_encode (graph_root g')))).
Proof.
  assert (Hok : is_ok (write [x01] running).1 = true)
    by (vm_compute; reflexivity).
  destruct (write [x01] running) as [[entry|e] r'] eqn:Hrun; [|discriminate Hok].
  exists entry, r'. split; [reflexivity|].
  exact (write_emits_update_then_write running [x01] entry r' Hrun).
Defined.

Lemma not_write_before_update : ~ write_before_update [EvUpdate; EvWrite].
Proof.
  intros (pre & mid & post & Hem).
  destruct pre as [|a [|b pre]]; simplify_eq.
  - destruct mid; simplify_eq.
  - destruct pre; simplify_eq.
Qed.

(** The claim C1 as the spec has it fails on alice's replica: the events of
    her first write are [update] and then [write]. *)
Lemma write_then_update_counterexample :
  ~ (forall entry r',
       write [x01] running = (Ok entry, r') ->
       exists emitted,
         events r' = events running ++ emitted /\ write_before_update emitted).
Proof.
  intros Hclaim.
  assert (Hok : is_ok (write [x01] running).1 = true)
    by (vm_compute; reflexivity).
  assert (Hafter : events (write [x01] running).2 = [EvUpdate; EvUpdate; EvWrite])
    by (vm_compute; reflexivity).
  assert (Hbefore : events running = [EvUpdate]) by (vm_compute; reflexivity).
  destruct (write [x01] running) as [[entry|e] r'] eqn:Hrun; [|discriminate Hok].
  destruct (Hclaim _ _ eq_refl) as (emitted & Hev & Hwu).
  simpl in Hafter. rewrite Hafter, Hbefore in Hev.
  injection Hev as <-. by apply not_write_before_update.
Qed.

Lemma start_loads_or_creates_root_witness :
  isStarted damaged = false /\
  (exists r', start damaged = (Ok tt, r') /\ isStarted r' = true /\
     graph r' = Some (graph_new None) /\ events r' = [EvUpdate]) /\
  start Scenarios.sealed
  = (Error StoreIO, set_graph (Some (graph_new None)) Scenarios.sealed).
Proof.
  split; [reflexivity|]. split.
  - pose proof (start_loads_or_creates_root damaged eq_refl) as Hstart.
    cbv zeta in Hstart.
    assert (Hfail : is_ok (getRoot (datastore damaged) (blockstore damaged)) = false)
      by (vm_compute; reflexivity).
    destruct (getRoot (datastore damaged) (blockstore damaged));
      [discriminate Hfail|].
    destruct Hstart as (r' & Hrun & Hs & Hg & _ & _ & _ & Hev).
    exists r'. auto.
  - exact (start_loads_or_creates_root Scenarios.sealed eq_refl).
Defined.

(** The claim C2 as the spec has it fails on a replica whose root pointer
    is there while the root block cannot be read: the replica starts. *)
Lemma start_unreadable_root_counterexample :
  ~ unreadable_root_is_fatal damaged.
Proof.
  intros Hclaim.
  assert (Hok : is_ok (start damaged).1 = true) by (vm_compute; reflexivity).
  destruct Hclaim as (e & r' & Hrun & _).
  - exists [x07]. split; reflexivity.
  - rewrite Hrun in Hok. discriminate Hok.
Qed.

Lemma add_idempotent_witness :
  exists r1 r2,
    add [e1; e2; e3] running = (Ok tt, r1) /\
    add [e1; e2; e3] r1 = (Ok tt, r2) /\
    graph r2 = graph r1 /\ root r2 = root r1 /\ events r2 = events r1.
Proof.
  assert (Hok : is_ok (add [e1; e2; e3] running).1 = true)
    by (vm_compute; reflexivity).
  destruct (add [e1; e2; e3] running) as [[[]|e] r1] eqn:Hrun;
    [|discriminate Hok].
  destruct (add_idempotent running [e1; e2; e3] r1 Hrun) as [_ Hagain].
  destruct (Hagain SpecGraphFacts.graph_laws)
    as (r2 & Hrun2 & Hg & Hroot & _ & _ & Hev).
  exists r1, r2. auto.
Defined.

Lemma add_decides_by_canAppend_witness :
  exists r',
    add [e1; e2; e3] running = (Ok tt, r') /\
    graph r' = Some (SpecGraph.deny [x02] (SpecGraph.add [x01] [] SpecGraph.empty)).
Proof.
  assert (Hok : is_ok (add [e1; e2; e3] running).1 = true)
    by (vm_compute; reflexivity).
  destruct (add [e1; e2; e3] running) as [[[]|e] r'] eqn:Hrun;
    [|discriminate Hok].
  exists r'. split; [reflexivity|].
  destruct (add_decides_by_canAppend running [e1; e2; e3] r' SpecGraph.empty
              eq_refl Hrun) as [_ ->].
  reflexivity.
Defined.

Lemma add_skips_mismatched_tag_witness :
  entry_tag e3 <> manifest_tag running /\
  (add ([e1] ++ e3 :: [e2]) running).1 = (add ([e1] ++ [e2]) running).1 /\
  mute (add ([e1] ++ e3 :: [e2]) running).2 = mute (add ([e1] ++ [e2]) running).2 /\
  exists r', add ([e1] ++ e3 :: [e2]) running = (Ok tt, r') /\
    graph r' = Some (SpecGraph.deny [x02] (SpecGraph.add [x01] [] SpecGraph.empty)) /\
    console r' = [mismatched_tag_warning].
Proof.
  assert (Hne : entry_tag e3 <> manifest_tag running) by done.
  split; [exact Hne|].
  destruct (add_skips_mismatched_tag running [e1] e3 [e2] Hne)
    as (_ & Hres & Hmute & Hdone & _ & Hruns).
  split; [exact Hres|]. split; [exact Hmute|].
  destruct Hruns as [r' Hrun]; [by eexists|reflexivity..|].
  destruct (Hdone r' Hrun) as (g & Hg & Hgraph & _ & Hconsole).
  exists r'. split; [exact Hrun|]. split.
  - assert (g = SpecGraph.empty) as -> by (by injection Hg as <-).
    exact Hgraph.
  - exact Hconsole.
Defined.

Lemma not_started_guard_witness :
  isStarted fresh = false /\
  (write [x01] fresh = (Error ReplicaNotStarted, fresh) /\
   has [x01] fresh = (Error ReplicaNotStarted, fresh) /\
   known [x01] fresh = (Error ReplicaNotStarted, fresh)) /\
  let stopped := (stop running).2 in
  isStarted stopped = false /\
  write [x01] stopped = (Error ReplicaNotStarted, stopped) /\
  has [x01] stopped = (Error ReplicaNotStarted, stopped) /\
  known [x01] stopped = (Error ReplicaNotStarted, stopped).
Proof.
  split; [reflexivity|]. split.
  - apply (not_started_guard fresh [x01] [x01]). left. reflexivity.
  - cbv zeta. split; [reflexivity|].
    apply (not_started_guard (stop running).2 [x01] [x01]). left. reflexivity.
Defined.

(** *** The calls [add] makes on the Graph

    Over the Graph that keeps its calls: a successful [add] has called
    [Graph.add] for the entries of the manifest's tag that [canAppend] answers
    true for, [Graph.deny] for those it answers false for, in batch order, and
    has made no call for an entry of another tag. *)

Lemma foldl_call_log canAppend create entries : forall log,
  foldl (fun g e => @apply_entry (CallLog.collaborators canAppend create) e g)
        log entries
  = log ++ map (CallLog.call_for canAppend) entries.
Proof.
  induction entries as [|e entries IH]; intros log; simpl.
  - by rewrite app_nil_r.
  - rewrite IH. unfold apply_entry, CallLog.call_for. simpl.
    destruct (canAppend e); by rewrite <- app_assoc.
Qed.

Lemma add_calls canAppend create
    (r r' : @Replica (CallLog.collaborators canAppend create)) entries log :
  graph r = Some log ->
  add entries r = (Ok tt, r') ->
  graph r' =
    Some (log ++ map (CallLog.call_for canAppend)
                     (filter (tag_matches r) entries)).
Proof.
  intros Hg Hadd.
  apply add_ok in Hadd as (g0 & r1 & g1 & Hg0 & Hloop & Hg1 & Hg' & _).
  rewrite Hg in Hg0. injection Hg0 as <-.
  rewrite Hg', <- Hg1, <- foldl_call_log.
  exact (add_loop_graph entries r r1 log Hg Hloop).
Qed.

End ReplicaFacts.

(** ** The broadcast replicator *)

Module PubsubFacts.
Import Replica Pubsub.

(** What a replica broadcasts, a peer parses back to the broadcaster's heads. *)
Lemma broadcast_parses `{Collaborators} r msg r' :
  encodeHeads r = (Ok msg, r') ->
  exists g, graph r = Some g /\ parseHeads msg = Ok (graph_heads g).
Proof.
  unfold encodeHeads, getHeads. intros Hrun.
  apply bind_ok_inv in Hrun as (heads & r1 & Hheads & Hrun).
  apply bind_ok_inv in Hheads as (g & r0 & Hg & Hheads).
  unfold get_graph in Hg. destruct (graph r) as [g0|]; [|done].
  injection Hg as <- <-. injection Hheads as <- <-. injection Hrun as <- <-.
  exists g0. split; [done|].
  by apply HeadsCodecFacts.decodeHeads_aux_encode.
Qed.

End PubsubFacts.

(** ** Calls in flight *)

Module TasksFacts.
Import Replica Tasks.

Section WithCollaborators.
Context `{Collaborators}.

(** No step puts a job on [_queue]. *)
Lemma step_queue s a : _queue (step s a) = _queue s.
Proof.
  destruct a as [entries|payload| |i]; simpl.
  - unfold invoke_add, get_graph. by destruct (graph (replica s)).
  - unfold invoke_write, get_graph. destruct (negb _); [done|].
    by destruct (graph (replica s)).
  - unfold invoke_stop. by destruct (negb _).
  - unfold resume. destruct (inflight s !! i) as [[clone [|e rest] w|p hs|]|];
      try done.
    + destruct (add_finish clone (replica s)) as [[[]|e] r]; [|done].
      by destruct w.
    + by destruct (add_entry e (replica s)) as [[[]|e'] r].
    + destruct (entry_create _ _ _ _) as [entry|e]; [|done].
      destruct (blocks_put _ _) as [[[]|e] r]; [|done].
      unfold get_graph. by destruct (graph r).
    + destruct (_queue s) eqn:Hq; [|done].
      by destruct ((stopping ≫= _) (replica s)).
Qed.

Lemma run_queue schedule : forall s, _queue (run schedule s) = _queue s.
Proof.
  induction schedule as [|a schedule IH]; intros s; [done|].
  unfold run in *. simpl. by rewrite IH, step_queue.
Qed.

(** *** A call left alone runs as the method does *)

Lemma resume_idle i s : inflight s = [] -> resume i s = s.
Proof. intros Hidle. unfold resume. by rewrite Hidle. Qed.

Lemma run_idle n s : inflight s = [] -> run (replicate n (Resume 0)) s = s.
Proof.
  intros Hidle. induction n as [|n IH]; [done|].
  unfold run in *. simpl. by rewrite resume_idle.
Qed.

Lemma run_cons a schedule s : run (a :: schedule) s = run schedule (step s a).
Proof. reflexivity. Qed.

Lemma run_add_loop todo : forall clone r outs,
  run (replicate (S (length todo)) (Resume 0))
      {| replica := r; _queue := []; inflight := [AddLoop clone todo None];
         outcomes := outs |}
  = {| replica := ((add_loop todo ≫= fun _ => add_finish clone) r).2;
       _queue := []; inflight := [];
       outcomes :=
         outs ++ [outcome_of ((add_loop todo ≫= fun _ => add_finish clone) r).1] |}.
Proof.
  induction todo as [|e rest IH]; intros clone r outs.
  - change (replicate (S (length [])) (Resume 0)) with [Resume 0].
    rewrite run_cons. cbn [add_loop]. rewrite bind_run.
    unfold mret, M_ret. cbn beta iota.
    change (step ?s (Resume 0)) with (resume 0 s).
    unfold resume. cbn [inflight replica lookup list_lookup].
    by destruct (add_finish clone r) as [[[]|e] r'].
  - change (replicate (S (length (e :: rest))) (Resume 0))
      with (Resume 0 :: replicate (S (length rest)) (Resume 0)).
    rewrite run_cons. cbn [add_loop]. rewrite !bind_run.
    change (step ?s (Resume 0)) with (resume 0 s).
    unfold resume. cbn [inflight replica lookup list_lookup].
    destruct (add_entry e r) as [[[]|e'] r1].
    + unfold continue. cbn [inflight replica outcomes _queue insert list_insert].
      rewrite IH. by rewrite bind_run.
    + by rewrite run_idle.
Qed.

Lemma solo_add entries r :
  run (InvokeAdd entries :: replicate (S (length entries)) (Resume 0)) (boot r)
  = {| replica := (add entries r).2; _queue := []; inflight := [];
       outcomes := [outcome_of (add entries r).1] |}.
Proof.
  rewrite run_cons. unfold step, invoke_add, boot, add. cbn [replica].
  rewrite bind_run. unfold get_graph. destruct (graph r) as [g|].
  - unfold suspend. cbn [inflight replica outcomes _queue app].
    by rewrite run_add_loop.
  - by rewrite run_idle.
Qed.

End WithCollaborators.

Import Examples.
#[local] Existing Instance Examples.collaborators.

(** C8, on the code: no schedule of calls ever puts a job on the replica's
    [_queue], which [add] and [write] bypass.  So two [add]s called one after
    the other are both in flight at once; and [stop], which waits for that
    queue only, goes through while a [write] is half way: the entry's block
    is stored, the Graph is released, the [write] then fails on the Graph it
    no longer finds, and its entry is in no persisted root. *)
Theorem mutations_bypass_the_queue :
  (forall (C : Collaborators) schedule r, _queue (run schedule (boot r)) = []) /\
  mutations_in_flight (run two_adds (boot running)) = 2%nat /\
  (let s := run stop_during_write (boot running) in
   outcomes s = [Resolved; Rejected GraphBeforeStart] /\
   inflight s = [] /\
   isStarted (replica s) = false /\
   graph (replica s) = None /\
   store_get written_cid (blocks (replica s)) = Ok written_cid /\
   root (replica s) = root running /\
   events (replica s) = events running).
Proof.
  split; [|split].
  - intros C schedule r. by rewrite run_queue.
  - vm_compute. reflexivity.
  - cbv zeta. repeat split; vm_compute; reflexivity.
Qed.

(** The same on a batch: the first entry is taken into the Graph, the Graph
    is released by [stop], the second entry's block is stored and the [add]
    fails; no root was persisted for the first. *)
Example stop_during_add_loses_the_batch :
  let s := run stop_during_add (boot running) in
  outcomes s = [Resolved; Rejected GraphBeforeStart] /\
  graph (replica s) = None /\
  store_get [x04] (blocks (replica s)) = Ok [x04] /\
  root (replica s) = root running /\
  events (replica s) = events running.
Proof. cbv zeta. repeat split; vm_compute; reflexivity. Qed.

End TasksFacts.

(** ** The database factory *)

Module WeloFacts.
Import Welo.

Lemma open_begin_ok manifest options w request w1 :
  open_begin manifest options w = (Ok request, w1) ->
  opened w !! manifest_address manifest = None /\
  _opening w !! manifest_address manifest = None /\
  w1 = set_opening (<[manifest_address manifest := request]> (_opening w)) w.
Proof.
  unfold open_begin. rewrite bind_run. unfold gets. cbv beta iota.
  destruct (bool_decide (is_Some (opened w !! _))) eqn:Ho; [done|].
  destruct (bool_decide (is_Some (_opening w !! _))) eqn:Hp; [done|].
  apply bool_decide_eq_false in Ho, Hp.
  apply eq_None_not_Some in Ho. apply eq_None_not_Some in Hp.
  destruct (from_option Some (identity w) _) as [idn|]; [|done].
  destruct (from_option Some (datastore w) _) as [ds|]; [|done].
  rewrite bind_run. unfold getComponents.
  destruct (find_handler _ _); [|done].
  destruct (find_handler _ _); [|done].
  destruct (find_handler _ _); [|done].
  destruct (find_handler _ _); [|done].
  rewrite bind_run. unfold modify, mret, M_ret. by intros [= <- <-].
Qed.




(** While the first call is awaiting [Database.open], a second call for the
    same address is refused. *)
Example open_while_opening :
  let w1 := (open_begin Examples.manifest0 Examples.no_options Examples.factory).2 in
  (open Examples.manifest0 Examples.no_options (Ok tt) w1).1
  = Error AlreadyOpening.
Proof. vm_compute. reflexivity. Qed.

End WeloFacts.


(** ** The component registry *)

Module RegistryFacts.
Import Registry.

Section WithComponents.
Context {T : Type} (type_of : T -> string).

Lemma add_ok_inv (c : T) (s : option bool) (r r' : Register T) :
  add type_of c s r = Ok r' ->
  registered r !! Named (type_of c) = None /\
  registered r' =
    <[Named (type_of c) := c]>
      (if default true s then <[Star := c]> (registered r) else registered r).
Proof.
  unfold add, star_default. intros Hadd.
  destruct (bool_decide _) eqn:Hreg; [done|].
  apply bool_decide_eq_false in Hreg. apply eq_None_not_Some in Hreg.
  by injection Hadd as <-.
Qed.

Lemma add_error_inv (c : T) (s : option bool) (r : Register T) e :
  add type_of c s r = Error e ->
  e = TypeRegistered (type_of c) /\ is_Some (registered r !! Named (type_of c)).
Proof.
  unfold add. destruct (bool_decide _) eqn:Hreg; [|done].
  apply bool_decide_eq_true in Hreg. by intros [= <-].
Qed.

(** X1: a component that [add] accepts is what [get] returns for its type
    from then on, and the answer of [get] for every other type is as it was;
    its type was not registered before. *)
Theorem registry_add_then_get (c : T) (s : option bool) (r r' : Register T) :
  add type_of c s r = Ok r' ->
  get (type_of c) r = Error (TypeNotRegistered (type_of c)) /\
  get (type_of c) r' = Ok c /\
  forall t, t <> type_of c -> get t r' = get t r.
Proof.
  intros Hadd. apply add_ok_inv in Hadd as [Hnone Hreg].
  unfold get. rewrite Hnone, Hreg, lookup_insert_eq.
  split; [done|]. split; [done|]. intros t Ht.
  rewrite lookup_insert_ne by congruence.
  destruct (default true s); [|done]. by rewrite lookup_insert_ne.
Qed.

(** X2: [add] refuses a component whose type is registered, with
    [typeRegistered] of that type, whatever [star] is asked: of two components
    of one type the first stays; and [add] fails in no other way. *)
Theorem registry_add_keeps_first (c1 c2 : T) (s1 s2 : option bool)
    (r r1 : Register T) :
  add type_of c1 s1 r = Ok r1 ->
  type_of c2 = type_of c1 ->
  add type_of c2 s2 r1 = Error (TypeRegistered (type_of c1)) /\
  (forall c s r0 e, add type_of c s r0 = Error e ->
     e = TypeRegistered (type_of c) /\ exists c0, get (type_of c) r0 = Ok c0).
Proof.
  intros Hadd Htype. apply add_ok_inv in Hadd as [_ Hreg]. split.
  - unfold add. rewrite Htype, Hreg, lookup_insert_eq.
    by rewrite bool_decide_eq_true_2.
  - intros c s r0 e He. apply add_error_inv in He as [-> [c0 Hc0]].
    split; [done|]. exists c0. unfold get. by rewrite Hc0.
Qed.

Lemma add_all_star (components : list T) : forall (r r' : Register T) c,
  add_all type_of components r = Ok r' ->
  last components = Some c ->
  star r' = Ok c.
Proof.
  induction components as [|c0 rest IH]; intros r r' c Hall Hlast; [done|].
  simpl in Hall. destruct (add type_of c0 None r) as [r1|e] eqn:Hadd; [|done].
  destruct rest as [|c1 rest].
  - simpl in Hall, Hlast. injection Hall as <-. injection Hlast as <-.
    apply add_ok_inv in Hadd as [_ Hreg]. unfold star. rewrite Hreg. simpl.
    by rewrite lookup_insert_ne, lookup_insert_eq.
  - by apply (IH r1).
Qed.

(** X3: a component added with [star] left out becomes the star, whatever
    the registry holds: after components are added one after the other that
    way, the star is the last one added.  Added with [star] false a component
    leaves the star as it was. *)
Theorem registry_star_is_last_added (components : list T) (r r' : Register T) c :
  add_all type_of components r = Ok r' ->
  last components = Some c ->
  star r' = Ok c /\
  (forall c0 r0 r1, add type_of c0 (Some false) r0 = Ok r1 -> star r1 = star r0).
Proof.
  intros Hall Hlast. split; [by eapply add_all_star|].
  intros c0 r0 r1 Hadd. apply add_ok_inv in Hadd as [_ Hreg].
  unfold star. rewrite Hreg. simpl. by rewrite lookup_insert_ne.
Qed.

(** X4: [alias] of a registered type succeeds, also over a name already
    taken, which it replaces: the alias then answers as the type does, as a
    name with [get] or as the star, and the other registrations are as they
    were.  [alias] of a type that is not registered fails with
    [typeNotRegistered] of that type. *)
Theorem registry_alias (type : string) (a : Key) (r : Register T) :
  match get type r with
  | Ok c =>
      exists r', alias type a r = Ok r' /\
        registered r' !! a = Some c /\
        (forall name, a = Named name -> get name r' = Ok c) /\
        (a = Star -> star r' = Ok c) /\
        (forall k, k <> a -> registered r' !! k = registered r !! k)
  | Error e =>
      e = TypeNotRegistered type /\ alias type a r = Error (TypeNotRegistered type)
  end.
Proof.
  unfold get, alias, star.
  destruct (registered r !! Named type) as [c|] eqn:Hc; [|done].
  eexists. split; [done|]. simpl. rewrite lookup_insert_eq.
  split; [done|]. split; [|split].
  - intros name ->. by rewrite lookup_insert_eq.
  - intros ->. by rewrite lookup_insert_eq.
  - intros k Hk. by rewrite lookup_insert_ne.
Qed.

End WithComponents.

Lemma registry_add_then_get_witness :
  add Scenarios.type Scenarios.keyvalue None new = Ok Scenarios.stores /\
  get "keyvalue" Scenarios.stores = Ok Scenarios.keyvalue /\
  get "feed" Scenarios.stores = get "feed" new.
Proof.
  assert (Hadd : add Scenarios.type Scenarios.keyvalue None new
                 = Ok Scenarios.stores) by (vm_compute; reflexivity).
  split; [exact Hadd|].
  destruct (registry_add_then_get Scenarios.type Scenarios.keyvalue None
              new Scenarios.stores Hadd) as (_ & Hget & Hother).
  split; [exact Hget|]. apply Hother. discriminate.
Defined.

Lemma registry_add_keeps_first_witness :
  add Scenarios.type Scenarios.keyvalue None new = Ok Scenarios.stores /\
  add Scenarios.type Scenarios.keyvalue' (Some true) Scenarios.stores
    = Error (TypeRegistered "keyvalue").
Proof.
  assert (Hadd : add Scenarios.type Scenarios.keyvalue None new
                 = Ok Scenarios.stores) by (vm_compute; reflexivity).
  split; [exact Hadd|].
  exact (proj1 (registry_add_keeps_first Scenarios.type
                  Scenarios.keyvalue Scenarios.keyvalue' None (Some true)
                  new Scenarios.stores Hadd eq_refl)).
Defined.

Lemma registry_star_is_last_added_witness :
  add_all Scenarios.type [Scenarios.keyvalue; Scenarios.feed] new
    = Ok Scenarios.stores' /\
  star Scenarios.stores' = Ok Scenarios.feed.
Proof.
  assert (Hall : add_all Scenarios.type [Scenarios.keyvalue; Scenarios.feed] new
                 = Ok Scenarios.stores') by (vm_compute; reflexivity).
  split; [exact Hall|].
  exact (proj1 (registry_star_is_last_added Scenarios.type
                  [Scenarios.keyvalue; Scenarios.feed] new Scenarios.stores'
                  Scenarios.feed Hall eq_refl)).
Defined.

End RegistryFacts.

(** ** The pubsub monitor *)

Module MonitorFacts.
Import Monitor.

Lemma set_add_fold (l : list string) : forall s,
  (NoDup s -> NoDup (foldl (fun s x => set_add x s) s l)) /\
  (forall x, x ∈ foldl (fun s x => set_add x s) s l <-> x ∈ s \/ x ∈ l).
Proof.
  induction l as [|y l IH]; intros s; simpl.
  - split; [done|]. intros x. rewrite elem_of_nil. tauto.
  - destruct (IH (set_add y s)) as [Hnd Hin]. split.
    + intros Hs. apply Hnd. unfold set_add. case_bool_decide; [done|].
      apply NoDup_app. split; [done|]. split; [|apply NoDup_singleton].
      intros x Hx ->%list_elem_of_singleton. done.
    + intros x. rewrite Hin, elem_of_cons. unfold set_add.
      case_bool_decide as Hy.
      * split; [tauto|]. intros [?|[->|?]]; auto.
      * rewrite elem_of_app, list_elem_of_singleton. tauto.
Qed.

Lemma set_of_NoDup (l : list string) : NoDup (set_of l).
Proof. apply set_add_fold, NoDup_nil_2. Qed.

Lemma elem_of_set_of (l : list string) x : x ∈ set_of l <-> x ∈ l.
Proof.
  unfold set_of. rewrite (proj2 (set_add_fold l [])), elem_of_nil. tauto.
Qed.

Lemma join_loop (c l : list string) : forall m,
  foldl (fun m peer =>
           if negb (bool_decide (peer ∈ c)) then emit (PeerJoin peer) m else m)
        m l
  = set_emitted
      (emitted m ++ announce (PeerJoin <$> filter (fun p => p ∉ c) l)) m.
Proof.
  induction l as [|p l IH]; intros m; simpl.
  - unfold announce. simpl. rewrite app_nil_r. by destruct m.
  - rewrite IH. rewrite filter_cons. case_bool_decide as Hp.
    + rewrite decide_False by tauto. done.
    + rewrite decide_True by done. unfold announce, emit, set_emitted. simpl.
      by rewrite <- !app_assoc.
Qed.

Lemma leave_loop (c : list string) : forall m,
  foldl (fun m peer =>
           if negb (bool_decide (peer ∈ peers m)) then emit (PeerLeave peer) m
           else m)
        m c
  = set_emitted
      (emitted m ++ announce (PeerLeave <$> filter (fun p => p ∉ peers m) c)) m.
Proof.
  induction c as [|p c IH]; intros m; simpl.
  - unfold announce. simpl. rewrite app_nil_r. by destruct m.
  - rewrite IH. rewrite filter_cons. case_bool_decide as Hp.
    + rewrite decide_False by tauto. done.
    + rewrite decide_True by done. unfold announce, emit, set_emitted. simpl.
      by rewrite <- !app_assoc.
Qed.

Lemma poll_resume_started (c answer : list string) (m : Monitor) :
  isStarted m = true ->
  poll_resume c answer m
  = set_emitted
      (emitted m ++
       announce ((PeerJoin <$> filter (fun p => p ∉ c) (set_of answer)) ++
                 (PeerLeave <$> filter (fun p => p ∉ set_of answer) c)))
      (set_peers (set_of answer) m).
Proof.
  intros Hs. unfold poll_resume. rewrite Hs. simpl.
  rewrite join_loop, leave_loop. unfold announce, set_emitted, set_peers. simpl.
  by rewrite bind_app, <- app_assoc.
Qed.

Lemma count_member (p : string) (l : list string) :
  (p ∉ l -> filter (fun q => q = p) l = []) /\
  (NoDup l -> p ∈ l -> length (filter (fun q => q = p) l) = 1%nat).
Proof.
  induction l as [|q l [IH0 IH1]]; simpl.
  - split; [done|]. by intros _ ?%elem_of_nil.
  - rewrite filter_cons. split.
    + intros Hp. apply not_elem_of_cons in Hp as [Hne Hp].
      rewrite decide_False by done. auto.
    + intros [Hq Hnd]%NoDup_cons [->|Hp]%elem_of_cons.
      * rewrite decide_True by done. simpl. by rewrite IH0.
      * rewrite decide_False by (intros ->; done). auto.
Qed.

Lemma count_NoDup (p : string) (l : list string) :
  NoDup l ->
  length (filter (fun q => q = p) l) = if bool_decide (p ∈ l) then 1%nat else 0%nat.
Proof.
  intros Hnd. case_bool_decide as Hp.
  - by apply count_member.
  - by rewrite (proj1 (count_member p l) Hp).
Qed.

Lemma joins_app p l k : joins p (l ++ k) = (joins p l + joins p k)%nat.
Proof. unfold joins. by rewrite filter_app, length_app. Qed.

Lemma leaves_app p l k : leaves p (l ++ k) = (leaves p l + leaves p k)%nat.
Proof. unfold leaves. by rewrite filter_app, length_app. Qed.

Lemma joins_announce p (js ls : list string) :
  joins p (announce ((PeerJoin <$> js) ++ (PeerLeave <$> ls)))
  = length (filter (fun q => q = p) js).
Proof.
  unfold joins, announce. rewrite bind_app, filter_app, length_app.
  replace (filter _ ((PeerLeave <$> ls) ≫= _)) with (@nil Emitted).
  2:{ induction ls as [|q ls IH]; [done|]. simpl.
      rewrite !filter_cons. by rewrite !decide_False by done. }
  simpl. rewrite Nat.add_0_r.
  induction js as [|q js IH]; [done|]. rewrite fmap_cons, bind_cons.
  cbn [app]. rewrite !filter_cons.
  rewrite (decide_False (P := Update = _)) by done.
  destruct (decide (q = p)) as [->|Hne].
  - rewrite decide_True by done. simpl. by rewrite IH.
  - rewrite decide_False by congruence. done.
Qed.

Lemma leaves_announce p (js ls : list string) :
  leaves p (announce ((PeerJoin <$> js) ++ (PeerLeave <$> ls)))
  = length (filter (fun q => q = p) ls).
Proof.
  unfold leaves, announce. rewrite bind_app, filter_app, length_app.
  replace (filter _ ((PeerJoin <$> js) ≫= _)) with (@nil Emitted).
  2:{ induction js as [|q js IH]; [done|]. simpl.
      rewrite !filter_cons. by rewrite !decide_False by done. }
  simpl.
  induction ls as [|q ls IH]; [done|]. rewrite fmap_cons, bind_cons.
  cbn [app]. rewrite !filter_cons.
  rewrite (decide_False (P := Update = _)) by done.
  destruct (decide (q = p)) as [->|Hne].
  - rewrite decide_True by done. simpl. by rewrite IH.
  - rewrite decide_False by congruence. done.
Qed.

Lemma filter_filter_eq (P : string -> Prop) `{!forall x, Decision (P x)}
    (p : string) (l : list string) :
  filter (fun q => q = p) (filter P l)
  = if decide (P p) then filter (fun q => q = p) l else [].
Proof.
  induction l as [|q l IH]; simpl.
  - by destruct (decide (P p)).
  - rewrite !filter_cons. destruct (decide (P q)) as [Hq|Hq].
    + rewrite filter_cons. destruct (decide (q = p)) as [->|Hne].
      * rewrite decide_True by done. by rewrite IH, decide_True by done.
      * rewrite IH. done.
    + rewrite IH. destruct (decide (q = p)) as [->|Hne]; [|done].
      by rewrite !decide_False by done.
Qed.

(** What a poll adds to the count of [peer-join] and [peer-leave] of a peer. *)
Lemma poll_resume_joins (c answer : list string) (m : Monitor) p :
  isStarted m = true ->
  joins p (emitted (poll_resume c answer m))
  = (joins p (emitted m)
     + if bool_decide (p ∈ answer /\ p ∉ c) then 1 else 0)%nat.
Proof.
  intros Hs. rewrite poll_resume_started by done. simpl.
  rewrite joins_app, joins_announce, filter_filter_eq. f_equal.
  destruct (decide (p ∉ c)) as [Hc|Hc].
  - rewrite count_NoDup by apply set_of_NoDup.
    pose proof (elem_of_set_of answer p).
    repeat case_bool_decide; try done; tauto.
  - rewrite bool_decide_eq_false_2 by tauto. done.
Qed.

Lemma poll_resume_leaves (c answer : list string) (m : Monitor) p :
  isStarted m = true -> NoDup c ->
  leaves p (emitted (poll_resume c answer m))
  = (leaves p (emitted m)
     + if bool_decide (p ∈ c /\ p ∉ answer) then 1 else 0)%nat.
Proof.
  intros Hs Hnd. rewrite poll_resume_started by done. simpl.
  rewrite leaves_app, leaves_announce, filter_filter_eq. f_equal.
  destruct (decide (p ∉ set_of answer)) as [Ha|Ha].
  - rewrite count_NoDup by done.
    rewrite elem_of_set_of in Ha.
    repeat case_bool_decide; try done; tauto.
  - rewrite elem_of_set_of in Ha. rewrite bool_decide_eq_false_2 by tauto. done.
Qed.

Lemma poll_resume_leaves_absent (c answer : list string) (m : Monitor) p :
  isStarted m = true -> p ∉ c ->
  leaves p (emitted (poll_resume c answer m)) = leaves p (emitted m).
Proof.
  intros Hs Hp. rewrite poll_resume_started by done. simpl.
  rewrite leaves_app, leaves_announce, filter_filter_eq.
  destruct (decide _); simpl; [|lia].
  rewrite (proj1 (count_member p c) Hp). simpl. lia.
Qed.

Lemma poll_resume_peers (c answer : list string) (m : Monitor) :
  isStarted m = true -> peers (poll_resume c answer m) = set_of answer.
Proof. intros Hs. by rewrite poll_resume_started. Qed.

Lemma poll_resume_isStarted (c answer : list string) (m : Monitor) :
  isStarted (poll_resume c answer m) = isStarted m.
Proof.
  destruct (isStarted m) eqn:Hs.
  - by rewrite poll_resume_started.
  - unfold poll_resume. by rewrite Hs.
Qed.

(** X5: a poll that resumes on a started monitor makes the peers of the
    answer, each once, the peers of the monitor, and emits [peer-join] once
    for each peer of the answer that was not in the set read before the query,
    then [peer-leave] for each peer of that set that is not in the answer, each
    followed by [update]; peers in both are not announced. *)
Theorem poll_announces_the_difference (_peers answer : list string) (m : Monitor) :
  isStarted m = true ->
  let m' := poll_resume _peers answer m in
  exists js ls,
    emitted m' = emitted m ++ announce ((PeerJoin <$> js) ++ (PeerLeave <$> ls)) /\
    NoDup js /\
    (forall p, p ∈ js <-> p ∈ answer /\ p ∉ _peers) /\
    (forall p, p ∈ ls <-> p ∈ _peers /\ p ∉ answer) /\
    NoDup (peers m') /\
    (forall p, p ∈ peers m' <-> p ∈ answer) /\
    isStarted m' = true.
Proof.
  intros Hs m'. subst m'. rewrite poll_resume_started by done. simpl.
  eexists _, _. split; [reflexivity|].
  split; [apply NoDup_filter, set_of_NoDup|].
  split; [intros p; rewrite list_elem_of_filter, elem_of_set_of; tauto|].
  split; [intros p; rewrite list_elem_of_filter, elem_of_set_of; tauto|].
  split; [apply set_of_NoDup|].
  split; [apply elem_of_set_of|done].
Qed.

Lemma delete_insert_same {A} (l : list A) : forall i x,
  delete i (<[i:=x]> l) = delete i l.
Proof.
  induction l as [|y l IH]; intros [|i] x; simpl; try done.
  f_equal. apply IH.
Qed.

(** X6: once the monitor is stopped, a poll that was waiting for its answer
    changes neither the peers nor what was emitted when the answer arrives,
    whatever the answer, and sets no timeout: that turn of [refresh] is over. *)
Theorem stopped_poll_ends_the_loop (s : Loop) (i : nat) (c answer : list string) :
  isStarted (monitor s) = false ->
  pending s !! i = Some (Polling c) ->
  run [Answer i answer; Then i] s
  = {| monitor := monitor s; pending := delete i (pending s) |}.
Proof.
  intros Hs Hi. unfold run. simpl. rewrite Hi. simpl.
  rewrite list_lookup_insert_eq by (by eapply lookup_lt_Some).
  unfold poll_resume. rewrite Hs. simpl. rewrite Hs.
  by rewrite delete_insert_same.
Qed.

Lemma idle_loop (actions : list Action) (s : Loop) :
  pending s = [] ->
  isStarted (monitor s) = true ->
  Forall (fun a => a <> Stop) actions ->
  run actions s = s.
Proof.
  intros Hp Hs Hall. unfold run.
  induction Hall as [|a actions Ha _ IH]; [done|]. simpl.
  replace (step a s) with s; [done|].
  destruct a; simpl; rewrite ?Hp; try done.
  unfold start. by rewrite Hs.
Qed.

(** X7: when the query of the only turn of [refresh] fails, no turn is left
    and none comes back: the monitor still answers that it is started, so
    [start] does nothing, and until it is stopped nothing changes its peers
    or is emitted. *)
Theorem failed_query_ends_polling (s : Loop) (c : list string)
    (actions : list Action) :
  isStarted (monitor s) = true ->
  pending s = [Polling c] ->
  Forall (fun a => a <> Stop) actions ->
  run (Reject 0 :: actions) s = {| monitor := monitor s; pending := [] |}.
Proof.
  intros Hs Hp Hall. unfold run. simpl. rewrite Hp. simpl.
  by apply idle_loop.
Qed.

(** X8: [stop] cancels no turn of [refresh] and [start] begins a new one: a
    monitor stopped and started again while a poll waits for its answer runs
    two polls, both from the peers read before the answers, and a peer that
    is new in both answers is announced as joining twice and as leaving not
    at all. *)
Theorem restart_doubles_the_loop (s : Loop) (c : list string) (p : string) :
  isStarted (monitor s) = true ->
  pending s = [Polling c] ->
  p ∉ c -> p ∉ peers (monitor s) ->
  let s' := run [Stop; Start; Answer 0 [p]; Answer 1 [p]] s in
  joins p (emitted (monitor s')) = (joins p (emitted (monitor s)) + 2)%nat /\
  leaves p (emitted (monitor s')) = leaves p (emitted (monitor s)) /\
  peers (monitor s') = [p] /\
  pending s' = [Returned; Returned].
Proof.
  intros Hs Hp Hc Hm. unfold run. simpl.
  unfold stop. rewrite Hs. simpl. unfold start. simpl. rewrite Hp. simpl.
  set (m0 := set_isStarted true (set_isStarted false (monitor s))).
  assert (Hs0 : isStarted m0 = true) by done.
  set (m1 := poll_resume c [p] m0).
  assert (Hs1 : isStarted m1 = true) by (subst m1; by rewrite poll_resume_isStarted).
  split; [|split; [|split; [|done]]].
  - rewrite poll_resume_joins by done. subst m1. rewrite poll_resume_joins by done.
    rewrite !bool_decide_eq_true_2; [simpl; lia| |];
      (split; [apply list_elem_of_singleton; done|done]).
  - rewrite poll_resume_leaves_absent by done. subst m1.
    by rewrite poll_resume_leaves_absent by done.
  - by rewrite poll_resume_peers.
Qed.

(** What holds between the steps of one turn of [refresh]: the peers are
    each there once, the ledger balances, and a poll that waits for its answer
    has read the peers of the monitor. *)
Lemma step_keeps_ledger (a : Action) (s : Loop) :
  (length (pending s) <= 1)%nat ->
  NoDup (peers (monitor s)) ->
  ledger (monitor s) ->
  Forall (fun t => forall c, t = Polling c -> c = peers (monitor s)) (pending s) ->
  NoDup (peers (monitor (step a s))) /\
  ledger (monitor (step a s)) /\
  Forall (fun t => forall c, t = Polling c -> c = peers (monitor (step a s)))
         (pending (step a s)).
Proof.
  intros Hlen Hnd Hled Hall.
  destruct a as [| |i answer|i|i|i]; simpl.
  - unfold start. destruct (isStarted (monitor s)) eqn:Hs; [done|]. simpl.
    split; [done|]. split; [done|].
    apply Forall_app. split; [done|]. apply Forall_singleton. (intros ? ?; by simplify_eq/=).
  - unfold stop. by destruct (isStarted (monitor s)).
  - destruct (pending s !! i) as [[c| |]|] eqn:Hi; try done. simpl.
    assert (Hc : c = peers (monitor s)).
    { eapply Forall_lookup_1 in Hall; [|done]. by apply Hall. }
    assert (Hone : <[i:=Returned]> (pending s) = [Returned]).
    { destruct (pending s) as [|t [|t' l]]; [done| |simpl in Hlen; lia].
      by destruct i. }
    rewrite Hone.
    destruct (isStarted (monitor s)) eqn:Hs.
    + split; [rewrite poll_resume_peers by done; apply set_of_NoDup|].
      split; [|apply Forall_singleton; (intros ? ?; by simplify_eq/=)].
      intros p. rewrite poll_resume_joins, poll_resume_leaves by (done || by subst c).
      rewrite poll_resume_peers by done. rewrite (Hled p). subst c.
      pose proof (elem_of_set_of answer p).
      repeat case_bool_decide; try lia; tauto.
    + unfold poll_resume. rewrite Hs. simpl.
      split; [done|]. split; [done|]. apply Forall_singleton. (intros ? ?; by simplify_eq/=).
  - destruct (pending s !! i) as [[c| |]|]; try done. simpl.
    split; [done|]. split; [done|]. by apply Forall_delete.
  - destruct (pending s !! i) as [[c| |]|]; try done.
    destruct (isStarted (monitor s)); simpl.
    + split; [done|]. split; [done|]. apply Forall_insert; [done|(intros ? ?; by simplify_eq/=)].
    + split; [done|]. split; [done|]. by apply Forall_delete.
  - destruct (pending s !! i) as [[c| |]|]; try done. simpl.
    split; [done|]. split; [done|]. apply Forall_insert; [done|(intros ? ?; by simplify_eq/=)].
Qed.

(** X9: as long as one turn of [refresh] at most is under way, whatever is
    answered, fails or is called, the peers of the monitor are the peers that
    were announced as joining once more than as leaving, and the others were
    announced as leaving as often as joining. *)
Theorem one_loop_keeps_the_ledger (actions : list Action) (topic : string)
    (interval : option N) :
  one_loop actions (boot topic interval) = true ->
  let m := monitor (run actions (boot topic interval)) in
  NoDup (peers m) /\
  forall p, joins p (emitted m)
            = (leaves p (emitted m) + if bool_decide (p ∈ peers m) then 1 else 0)%nat.
Proof.
  intros Hone m. subst m.
  assert (Hgen : forall s,
    one_loop actions s = true ->
    NoDup (peers (monitor s)) -> ledger (monitor s) ->
    Forall (fun t => forall c, t = Polling c -> c = peers (monitor s)) (pending s) ->
    NoDup (peers (monitor (run actions s))) /\ ledger (monitor (run actions s))).
  { clear Hone. induction actions as [|a actions IH]; intros s Hone Hnd Hled Hall.
    - done.
    - simpl in Hone. apply andb_true_iff in Hone as [Hlen Hone].
      apply bool_decide_eq_true in Hlen.
      destruct (step_keeps_ledger a s Hlen Hnd Hled Hall) as (? & ? & ?).
      unfold run. simpl. by apply IH. }
  apply Hgen; [done|apply NoDup_nil_2| |apply Forall_nil_2].
  intros p. done.
Qed.

Lemma poll_announces_the_difference_witness :
  isStarted Scenarios.watching = true /\
  let m' := poll_resume ["a"; "b"]%string ["b"; "c"; "c"]%string Scenarios.watching in
  NoDup (peers m') /\ (forall p, p ∈ peers m' <-> p ∈ ["b"; "c"; "c"]%string).
Proof.
  split; [reflexivity|].
  destruct (poll_announces_the_difference ["a"; "b"]%string
              ["b"; "c"; "c"]%string Scenarios.watching eq_refl)
    as (js & ls & _ & _ & _ & _ & Hnd & Hin & _).
  split; [exact Hnd|exact Hin].
Defined.

Lemma stopped_poll_ends_the_loop_witness :
  isStarted (monitor Scenarios.asleep) = false /\
  run [Answer 0 ["c"]%string; Then 0] Scenarios.asleep
  = {| monitor := monitor Scenarios.asleep; pending := [] |}.
Proof.
  split; [reflexivity|].
  exact (stopped_poll_ends_the_loop Scenarios.asleep 0 ["a"; "b"]%string
           ["c"]%string eq_refl eq_refl).
Defined.

Lemma failed_query_ends_polling_witness :
  isStarted (monitor Scenarios.polling) = true /\
  run [Reject 0; Start; Fire 0; Answer 0 ["c"]%string; Then 0] Scenarios.polling
  = {| monitor := monitor Scenarios.polling; pending := [] |}.
Proof.
  split; [reflexivity|].
  apply (failed_query_ends_polling Scenarios.polling ["a"; "b"]%string
           [Start; Fire 0; Answer 0 ["c"]%string; Then 0] eq_refl eq_refl).
  repeat constructor; discriminate.
Defined.

Lemma restart_doubles_the_loop_witness :
  isStarted (monitor Scenarios.polling) = true /\
  joins "c" (emitted (monitor
     (run [Stop; Start; Answer 0 ["c"]%string; Answer 1 ["c"]%string]
          Scenarios.polling))) = 2%nat.
Proof.
  split; [reflexivity|].
  refine (proj1 (restart_doubles_the_loop Scenarios.polling ["a"; "b"]%string
                   "c" eq_refl eq_refl _ _));
    intros Hin; by repeat (apply elem_of_cons in Hin as [Hin|Hin];
                            [discriminate Hin|]); apply elem_of_nil in Hin.
Defined.

Lemma one_loop_keeps_the_ledger_witness :
  one_loop Scenarios.two_polls (boot "heads" None) = true /\
  joins "a" (emitted (monitor (run Scenarios.two_polls (boot "heads" None))))
  = leaves "a" (emitted (monitor (run Scenarios.two_polls (boot "heads" None)))) /\
  "a"%string ∉ peers (monitor (run Scenarios.two_polls (boot "heads" None))).
Proof.
  assert (Hone : one_loop Scenarios.two_polls (boot "heads" None) = true)
    by (vm_compute; reflexivity).
  split; [exact Hone|].
  destruct (one_loop_keeps_the_ledger Scenarios.two_polls "heads" None Hone)
    as [_ Hledger].
  specialize (Hledger "a"%string).
  assert (Hgone : "a"%string ∉ peers (monitor (run Scenarios.two_polls
                                                 (boot "heads" None)))).
  { vm_compute. intros Hin.
    by repeat (apply elem_of_cons in Hin as [Hin|Hin]; [discriminate Hin|]);
      apply elem_of_nil in Hin. }
  split; [|exact Hgone].
  rewrite Hledger, bool_decide_eq_false_2 by exact Hgone. lia.
Defined.

End MonitorFacts.

(** ** The replica: the guard of [add] and the persisted root *)

Module ReplicaRootFacts.
Import Replica.

Section WithCollaborators.
Context `{Collaborators}.

Ltac unfold_steps :=
  unfold mbind, M_bind, mret, M_ret, gets, modify, throw, lift,
    dispatchEvent, console_warn, get_graph, blocks_put, setRoot, store_put in *.

Lemma add_entry_isStarted b entry r :
  add_entry entry (set_isStarted b r)
  = ((add_entry entry r).1, set_isStarted b (add_entry entry r).2).
Proof.
  unfold add_entry. unfold_steps. destruct r as [? [? []] ? ? ? [] ? ? ? ?]; simpl;
    destruct (decide _); try done; by destruct (access_canAppend entry).
Qed.

Lemma add_loop_isStarted b entries : forall r,
  add_loop entries (set_isStarted b r)
  = ((add_loop entries r).1, set_isStarted b (add_loop entries r).2).
Proof.
  induction entries as [|e es IH]; intros r; [done|].
  simpl. rewrite !bind_run, add_entry_isStarted.
  destruct (add_entry e r) as [[[]|err] r1]; [|done]. simpl. apply IH.
Qed.

Lemma updateRoot_isStarted b r :
  updateRoot (set_isStarted b r)
  = ((updateRoot r).1, set_isStarted b (updateRoot r).2).
Proof.
  unfold updateRoot. unfold_steps.
  by destruct r as [? ? ? [? []] [? []] [] ? ? ? ?].
Qed.

Lemma add_unfold entries r :
  add entries r =
  match graph r with
  | None => (Error GraphBeforeStart, r)
  | Some g =>
      match add_loop entries r with
      | (Ok _, r1) =>
          match graph r1 with
          | Some g1 => if graph_equals g1 g then (Ok tt, r1) else updateRoot r1
          | None => (Error GraphBeforeStart, r1)
          end
      | (Error e, r1) => (Error e, r1)
      end
  end.
Proof.
  unfold add, add_finish, graph_clone. rewrite bind_run. unfold get_graph at 1.
  destruct (graph r) as [g|]; [|done]. rewrite bind_run.
  destruct (add_loop entries r) as [[[]|e] r1]; [|done].
  rewrite bind_run. unfold get_graph. destruct (graph r1) as [g1|]; [|done].
  by destruct (graph_equals g1 g).
Qed.

(** X10: [add] does not ask whether the replica is started.  On a replica
    with no Graph it throws what the [graph] getter throws, when it takes its
    snapshot, and changes nothing; on any replica it does the same whatever
    [isStarted] answers: the same result, and the same replica but for
    [_isStarted], which it leaves as it finds it. *)
Theorem add_guard_is_the_graph r entries b :
  (graph r = None -> add entries r = (Error GraphBeforeStart, r)) /\
  add entries (set_isStarted b r)
  = ((add entries r).1, set_isStarted b (add entries r).2) /\
  _isStarted (add entries r).2 = _isStarted r.
Proof.
  split; [|split].
  - intros Hnone. by rewrite add_unfold, Hnone.
  - rewrite !add_unfold. simpl.
    destruct (graph r) as [g|] eqn:Hg; [|done].
    rewrite add_loop_isStarted.
    destruct (add_loop entries r) as [[[]|err] r1]; [|done]. simpl.
    destruct (graph r1) as [g1|]; [|done].
    destruct (graph_equals g1 g); [done|]. apply updateRoot_isStarted.
  - destruct (add entries r) as [res r'] eqn:Hadd. simpl.
    by apply ReplicaFacts.add_keeps in Hadd as [? _].
Qed.

(** X11: the root that [updateRoot] persists is the root that [getRoot]
    reads back, when the block decodes: a replica stopped and started again
    after it builds its Graph from the value of that block and, once the Graph
    has started, takes its cid as [root], and writes and dispatches nothing.
    When starting the Graph rejects, [starting] rejects with that error, with
    the Graph assigned and [root] as it was. *)
Theorem persisted_root_is_loaded_back r r' g block :
  graph r = Some g ->
  updateRoot r = (Ok tt, r') ->
  Blocks_decode (root_bytes (Blocks_encode (graph_root g))) = Ok block ->
  getRoot (datastore r') (blockstore r') = Ok block /\
  match graph_start (graph_new (Some (root_value block))) (blockstore r') with
  | Ok _ =>
      exists r'', starting (stopping r').2 = (Ok tt, r'') /\
        graph r'' = Some (graph_new (Some (root_value block))) /\
        root r'' = Some (root_cid block) /\
        events r'' = events r' /\
        datastore r'' = datastore r' /\ blockstore r'' = blockstore r'
  | Error e =>
      exists r'', starting (stopping r').2 = (Error e, r'') /\
        graph r'' = Some (graph_new (Some (root_value block))) /\
        root r'' = root r' /\
        events r'' = events r' /\
        datastore r'' = datastore r' /\ blockstore r'' = blockstore r'
  end.
Proof.
  intros Hg Hup Hdec.
  apply ReplicaFacts.updateRoot_ok in Hup
    as (g' & Hg' & _ & _ & Hptr & Hblk & _).
  assert (g' = g) as -> by congruence.
  assert (Hget : getRoot (datastore r') (blockstore r') = Ok block).
  { unfold getRoot. by rewrite Hptr, Hblk, Hdec. }
  split; [done|].
  unfold stopping, modify, starting. simpl. rewrite Hget. simpl.
  destruct (graph_start _ _) as [[]|e]; eexists; (split; [reflexivity|done]).
Qed.

(** X12: [setRoot] issues both puts whatever becomes of the other, and
    [updateRoot] succeeds when both do.  When the pointer is written and the
    root block is not, [updateRoot] throws with [root] and the events as they
    were, while the datastore now points at a block that the blockstore does
    not hold: the root cannot be read any more, and a replica that starts from
    these stores builds an empty Graph. *)
Theorem half_written_root_dangles r g :
  graph r = Some g ->
  let block := Blocks_encode (graph_root g) in
  datastore (updateRoot r).2
    = (store_put rootHashKey (root_cid block) (datastore r)).2 /\
  blockstore (updateRoot r).2
    = (store_put (root_cid block) (root_bytes block) (blockstore r)).2 /\
  (is_ok (updateRoot r).1 = writable (datastore r) && writable (blockstore r)) /\
  (writable (datastore r) = true -> writable (blockstore r) = false ->
   cells (blockstore r) !! root_cid block = None ->
   exists r', updateRoot r = (Error FailedToGetRoot, r') /\
     root r' = root r /\ events r' = events r /\
     store_get rootHashKey (datastore r') = Ok (root_cid block) /\
     getRoot (datastore r') (blockstore r') = Error FailedToGetRoot /\
     graph (starting r').2 = Some (graph_new None)).
Proof.
  intros Hg block.
  assert (Hrun : updateRoot r =
    let bs := store_put (root_cid block) (root_bytes block) (blockstore r) in
    let ds := store_put rootHashKey (root_cid block) (datastore r) in
    if is_ok bs.1 && is_ok ds.1
    then (Ok tt, set_events (events r ++ [EvUpdate])
                   (set_root (Some (root_cid block)) (set_stores ds.2 bs.2 r)))
    else (Error FailedToGetRoot, set_stores ds.2 bs.2 r)).
  { unfold updateRoot. unfold_steps. rewrite Hg. subst block. simpl.
    by destruct (writable (blockstore r)), (writable (datastore r)). }
  rewrite Hrun. cbv zeta.
  split; [|split; [|split]].
  - by destruct (is_ok _ && is_ok _).
  - by destruct (is_ok _ && is_ok _).
  - unfold store_put.
    by destruct (writable (blockstore r)), (writable (datastore r)).
  - intros Hd Hb Hnone. unfold store_put. rewrite Hd, Hb. simpl.
    eexists. split; [reflexivity|]. simpl.
    assert (Hget : getRoot
              {| cells := <[rootHashKey:=Readable (root_cid block)]>
                            (cells (datastore r)); writable := true |}
              (blockstore r) = Error FailedToGetRoot).
    { unfold getRoot, store_get. simpl. rewrite lookup_insert_eq.
      fold block. by rewrite Hnone. }
    split; [done|]. split; [done|].
    split; [unfold store_get; simpl; by rewrite lookup_insert_eq|].
    split; [done|].
    unfold starting. simpl. rewrite Hget. simpl.
    destruct (graph_start _ _) as [[]|e0]; [|done].
    unfold updateRoot. unfold_steps. simpl. rewrite Hb. done.
Qed.

End WithCollaborators.

#[local] Existing Instance Examples.collaborators.

Lemma persisted_root_is_loaded_back_witness :
  let r' := (updateRoot Examples.running).2 in
  updateRoot Examples.running = (Ok tt, r') /\
  getRoot (datastore r') (blockstore r')
    = Ok (Examples.root_block SpecGraph.empty) /\
  exists r'', starting (stopping r').2 = (Ok tt, r'') /\
    graph r'' = Some SpecGraph.empty /\ events r'' = events r'.
Proof.
  intros r'.
  assert (Hok : is_ok (updateRoot Examples.running).1 = true)
    by (vm_compute; reflexivity).
  assert (Hup : updateRoot Examples.running = (Ok tt, r')).
  { subst r'. destruct (updateRoot Examples.running) as [[[]|e] r1];
      [reflexivity|discriminate Hok]. }
  assert (Hg : graph Examples.running = Some SpecGraph.empty) by reflexivity.
  assert (Hdec : Blocks_decode
                   (root_bytes (Blocks_encode (graph_root SpecGraph.empty)))
                 = Ok (Examples.root_block SpecGraph.empty)) by reflexivity.
  destruct (persisted_root_is_loaded_back Examples.running r'
              SpecGraph.empty _ Hg Hup Hdec) as [Hget Hrestart].
  split; [exact Hup|]. split; [exact Hget|].
  match type of Hrestart with
  | match ?started with _ => _ end =>
      assert (Hs : started = Ok tt) by (vm_compute; reflexivity);
      rewrite Hs in Hrestart
  end.
  destruct Hrestart as (r'' & Hrun & Hgraph & _ & Hev & _).
  exists r''. split; [exact Hrun|]. split; [exact Hgraph|exact Hev].
Defined.

Lemma half_written_root_dangles_witness :
  graph Scenarios.unsaved = Some (SpecGraph.add [x01] [] SpecGraph.empty) /\
  exists r', updateRoot Scenarios.unsaved = (Error FailedToGetRoot, r') /\
    getRoot (datastore r') (blockstore r') = Error FailedToGetRoot /\
    graph (starting r').2 = Some SpecGraph.empty.
Proof.
  assert (Hg : graph Scenarios.unsaved
               = Some (SpecGraph.add [x01] [] SpecGraph.empty)) by reflexivity.
  split; [exact Hg|].
  destruct (half_written_root_dangles Scenarios.unsaved _ Hg)
    as (_ & _ & _ & Hdangle).
  destruct Hdangle as (r' & Hup & _ & _ & _ & Hget & Hstart);
    [reflexivity|reflexivity|vm_compute; reflexivity|].
  exists r'. split; [exact Hup|]. split; [exact Hget|exact Hstart].
Defined.

End ReplicaRootFacts.

(** ** The static access controller: starting *)

Module AccessStartFacts.
Import AccessStatic.

Section WithMultibase.
Context `{Multibase}.

Lemma call_config c a : config (call c a) = config a.
Proof.
  destruct c; simpl; try done.
  - unfold start. destruct (isStarted a); [done|].
    by destruct (write_array (config a)) as [[|]|].
  - unfold stop. by destruct (negb (isStarted a)).
Qed.

Lemma call_started c a :
  isStarted (call c a) = true ->
  isStarted a = true \/ exists w ws, write_array (config a) = Some (w :: ws).
Proof.
  destruct c; simpl; auto.
  - unfold start. destruct (isStarted a) eqn:Hs; [auto|].
    destruct (write_array (config a)) as [[|w ws]|]; simpl; eauto; congruence.
  - unfold stop, isStarted. destruct (_isStarted a) eqn:Hs; simpl; [done|].
    rewrite Hs. done.
Qed.

Lemma calls_started cs : forall a,
  config (calls cs a) = config a /\
  (isStarted (calls cs a) = true ->
   isStarted a = true \/ exists w ws, write_array (config a) = Some (w :: ws)).
Proof.
  induction cs as [|c cs IH]; intros a; [split; auto|].
  unfold calls in *. simpl. destruct (IH (call c a)) as [Hc Hs].
  rewrite Hc, call_config. split; [done|].
  intros Hst. destruct (Hs Hst) as [Hs'|Hs'].
  - by apply (call_started c).
  - by rewrite call_config in Hs'; right.
Qed.

(** X13: a controller is started only over a write list that names a
    writer.  Built over an empty list, the controller is constructed, [start]
    throws on it and leaves it as it was, after whatever calls, and it answers
    false for every entry; over a list with a writer [start] succeeds and the
    controller is started. *)
Theorem static_start_needs_a_writer m a cs :
  new m = Ok a ->
  let a' := calls cs a in
  (isStarted a' = true -> write a' <> ∅) /\
  (write a' = ∅ ->
     start a' = (Error NoWriters, a') /\
     forall entry, canAppend entry a' = (Ok false, a')) /\
  (write a' <> ∅ -> exists a'', start a' = (Ok tt, a'') /\ isStarted a'' = true).
Proof.
  intros Hnew a'.
  destruct (AccessStaticFacts.new_write _ _ Hnew) as (ws & Hws & Hw).
  assert (Hcfg : config a = manifest_config m).
  { unfold new in Hnew. rewrite Hws in Hnew. by injection Hnew as <-. }
  assert (Hs0 : isStarted a = false).
  { unfold new in Hnew. rewrite Hws in Hnew. by injection Hnew as <-. }
  destruct (calls_started cs a) as [Hc Hst]. fold a' in Hc, Hst.
  pose proof (AccessStaticFacts.calls_write cs a) as Hwr. fold a' in Hwr.
  assert (Hempty : write a' = ∅ <-> ws = []).
  { rewrite Hwr, Hw. destruct ws as [|w ws]; [done|]. simpl.
    split; [|done]. intros Hu. exfalso.
    assert (writer_string w ∈ (∅ : gset string)) as Hin.
    { rewrite <- Hu. apply elem_of_union_l, elem_of_singleton. done. }
    by apply not_elem_of_empty in Hin. }
  split; [|split].
  - intros Hst' Hemp. apply Hempty in Hemp. subst ws.
    destruct (Hst Hst') as [?|(w & ws & Hsome)]; [congruence|].
    rewrite Hcfg, Hws in Hsome. done.
  - intros Hemp. pose proof Hemp as Hnil. apply Hempty in Hnil. subst ws.
    assert (Hstop : isStarted a' = false).
    { destruct (isStarted a') eqn:Hs; [|done].
      destruct (Hst eq_refl) as [?|(w & ws & Hsome)]; [congruence|].
      rewrite Hcfg, Hws in Hsome. done. }
    split.
    + unfold start. by rewrite Hstop, Hc, Hcfg, Hws.
    + intros entry. unfold canAppend. rewrite Hemp.
      by rewrite !bool_decide_eq_false_2 by apply not_elem_of_empty.
  - intros Hne. unfold start. destruct (isStarted a') eqn:Hs; [eauto|].
    rewrite Hc, Hcfg, Hws. destruct ws as [|w ws]; [|eauto].
    exfalso. by apply Hne, Hempty.
Qed.

End WithMultibase.

#[local] Existing Instance Examples.plain_multibase.

Lemma static_start_needs_a_writer_witness :
  new (Some Scenarios.nobody_manifest) = Ok Scenarios.nobody_access /\
  start (calls [CallStop; CallStart] Scenarios.nobody_access)
  = (Error NoWriters, calls [CallStop; CallStart] Scenarios.nobody_access).
Proof.
  assert (Hnew : new (Some Scenarios.nobody_manifest) = Ok Scenarios.nobody_access)
    by reflexivity.
  split; [exact Hnew|].
  destruct (static_start_needs_a_writer _ _ [CallStop; CallStart] Hnew)
    as (_ & Hempty & _).
  apply Hempty. reflexivity.
Defined.

End AccessStartFacts.

(** ** The factory over time *)

Module WeloRunFacts.
Import Welo WeloRun.

Lemma open_begin_error manifest options w e w' :
  open_begin manifest options w = (Error e, w') -> w' = w.
Proof.
  unfold open_begin. rewrite bind_run. unfold gets, throw. cbv beta iota.
  destruct (bool_decide (is_Some (opened w !! _))); [by intros [= _ <-]|].
  destruct (bool_decide (is_Some (_opening w !! _))); [by intros [= _ <-]|].
  destruct (from_option Some (identity w) _) as [idn|]; [|by intros [= _ <-]].
  destruct (from_option Some (datastore w) _) as [ds|]; [|by intros [= _ <-]].
  rewrite bind_run. unfold getComponents.
  repeat (destruct (find_handler _ _); [|by intros [= _ <-]]).
  rewrite bind_run. unfold modify, mret, M_ret. done.
Qed.

Lemma run_listeners_spec ls : forall w,
  exists w', run_listeners ls w = (Ok tt, w') /\
    objects w' = objects w /\ _opening w' = _opening w /\
    (forall addr, ForgetOpened addr ∈ ls -> opened w' !! addr = None) /\
    (forall addr ref, opened w' !! addr = Some ref -> opened w !! addr = Some ref).
Proof.
  induction ls as [|[a] ls IH]; intros w.
  - exists w. simpl. repeat split; try done.
    intros addr Hin. by apply elem_of_nil in Hin.
  - simpl. rewrite bind_run. unfold run_listener. rewrite bind_run.
    unfold modify, dispatchEvent, modify. cbv beta iota.
    set (w1 := set_events _ _).
    destruct (IH w1) as (w' & Hrun & Hobj & Hop & Hgone & Hsub).
    exists w'. split; [done|]. split; [by rewrite Hobj|].
    split; [by rewrite Hop|]. split.
    + intros addr Hin. apply elem_of_cons in Hin as [[= ->]|Hin]; [|by apply Hgone].
      destruct (opened w' !! a) as [ref|] eqn:Hw'; [|done].
      apply Hsub in Hw'. subst w1. simpl in Hw'. by rewrite lookup_delete_eq in Hw'.
    + intros addr ref Hw'. apply Hsub in Hw'. subst w1. simpl in Hw'.
      by apply lookup_delete_Some in Hw' as [_ ?].
Qed.

Lemma settle_in_two_turns addr outcome w :
  open_settle addr outcome w
  = let '(res, w1) :=
      match outcome with
      | Ok _ => open_then addr w
      | Error e => open_catch e w
      end in
    (res, open_finally addr w1).
Proof. by destruct outcome. Qed.

Lemma close_in_two_turns ref w :
  close_dispatch ref (close_stop ref w) = database_close ref w.
Proof.
  unfold close_dispatch, close_stop, database_close.
  destruct (objects w !! ref) as [d|] eqn:Hd; [|by rewrite Hd].
  simpl. rewrite lookup_insert_eq. simpl. by rewrite insert_insert_eq.
Qed.

Lemma elem_of_drop_one (x y : Waiting) (l : list Waiting) :
  x ∈ l -> x <> y -> x ∈ drop_one y l.
Proof.
  induction l as [|z l IH]; [done|]. simpl.
  intros [->|Hin]%elem_of_cons Hne.
  - rewrite decide_False by done. apply elem_of_cons. by left.
  - destruct (decide (y = z)); [done|]. apply elem_of_cons. right. by apply IH.
Qed.

Section WithStop.
Variable await_open : DbOpen -> M Welo unit.
Variable stop_database : nat -> M Welo unit.

Local Abbreviation step := (step await_open stop_database).
Local Abbreviation run := (run await_open stop_database).

Lemma stopping_id w : stopping await_open stop_database w = (Ok tt, w).
Proof. reflexivity. Qed.

Lemma step_tracks (a : Action) (f : Factory) : tracked f -> tracked (step a f).
Proof.
  intros [Hlive Hboth]. destruct f as [w ws]. simpl in Hlive, Hboth.
  destruct a as [manifest options|addr|addr e|addr|ref|ref|]; simpl.
  - destruct (open_begin manifest options w) as [[request|e] w1] eqn:Hbegin.
    + apply WeloFacts.open_begin_ok in Hbegin as (Ho & Hp & ->).
      split; simpl; [done|]. intros addr Hsome Hopening.
      apply Hboth; [done|].
      rewrite lookup_insert_ne in Hopening; [done|].
      intros <-. rewrite Ho in Hsome. by destruct Hsome.
    + apply open_begin_error in Hbegin as ->. done.
  - unfold unsettled. simpl.
    destruct (bool_decide (is_Some _)) eqn:Hop; [|done].
    destruct (bool_decide (Finally addr ∈ ws)) eqn:Hfin; [done|].
    cbn [andb negb].
    pose proof (is_fresh (dom (objects w))) as Hfresh.
    apply not_elem_of_dom in Hfresh.
    split; simpl.
    + intros addr' ref'. destruct (decide (addr' = addr)) as [->|Hne].
      * rewrite lookup_insert_eq. intros [= <-].
        eexists. rewrite lookup_alter_eq, lookup_insert_eq. simpl. done.
      * rewrite lookup_insert_ne by done. intros Hopened.
        destruct (Hlive _ _ Hopened) as (d & Hd & Haddr & Hls & Hst). exists d.
        split.
        { rewrite lookup_alter_ne, lookup_insert_ne; [done| |];
            intros <-; congruence. }
        split; [done|]. split; [done|].
        intros Hstop. apply elem_of_app. left. by apply Hst.
    + intros addr'. destruct (decide (addr' = addr)) as [->|Hne].
      * intros _ _. apply elem_of_app. right. apply elem_of_cons. by left.
      * rewrite lookup_insert_ne by done. intros Ho Hp.
        apply elem_of_app. left. by apply Hboth.
  - unfold unsettled. simpl.
    destruct (bool_decide (is_Some _)) eqn:Hop; [|done].
    destruct (bool_decide (Finally addr ∈ ws)) eqn:Hfin; [done|].
    cbn [andb negb].
    split; simpl.
    + intros addr' ref' Hopened.
      destruct (Hlive _ _ Hopened) as (d & Hd & Haddr & Hls & Hst). exists d.
      split; [done|]. split; [done|]. split; [done|].
      intros Hstop. apply elem_of_app. left. by apply Hst.
    + intros addr' Ho Hp. apply elem_of_app. left. by apply Hboth.
  - destruct (bool_decide (Finally addr ∈ ws)) eqn:Hfin; [|done].
    split; simpl.
    + intros addr' ref' Hopened.
      destruct (Hlive _ _ Hopened) as (d & Hd & Haddr & Hls & Hst). exists d.
      split; [done|]. split; [done|]. split; [done|].
      intros Hstop. apply elem_of_drop_one; [by apply Hst|done].
    + intros addr' Ho Hp. destruct (decide (addr' = addr)) as [->|Hne].
      * rewrite lookup_delete_eq in Hp. by destruct Hp.
      * rewrite lookup_delete_ne in Hp by done.
        apply elem_of_drop_one; [by apply Hboth|congruence].
  - destruct (bool_decide (is_Some (objects w !! ref))) eqn:Hsome; [|done].
    apply bool_decide_eq_true in Hsome as [d Hd].
    unfold close_stop. rewrite Hd.
    split; simpl.
    + intros addr' ref' Hopened.
      destruct (Hlive _ _ Hopened) as (d' & Hd' & Haddr & Hls & Hst).
      destruct (decide (ref' = ref)) as [->|Hne].
      * assert (d' = d) as -> by congruence.
        eexists. rewrite lookup_insert_eq. split; [done|]. simpl.
        split; [done|]. split; [done|]. intros _.
        apply elem_of_app. right. apply elem_of_cons. by left.
      * exists d'. rewrite lookup_insert_ne by done.
        split; [done|]. split; [done|]. split; [done|].
        intros Hstop. apply elem_of_app. left. by apply Hst.
    + intros addr' Ho Hp. apply elem_of_app. left. by apply Hboth.
  - destruct (bool_decide (DispatchClosed ref ∈ ws)) eqn:Hin; [|done].
    unfold close_dispatch.
    destruct (objects w !! ref) as [d|] eqn:Hd.
    + set (w0 := set_objects _ w).
      destruct (run_listeners_spec (closed_once d) w0)
        as (w1 & Hrun & Hobj & Hop & Hgone & Hsub).
      rewrite Hrun. split; simpl.
      * intros addr' ref' Hw1. pose proof (Hsub _ _ Hw1) as Hw.
        subst w0. simpl in Hw.
        destruct (Hlive _ _ Hw) as (d' & Hd' & Haddr & Hls & Hst).
        destruct (decide (ref' = ref)) as [->|Hne].
        -- assert (d' = d) as -> by congruence.
           rewrite Hgone in Hw1; [done|]. rewrite Hls. apply elem_of_cons. by left.
        -- exists d'. rewrite Hobj. simpl. rewrite lookup_insert_ne by done.
           split; [done|]. split; [done|]. split; [done|].
           intros Hstop. apply elem_of_drop_one; [by apply Hst|congruence].
      * intros addr' [ref' Hw1] Hp. rewrite Hop in Hp. subst w0. simpl in Hp.
        apply Hsub in Hw1. simpl in Hw1.
        apply elem_of_drop_one; [apply Hboth; eauto|done].
    + split; simpl.
      * intros addr' ref' Hopened.
        destruct (Hlive _ _ Hopened) as (d' & Hd' & Haddr & Hls & Hst). exists d'.
        split; [done|]. split; [done|]. split; [done|].
        intros Hstop. apply elem_of_drop_one; [by apply Hst|].
        intros [= ->]. congruence.
      * intros addr' Ho Hp. apply elem_of_drop_one; [by apply Hboth|done].
  - done.
Qed.

(** X14: between any two turns of a factory (a call of [open] up to
    [Database.open], the [then], the [catch] and the [finally] of its promise,
    [close] of a database up to the end of its [await] and the dispatch of
    [closed] after it, [stopping]), each database in [opened] is held under
    its own address and carries the listener that will forget it, and it is
    started unless its [closed] waits to be dispatched; an address that is in
    [opened] and still in [_opening] is one whose [finally] waits.  So when
    nothing waits, each database in [opened] is started and no address is both
    open and being opened.  [stopping] is among the turns: it stops no
    database and forgets none. *)
Theorem factory_tracks_open_databases (actions : list Action) idn ds reps hs dir :
  let f := run actions (boot idn ds reps hs dir) in
  let w := welo f in
  (forall addr ref, opened w !! addr = Some ref ->
     exists d, objects w !! ref = Some d /\
       database_address d = addr /\
       closed_once d = [ForgetOpened addr] /\
       (database_isStarted d = false -> DispatchClosed ref ∈ waiting f)) /\
  (forall addr, is_Some (opened w !! addr) -> is_Some (_opening w !! addr) ->
     Finally addr ∈ waiting f) /\
  (waiting f = [] ->
     (forall addr ref, opened w !! addr = Some ref ->
        exists d, objects w !! ref = Some d /\ database_address d = addr /\
          database_isStarted d = true /\ closed_once d = [ForgetOpened addr]) /\
     (forall addr, is_Some (opened w !! addr) -> _opening w !! addr = None)) /\
  (forall f0, step Stopping f0 = f0).
Proof.
  intros f w.
  assert (Htracked : tracked f).
  { subst f.
    assert (Hboot : tracked (boot idn ds reps hs dir)).
    { split; simpl.
      - intros addr ref Hopened. by rewrite lookup_empty in Hopened.
      - intros addr Hopened. rewrite lookup_empty in Hopened. by destruct Hopened. }
    revert Hboot. generalize (boot idn ds reps hs dir).
    induction actions as [|a actions IH]; intros f0 Hf0; [done|].
    unfold run. simpl. apply IH. by apply step_tracks. }
  destruct Htracked as [Hlive Hboth]. fold w in Hlive, Hboth.
  split; [exact Hlive|]. split; [exact Hboth|]. split.
  - intros Hnone. rewrite Hnone in Hlive, Hboth. split.
    + intros addr ref Hopened.
      destruct (Hlive _ _ Hopened) as (d & Hd & Haddr & Hls & Hst). exists d.
      split; [done|]. split; [done|]. split; [|done].
      destruct (database_isStarted d); [done|].
      by apply elem_of_nil in Hst.
    + intros addr Hopened.
      destruct (_opening w !! addr) as [request|] eqn:Hp; [|done].
      exfalso. eapply elem_of_nil, Hboth; eauto.
  - by intros [w0 ws0].
Qed.

End WithStop.

(** X15: when [Database.open] fails, [open] throws 'failed opening database'
    after writing the error to the console, and the factory is otherwise as it
    was before the call: the address is in neither [opened] nor [_opening], no
    event is dispatched.  So the database can be opened by a later call. *)
Theorem failed_open_can_be_retried w manifest options e request w1 :
  open_begin manifest options w = (Ok request, w1) ->
  open manifest options (Error e) w
    = (Error FailedOpening, set_console (console w ++ [e]) w) /\
  exists ref w2,
    open manifest options (Ok tt) (open manifest options (Error e) w).2
      = (Ok ref, w2) /\
    opened w2 !! manifest_address manifest = Some ref.
Proof.
  intros Hbegin.
  pose proof (WeloFacts.open_begin_ok _ _ _ _ _ Hbegin) as (Ho & Hp & ->).
  assert (Hfail : open manifest options (Error e) w
                  = (Error FailedOpening, set_console (console w ++ [e]) w)).
  { unfold open. rewrite bind_run, Hbegin.
    unfold open_settle, finally. rewrite !bind_run.
    unfold modify, throw. cbv beta iota. simpl.
    unfold set_opening, set_console. simpl.
    by rewrite delete_insert_id. }
  split; [done|]. rewrite Hfail. simpl.
  assert (Hagain : open_begin manifest options (set_console (console w ++ [e]) w)
    = (Ok request,
       set_opening (<[manifest_address manifest := request]> (_opening w))
         (set_console (console w ++ [e]) w))).
  { revert Hbegin. unfold open_begin. rewrite !bind_run. unfold gets. cbv beta iota.
    simpl.
    destruct (bool_decide (is_Some (opened w !! _))); [done|].
    destruct (bool_decide (is_Some (_opening w !! _))); [done|].
    destruct (from_option Some (identity w) _) as [idn|]; [|done].
    destruct (from_option Some (datastore w) _) as [ds|]; [|done].
    rewrite !bind_run. unfold getComponents. simpl.
    repeat (destruct (find_handler _ _); [|done]).
    rewrite !bind_run. unfold modify, mret, M_ret. by intros [= <-]. }
  unfold open. rewrite bind_run, Hagain.
  unfold open_settle, finally. rewrite !bind_run.
  unfold new_database, modify, dispatchEvent, add_closed_listener, modify,
    mret, M_ret. cbv beta iota zeta. simpl.
  eexists _, _. split; [reflexivity|]. simpl. by rewrite lookup_insert_eq.
Qed.

Lemma failed_open_can_be_retried_witness :
  open Examples.manifest0 Examples.no_options (Error StoreIO) Examples.factory
  = (Error FailedOpening, set_console [StoreIO] Examples.factory).
Proof.
  assert (Hok : is_ok (open_begin Examples.manifest0 Examples.no_options
                         Examples.factory).1 = true)
    by (vm_compute; reflexivity).
  destruct (open_begin Examples.manifest0 Examples.no_options Examples.factory)
    as [[request|e] w1] eqn:Hbegin; [|discriminate Hok].
  exact (proj1 (failed_open_can_be_retried Examples.factory Examples.manifest0
                  Examples.no_options StoreIO request w1 Hbegin)).
Defined.

End WeloRunFacts.

(** ** The earlier factory *)

Module OpalFacts.
Import Opal.

Section WithManifest.
Context {Manifest Components : Type}.
Variable address : Manifest -> string.
Variable getComponents : Manifest -> option Components.

Lemma run_listeners_opening db ls : forall o,
  _opening (foldl (fun o l => run_listener db l o) o ls) = _opening o /\
  (forall s, opened o !! s = None ->
     opened (foldl (fun o l => run_listener db l o) o ls) !! s = None).
Proof.
  induction ls as [|[a] ls IH]; intros o; [done|]. simpl.
  destruct (IH (run_listener db (ForgetOpened a) o)) as [Hop Hnone].
  split; [exact Hop|]. intros s Hs. apply Hnone. simpl.
  apply lookup_delete_None. by right.
Qed.

Lemma step_keeps_opening (a : Action (Manifest := Manifest)) (o : Opal) s :
  (forall outcome, a <> Settle s outcome) ->
  s ∈ _opening o -> opened o !! s = None ->
  s ∈ _opening (step address getComponents a o) /\
  opened (step address getComponents a o) !! s = None.
Proof.
  intros Ha Hin Hnone. destruct a as [manifest|s' outcome|db]; simpl.
  - unfold open_begin. destruct (_ || _); [done|].
    destruct (getComponents manifest); [|done]. simpl.
    split; [|done]. apply elem_of_union. by left.
  - assert (s' <> s) by (intros ->; by apply (Ha outcome)).
    destruct outcome as [[]|e]; simpl; [|done].
    split.
    + apply elem_of_difference. split; [done|].
      by intros ?%elem_of_singleton.
    + by rewrite lookup_insert_ne.
  - unfold database_closed. destruct (objects o !! db) as [d|]; [|done].
    destruct (run_listeners_opening db (closed_once d)
      {| opened := opened o; _opening := _opening o; emitted := emitted o;
         console := console o;
         objects := <[db := {| closed_once := [] |}]> (objects o) |})
      as [Hop Hkeep].
    rewrite Hop. split; [done|]. by apply Hkeep.
Qed.

(** X16: when [Database.open] fails, [open] throws 'failed opening
    database' and the address stays in [_opening]: only the [then] of a
    successful open deletes it.  The promise of the address has settled and
    no other is made for it: from then on, whatever else is opened, fails to
    open or is closed, the address is never in [opened] and every [open] of a
    manifest with that address throws 'already open or being opened' and
    leaves the factory as it is. *)
Theorem opal_failed_open_sticks (o : Opal) (manifest : Manifest) (e : string)
    (c : Components) (actions : list Action) :
  let s := address manifest in
  (open_begin address getComponents manifest o).1 = Ok c ->
  Forall (fun a => forall outcome, a <> Settle s outcome) actions ->
  (open address getComponents manifest (Error e) o).1
    = Error (FailedOpeningDatabase s) /\
  let o' := run address getComponents actions
              (open address getComponents manifest (Error e) o).2 in
  s ∈ _opening o' /\ opened o' !! s = None /\
  forall manifest' outcome, address manifest' = s ->
    open address getComponents manifest' outcome o' = (Error (IsOpen s), o').
Proof.
  intros s Hbegin Hall.
  assert (Hfail : exists o1,
    open address getComponents manifest (Error e) o
      = (Error (FailedOpeningDatabase s), o1) /\
    s ∈ _opening o1 /\ opened o1 !! s = None).
  { unfold open. revert Hbegin. unfold open_begin. fold s.
    destruct (bool_decide (is_Some (opened o !! s))) eqn:Ho; [done|].
    destruct (bool_decide (s ∈ _opening o)); [done|]. simpl.
    destruct (getComponents manifest); [|done]. simpl. intros _.
    eexists. split; [reflexivity|]. simpl.
    split; [apply elem_of_union_r, elem_of_singleton; done|].
    apply bool_decide_eq_false in Ho. by apply eq_None_not_Some. }
  destruct Hfail as (o1 & -> & Hin & Hnone). split; [done|]. simpl.
  assert (Hrun : s ∈ _opening (run address getComponents actions o1) /\
                 opened (run address getComponents actions o1) !! s = None).
  { clear Hbegin. revert o1 Hin Hnone.
    induction Hall as [|a actions Ha _ IH]; intros o1 Hin Hnone; [done|].
    unfold run. simpl.
    destruct (step_keeps_opening a o1 s Ha Hin Hnone) as [Hin' Hnone'].
    by apply IH. }
  destruct Hrun as [Hin' Hnone']. split; [done|]. split; [done|].
  intros manifest' outcome Haddr. unfold open, open_begin. rewrite Haddr.
  rewrite (bool_decide_eq_true_2 (s ∈ _)) by done.
  by rewrite orb_true_r.
Qed.

End WithManifest.

Lemma opal_failed_open_sticks_witness :
  let getComponents := fun _ : string => Some tt in
  let o' :=
    run id getComponents
      [Begin "zdpu1"%string; Settle "zdpu1" (Ok tt); Begin "zdpu0"%string; Closed 0]
      (open id getComponents "zdpu0"%string (Error "unreadable"%string) new).2 in
  open id getComponents "zdpu0"%string (Ok tt) o' = (Error (IsOpen "zdpu0"), o').
Proof.
  intros getComponents o'.
  refine (proj2 (proj2 (proj2
    (opal_failed_open_sticks id getComponents new "zdpu0"%string
       "unreadable"%string tt
       [Begin "zdpu1"%string; Settle "zdpu1" (Ok tt); Begin "zdpu0"%string;
        Closed 0] eq_refl _))) "zdpu0"%string (Ok tt) eq_refl).
  repeat constructor; discriminate.
Defined.

End OpalFacts.

(** ** The bootstrap replicator *)

Module BootstrapFacts.
Import Bootstrap.

Section WithNode.
Variable self : string.
Variable protocol : string.
Variable save : string -> bool.
Variable dial : string -> option Bytes.
Variable parseHeads : Bytes -> bool.

Local Abbreviation contact := (contact self protocol save dial parseHeads).
Local Abbreviation bootstrap := (bootstrap self protocol save dial parseHeads).
Local Abbreviation starting := (starting self protocol save dial parseHeads).

Lemma bootstrap_app (pre rest : list Peer) :
  Forall (fun q => (contact q).2 = true) pre ->
  bootstrap (pre ++ rest)
  = ((pre ≫= fun q => (contact q).1) ++ (bootstrap rest).1, (bootstrap rest).2).
Proof.
  induction 1 as [|q pre Hq _ IH]; simpl.
  - by destruct (bootstrap rest).
  - destruct (contact q) as [calls ok]. simpl in Hq. subst ok.
    rewrite IH. simpl. by rewrite app_assoc.
Qed.

(** X17: the [try] of [starting] is around the whole loop: at the first
    provider whose turn throws (its record cannot be saved, it cannot be
    dialled, or its answer cannot be parsed) the loop ends, the providers
    after it are not looked at, the error is written to the console and
    [starting] resolves.  The node itself is passed over; a provider that does
    not list the protocol is saved and dialled like the others. *)
Theorem bootstrap_stops_at_first_failure (pre post : list Peer) (p : Peer)
    (aborted : bool) :
  Forall (fun q => (contact q).2 = true) pre ->
  (contact p).2 = false ->
  starting true (pre ++ p :: post) aborted
  = (Handle protocol
       :: ((pre ≫= fun q => (contact q).1) ++ (contact p).1) ++ [ConsoleError],
     true) /\
  (forall q, peer_id q = self -> contact q = ([], true)) /\
  (forall q, peer_id q <> self -> save (peer_id q) = true ->
     Dial (peer_id q) protocol ∈ (contact q).1).
Proof.
  intros Hpre Hp. split; [|split].
  - unfold starting. simpl. rewrite bootstrap_app by done. simpl.
    destruct (contact p) as [calls ok]. simpl in Hp. subst ok. done.
  - intros q Hq. unfold Bootstrap.contact. by rewrite bool_decide_eq_true_2.
  - intros q Hq Hsave. unfold Bootstrap.contact.
    rewrite bool_decide_eq_false_2 by done. rewrite Hsave. simpl.
    destruct (dial (peer_id q)); apply elem_of_cons; right;
      apply elem_of_cons; by left.
Qed.

End WithNode.

Lemma bootstrap_stops_at_first_failure_witness :
  starting "me" "/boot" (fun _ => true) Scenarios.dial_all_but_bad (fun _ => true)
    true
    [Scenarios.provider "me"; Scenarios.provider "p1"; Scenarios.provider "bad";
     Scenarios.provider "p2"] false
  = ([Handle "/boot"; Save "p1"; Dial "p1" "/boot"; ParseHeads [x00];
      Save "bad"; Dial "bad" "/boot"; ConsoleError], true).
Proof.
  refine (proj1 (bootstrap_stops_at_first_failure "me" "/boot" (fun _ => true)
                   Scenarios.dial_all_but_bad (fun _ => true)
                   [Scenarios.provider "me"; Scenarios.provider "p1"]
                   [Scenarios.provider "p2"] (Scenarios.provider "bad") false
                   _ eq_refl)).
  repeat constructor.
Defined.

End BootstrapFacts.

(** ** The events a database relays *)

Module DatabaseEventsFacts.
Import DatabaseEvents.

Lemma run_callbacks_others (ls : list Callback) : forall d,
  OnStoreUpdate ∉ ls ->
  foldl (fun d l => run_callback l d) d ls = d.
Proof.
  induction ls as [|l ls IH]; intros d Hnot; [done|].
  apply not_elem_of_cons in Hnot as [Hl Hls]. simpl.
  destruct l; [done|]. simpl. by apply IH.
Qed.

Lemma calls_keep_listener (cs : list Call) : forall d ls,
  store_update d = ls ++ [OnStoreUpdate] ->
  store_update (calls cs d) = ls ++ [OnStoreUpdate] /\
  updates (calls cs d) = updates d.
Proof.
  induction cs as [|c cs IH]; intros d ls Hd; [done|].
  unfold calls in *. simpl. destruct c; simpl.
  - destruct (IH (starting d) ls) as [Hs Hu]; [|done].
    unfold starting, addEventListener. simpl.
    rewrite bool_decide_eq_true_2; [done|].
    rewrite Hd. apply elem_of_app. right. apply elem_of_cons. by left.
  - by destruct (IH (stopping d) ls) as [Hs Hu].
Qed.

(** X18: [starting] puts the listener of [update] on the events of the
    store and [stopping] takes it off the events of the replica, where it is
    not: once a database has started, the listener stays on the store, once,
    however often the database is stopped and started.  A database that was
    stopped still dispatches [update] each time its store does, and never
    because its replica did. *)
Theorem stopped_database_still_relays (cs : list Call) (d : Database) :
  OnStoreUpdate ∉ store_update d ->
  OnStoreUpdate ∉ replica_update d ->
  let d' := calls (Starting :: cs) d in
  store_update d' = store_update d ++ [OnStoreUpdate] /\
  updates (store_dispatches_update d') = S (updates d') /\
  replica_dispatches_update d' = d'.
Proof.
  intros Hstore Hreplica d'. subst d'.
  change (calls (Starting :: cs) d) with (calls cs (starting d)).
  destruct (calls_keep_listener cs (starting d) (store_update d)) as [Hs Hu].
  { unfold starting, addEventListener. simpl.
    by rewrite bool_decide_eq_false_2. }
  split; [done|]. split.
  - unfold store_dispatches_update. rewrite Hs, foldl_app.
    by rewrite (run_callbacks_others (store_update d)).
  - unfold replica_dispatches_update. apply run_callbacks_others.
    assert (Hsub : forall cs d0, OnStoreUpdate ∉ replica_update d0 ->
              OnStoreUpdate ∉ replica_update (calls cs d0)).
    { clear. induction cs as [|c cs IH]; intros d0 Hd0; [done|].
      unfold calls in *. simpl. apply IH. destruct c; simpl; [done|].
      unfold removeEventListener. intros Hin.
      apply list_elem_of_filter in Hin as [_ Hin]. done. }
    by apply Hsub.
Qed.

Lemma stopped_database_still_relays_witness :
  updates (store_dispatches_update
             (calls [Starting; Stopping; Stopping] Scenarios.closed_database))
  = 1%nat.
Proof.
  refine (proj1 (proj2 (stopped_database_still_relays [Stopping; Stopping]
                          Scenarios.closed_database _ _))).
  - intros Hin. apply elem_of_cons in Hin as [Hin|Hin]; [discriminate Hin|].
    by apply elem_of_nil in Hin.
  - apply not_elem_of_nil.
Defined.

End DatabaseEventsFacts.

(** ** Starting and stopping the earlier factory *)

Module OpalLifecycleFacts.
Import OpalLifecycle.

Lemma start_when_started (o : Opal) : isStarted o = true -> start o = o.
Proof. intros Hs. unfold start. by rewrite Hs. Qed.

(** X19: [stop] sets [_isStarted] to false only at the end of the function
    it starts, after two awaits, and [start] returns at once while
    [isStarted] answers true: a [start] called after [stop], before the
    stopping has gone on, does nothing, whatever happens afterwards, and the
    factory ends stopped with [stop] emitted and no [start].  The other way
    round, a [stop] called right after [start] waits for the start and then
    stops. *)
Theorem start_during_stop_is_dropped (o : Opal) (later : list Action) :
  isStarted o = true ->
  _starting o = false -> _stopping o = None -> tasks o = [] ->
  run (CallStop :: CallStart :: later) o = run (CallStop :: later) o /\
  (let o' := run [CallStop; CallStart; Resume 0; Resume 0; Resume 0] o in
   isStarted o' = false /\ emitted o' = emitted o ++ [EmitStop] /\
   tasks o' = [] /\ _stopping o' = None) /\
  (let o' := run [CallStop; Resume 0; Resume 0; Resume 0;
                  CallStart; CallStop; Resume 0; Resume 0; Resume 0; Resume 0;
                  Resume 0] o in
   isStarted o' = false /\
   emitted o' = emitted o ++ [EmitStop; EmitStart; EmitStop] /\
   tasks o' = []).
Proof.
  intros Hs Hst Hsp Ht. destruct o as [s st sp res n em ts].
  simpl in Hs, Hst, Hsp, Ht. subst s st sp ts.
  assert (Hn : forall (k : nat) (r : list nat),
            existsb (Nat.eqb k) (r ++ [k]) = true).
  { intros k r. rewrite existsb_app. simpl.
    by rewrite Nat.eqb_refl, orb_true_r. }
  split; [reflexivity|]. split.
  - intros o'.
    assert (o' = {| _isStarted := false; _starting := false; _stopping := None;
                    resolved := res ++ [n]; promises := S n;
                    emitted := em ++ [EmitStop]; tasks := [] |}) as ->; [|done].
    subst o'. cbn. by rewrite Hn.
  - intros o'.
    assert (o' = {| _isStarted := false; _starting := false; _stopping := None;
                    resolved := (res ++ [n]) ++ [S n]; promises := S (S n);
                    emitted := ((em ++ [EmitStop]) ++ [EmitStart]) ++ [EmitStop];
                    tasks := [] |}) as ->.
    { subst o'. cbn. rewrite Hn. cbn.
      rewrite existsb_app. cbn. rewrite Nat.eqb_refl. cbn.
      by rewrite orb_true_r. }
    simpl. by rewrite <- !app_assoc.
Qed.

Lemma start_during_stop_is_dropped_witness :
  isStarted Scenarios.started_opal = true /\
  isStarted (run [CallStop; CallStart; Resume 0; Resume 0; Resume 0]
               Scenarios.started_opal) = false.
Proof.
  split; [reflexivity|].
  exact (proj1 (proj1 (proj2
    (start_during_stop_is_dropped Scenarios.started_opal []
       eq_refl eq_refl eq_refl eq_refl)))).
Defined.

End OpalLifecycleFacts.
